(** * GLB particle manipulation: the WebGPU simulation core

    A shallow embedding of the compute shaders (WGSL, kept as template
    strings in the JavaScript modules), of the host code that feeds them
    ([updateUniforms], [animate], [syncWebGPUParticles]) and of the CPU morph
    tween ([manualMorph]).

    Numbers.  [f32] and JavaScript numbers are modelled by real numbers.
    Rounding is modelled, with the round-to-nearest-even of [IEEE], where a
    property of the code depends on it: the result of [fract] and the life a
    respawn draws (binary32), the numbers [updateUniforms] stores in its
    [Float32Array]s (binary32), the arithmetic of the CPU tween (binary64)
    and its store (binary32).  Elsewhere arithmetic is exact.  Overflow and
    the non-finite values are outside the model.  A
    division written in a shader is partial: it has no value when the
    divisor is zero, and neither has an invocation that reaches it.
    JavaScript values that are not finite numbers ([undefined], [NaN],
    booleans) appear only where the host code inspects them (the [||]
    defaults, a read past the end of an array).

    Buffers are lists, indexed with stdpp's [!!] and updated with
    [<[i:=x]>]. *)

From Stdlib Require Import Reals Lra Lia ZArith.
From stdpp Require Import base option list relations strings gmap.

Open Scope R_scope.

(** ** Binary floating point

    Rounding to the nearest number of a format of [prec] bits whose smallest
    exponent is [emin], ties to the even mantissa, as IEEE 754 has it for
    binary32 ([f32], the elements of a [Float32Array]) and binary64
    (JavaScript numbers).  The largest exponent is not modelled: a number
    beyond the range of the format, which IEEE rounds to an infinity, is
    outside the model. *)

Module IEEE.

Definition bpow (e : Z) : R := powerRZ 2 e.

(** The binade of [x]: [bpow (mag x - 1) <= |x| < bpow (mag x)] when [x] is
    not zero. *)
Definition mag (x : R) : Z := (Zfloor (ln (Rabs x) / ln 2) + 1)%Z.

(** The nearest integer, a tie going to the even one. *)
Definition rne (x : R) : Z :=
  let f := Zfloor x in
  if Rlt_dec (x - IZR f) (1 / 2) then f
  else if Rlt_dec (1 / 2) (x - IZR f) then (f + 1)%Z
  else if Z.even f then f else (f + 1)%Z.

(** The exponent of the last bit of [x] in the format. *)
Definition cexp (prec emin : Z) (x : R) : Z := Z.max (mag x - prec) emin.

Definition round (prec emin : Z) (x : R) : R :=
  IZR (rne (x * bpow (- cexp prec emin x))) * bpow (cexp prec emin x).

Definition binary32 : R -> R := round 24 (-149).
Definition binary64 : R -> R := round 53 (-1074).

(** The largest binary32 number. *)
Definition max32 : R := (2 - bpow (-23)) * bpow 127.

End IEEE.

(** ** Vectors and the WGSL built-ins the shaders use *)

Module Vec.

Record vec2 := V2 { x2 : R; y2 : R }.
Record vec3 := V3 { vx : R; vy : R; vz : R }.

Definition vzero : vec3 := V3 0 0 0.

(** [vec3<f32>(s)]: the scalar in every component. *)
Definition splat (s : R) : vec3 := V3 s s s.

Definition vadd (a b : vec3) : vec3 := V3 (vx a + vx b) (vy a + vy b) (vz a + vz b).
Definition vsub (a b : vec3) : vec3 := V3 (vx a - vx b) (vy a - vy b) (vz a - vz b).
Definition vneg (a : vec3) : vec3 := V3 (- vx a) (- vy a) (- vz a).

(** [v * s] and [v + s] with a scalar [s] act on every component. *)
Definition vscale (a : vec3) (s : R) : vec3 := V3 (vx a * s) (vy a * s) (vz a * s).
Definition vadds (a : vec3) (s : R) : vec3 := V3 (vx a + s) (vy a + s) (vz a + s).

Definition dot (a b : vec3) : R := vx a * vx b + vy a * vy b + vz a * vz b.

(** The built-in [length]. *)
Definition vlength (a : vec3) : R := sqrt (dot a a).

(** [a / b] on scalars and [v / s] on a vector: no real value when the
    divisor is zero. *)
Definition rdiv (a b : R) : option R :=
  if Req_dec_T b 0 then None else Some (a / b).
Definition vdiv (a : vec3) (s : R) : option vec3 :=
  if Req_dec_T s 0 then None else Some (V3 (vx a / s) (vy a / s) (vz a / s)).

(** [mix(a, b, t) = a * (1 - t) + b * t], on scalars and on vectors. *)
Definition mix (a b t : R) : R := a * (1 - t) + b * t.
Definition vmix (a b : vec3) (t : R) : vec3 :=
  V3 (mix (vx a) (vx b) t) (mix (vy a) (vy b) t) (mix (vz a) (vz b) t).

Definition clamp (x lo hi : R) : R := Rmin (Rmax x lo) hi.

(** [smoothstep(e0, e1, x)]: Hermite interpolation of the clamped ratio. *)
Definition smoothstep (e0 e1 x : R) : R :=
  let t := clamp ((x - e0) / (e1 - e0)) 0 1 in
  t * t * (3 - 2 * t).

(** [pow(x, y) = exp2(y * log2(x))], which is [exp (y * ln x)]. *)
Definition pow (x y : R) : R := Rpower x y.

(** [fract(x) = x - floor(x)], an [f32]: the difference is rounded, and it
    is [1.0] for an [x] just below an integer. *)
Definition fract (x : R) : R := IEEE.binary32 (frac_part x).

(** [u32(x)] on a float: truncation, clamped to the range of [u32]. *)
Definition u32 (x : R) : nat := Z.to_nat (Z.min (Int_part x) 4294967295).

End Vec.
Export Vec.

Declare Scope vec_scope.
Delimit Scope vec_scope with V.
Infix "+v" := vadd (at level 50, left associativity) : vec_scope.
Infix "-v" := vsub (at level 50, left associativity) : vec_scope.
Infix "*s" := vscale (at level 40, left associativity) : vec_scope.
Open Scope vec_scope.

(** ** Particles

    [struct Particle] is the same in every shader of the repository; its
    last field is called [targetPos] in one variant and [target] in the
    other. *)

Record Particle := mkParticle {
  position : vec3;
  velocity : vec3;
  life : R;
  size : R;
  color : vec3;
  targetPos : vec3
}.

Definition set_position (p : Particle) (v : vec3) : Particle :=
  mkParticle v (velocity p) (life p) (size p) (color p) (targetPos p).
Definition set_velocity (p : Particle) (v : vec3) : Particle :=
  mkParticle (position p) v (life p) (size p) (color p) (targetPos p).
Definition set_life (p : Particle) (l : R) : Particle :=
  mkParticle (position p) (velocity p) l (size p) (color p) (targetPos p).
Definition set_color (p : Particle) (c : vec3) : Particle :=
  mkParticle (position p) (velocity p) (life p) (size p) c (targetPos p).

(** ** The particle pass (the [particleComputeShader] string) *)

Module ParticlePass.

Record Uniforms := mkUniforms {
  time : R;
  deltaTime : R;
  particleCount : R;
  gravity : R;
  turbulence : R;
  attraction : R;
  morphProgress : R;
  mousePos : vec2;
  hoverRadius : R;
  hoverStrength : R;
  mouseInfluence : R;
  hoverRepulsion : R;
  respawnRate : R
}.

(** [fn hash(p)]: the pseudo-random number used at respawn. *)
Definition hash (p : vec3) : R :=
  fract (sin (dot p (V3 12.9898 78.233 54.53)) * 43758.5453).

(** [1.0 + h * 2.0] in [f32], for a hash value [h]: the life a respawn
    writes. *)
Definition new_life (h : R) : R := IEEE.binary32 (1 + IEEE.binary32 (h * 2)).

(** The body of the branch [if (particle.life <= 0.0)]: a new position
    inside a sphere, no velocity, and a new life drawn from the new
    position. *)
Definition respawn (u : Uniforms) (particle : Particle) : Particle :=
  let randomVec :=
    V3 (hash (vadds (position particle) (time u)))
       (hash (velocity particle))
       (hash (targetPos particle)) in
  let theta := vx randomVec * 2 * 3.14159 in
  let phi := acos (2 * vy randomVec - 1) in
  let radius := vz randomVec * 5 in
  let particle :=
    set_position particle
      (V3 (radius * sin phi * cos theta)
          (radius * sin phi * sin theta)
          (radius * cos phi)) in
  let particle := set_velocity particle vzero in
  set_life particle (new_life (hash (position particle))).

(** Step 1, "Particle Life Cycle". *)
Definition life_cycle (u : Uniforms) (particle : Particle) : Particle :=
  let dt := deltaTime u in
  let particle := set_life particle (life particle - dt * respawnRate u) in
  if Rle_dec (life particle) 0 then respawn u particle else particle.

(** Step 2, "Calculate Forces". *)
Definition gravityForce (u : Uniforms) : vec3 := V3 0 (- gravity u) 0.

Definition targetForce (u : Uniforms) (targets : list vec3) (index : nat)
    (particle : Particle) : vec3 :=
  let attractionTarget :=
    match targets !! index with
    | Some morphTarget => vmix (targetPos particle) morphTarget (morphProgress u)
    | None => targetPos particle
    end in
  (attractionTarget -v position particle) *s attraction u.

(** "Mouse Interaction".  [None]: the direction [mouseVec / mouseDistance]
    has no value. *)
Definition mouseForce (u : Uniforms) (particle : Particle) : option vec3 :=
  if Rgt_dec (hoverRadius u) 0 then
    let mousePos3D := V3 (x2 (mousePos u)) (y2 (mousePos u)) 0 in
    let mouseVec := position particle -v mousePos3D in
    let mouseDistance := vlength mouseVec in
    if Rlt_dec mouseDistance (hoverRadius u) then
      direction ← vdiv mouseVec mouseDistance;
      ratio ← rdiv mouseDistance (hoverRadius u);
      let falloff := pow (1 - ratio) 2 in
      let strength := falloff * hoverStrength u * mouseInfluence u in
      if Rgt_dec (hoverRepulsion u) 0.5
      then Some (direction *s strength)
      else Some (vneg direction *s strength)
    else Some vzero
  else Some vzero.

(** Step 3, "Apply Forces and Update State". *)
Definition integrate (u : Uniforms) (force : vec3) (particle : Particle) : Particle :=
  let dt := deltaTime u in
  let particle := set_velocity particle (velocity particle +v force *s dt) in
  let particle := set_velocity particle (velocity particle *s 0.98) in
  set_position particle (position particle +v velocity particle *s dt).

(** Step 4, "Update Visuals". *)
Definition slowColor : vec3 := V3 0.1 0.4 0.9.
Definition fastColor : vec3 := V3 1 0.9 0.3.

Definition update_color (particle : Particle) : Particle :=
  let speed := clamp (vlength (velocity particle)) 0 0.5 in
  set_color particle (vmix slowColor fastColor (smoothstep 0 0.5 speed)).

Section Noise.

(** The noise library of the shader ([snoise] and the [curlNoise] built on
    it) is a parameter: no property below depends on the values of the
    noise field. *)
Variable curlNoise : vec3 -> vec3.

Definition turbulenceForce (u : Uniforms) (particle : Particle) : vec3 :=
  let noisePos := position particle *s 0.2 in
  curlNoise (noisePos +v splat (time u * 0.05)) *s turbulence u.

(** Steps 2 to 4, on the particle that step 1 leaves. *)
Definition forces_and_integration (u : Uniforms) (targets : list vec3)
    (index : nat) (particle : Particle) : option Particle :=
  mouse ← mouseForce u particle;
  let force :=
    turbulenceForce u particle +v gravityForce u
      +v targetForce u targets index particle +v mouse in
  Some (update_color (integrate u force particle)).

(** What one invocation does to its own particle. *)
Definition update_particle (u : Uniforms) (targets : list vec3) (index : nat)
    (particle : Particle) : option Particle :=
  forces_and_integration u targets index (life_cycle u particle).

(** [fn main]: the invocation [index] on the particle buffer.  An index
    past [particleCount] returns at once.  An index inside [particleCount]
    but past the end of the buffer is an out-of-bounds access, which WGSL
    leaves to the implementation; the model leaves the buffer as it is. *)
Definition main (u : Uniforms) (targets : list vec3) (index : nat)
    (particles : list Particle) : option (list Particle) :=
  if decide (u32 (particleCount u) <= index)%nat then Some particles
  else
    match particles !! index with
    | None => Some particles
    | Some particle =>
        particle' ← update_particle u targets index particle;
        Some (<[index := particle']> particles)
    end.

End Noise.

End ParticlePass.

(** ** Fibers

    [struct Fiber] has the same five fields in every variant ([isActive] is
    spelled [active] in one of them).  [end] and [length] are taken in Rocq,
    hence the underscores. *)

Record Fiber := mkFiber {
  start : nat;
  end_ : nat;
  strength : R;
  length_ : R;
  isActive : R
}.

Definition set_strength (f : Fiber) (s : R) : Fiber :=
  mkFiber (start f) (end_ f) s (length_ f) (isActive f).
Definition set_length (f : Fiber) (l : R) : Fiber :=
  mkFiber (start f) (end_ f) (strength f) l (isActive f).
Definition set_isActive (f : Fiber) (a : R) : Fiber :=
  mkFiber (start f) (end_ f) (strength f) (length_ f) a.

(** What a fiber pass works on: the fiber buffer and the particle buffer. *)
Definition Store : Type := list Fiber * list Particle.

(** ** The fiber pass that moves particles (the [fiberComputeShader] string
       next to the enhanced particle shader) *)

Module FiberPass.

Record FiberUniforms := mkFiberUniforms {
  maxDistance : R;
  springStrength : R;
  springDamping : R;
  deltaTime : R
}.

(** The part of [main] after the stretch test and the zero-distance guard:
    spring and damping forces along the fiber, and the three writes. *)
Definition apply_spring (u : FiberUniforms) (index : nat) (fiber : Fiber)
    (startParticle endParticle : Particle) (vecBetween : vec3)
    (currentDistance : R) (s : Store) : option Store :=
  let startIndex := start fiber in
  let endIndex := end_ fiber in
  direction ← vdiv vecBetween currentDistance;
  let displacement := currentDistance - length_ fiber in
  let springForceMagnitude := displacement * springStrength u in
  let springForce := direction *s springForceMagnitude in
  let relativeVelocity := velocity endParticle -v velocity startParticle in
  let velocityAlongAxis := dot relativeVelocity direction in
  let dampingForceMagnitude := velocityAlongAxis * springDamping u in
  let dampingForce := direction *s dampingForceMagnitude in
  let totalForce := springForce +v dampingForce in
  let deltaVelocity := totalForce *s deltaTime u in
  let startParticle := set_velocity startParticle (velocity startParticle +v deltaVelocity) in
  let endParticle := set_velocity endParticle (velocity endParticle -v deltaVelocity) in
  let fiber := set_strength fiber (vlength totalForce) in
  let particles := <[startIndex := startParticle]> (snd s) in
  let particles := <[endIndex := endParticle]> particles in
  Some (<[index := fiber]> (fst s), particles).

(** [fn main]: the invocation [index] on the two buffers. *)
Definition main (u : FiberUniforms) (index : nat) (s : Store) : option Store :=
  match fst s !! index with
  | None => Some s
  | Some fiber =>
      if Rlt_dec (isActive fiber) 0.5 then Some s
      else
        let startIndex := start fiber in
        let endIndex := end_ fiber in
        match snd s !! startIndex, snd s !! endIndex with
        | Some startParticle, Some endParticle =>
            let vecBetween := position endParticle -v position startParticle in
            let currentDistance := vlength vecBetween in
            if Rgt_dec currentDistance (maxDistance u) then
              let fiber := set_isActive fiber 0 in
              Some (<[index := fiber]> (fst s), snd s)
            else if Rlt_dec currentDistance 0.0001 then Some s
            else
              apply_spring u index fiber startParticle endParticle
                vecBetween currentDistance s
        | _, _ => Some s
        end
  end.

(** One step of the fiber update: some invocation runs to its end. *)
Definition step (u : FiberUniforms) (s s' : Store) : Prop :=
  exists index, main u index s = Some s'.

(** A fiber counts as inactive when the shader skips it. *)
Definition inactive (f : Fiber) : Prop := isActive f < 0.5.

End FiberPass.

(** ** The fiber pass that only reads particles (the [fiberComputeShader]
       string of [controls.js] and of [webgpu.js]) *)

Module FiberPassRO.

Record FiberUniforms := mkFiberUniforms {
  maxDistance : R;
  springStrength : R;
  damping : R;
  time : R
}.

Definition zeroParticle : Particle :=
  mkParticle vzero vzero 0 0 vzero vzero.

(** [particles[i]] with no bounds check before it: past the end WGSL gives
    some value of the implementation's choice, here the zero particle. *)
Definition read (particles : list Particle) (i : nat) : Particle :=
  default zeroParticle (particles !! i).

(** The block under [if (fiber.isActive > 0.5)].  Besides the fiber it
    returns the value of the local [springForce], to state what was
    computed. *)
Definition active_block (u : FiberUniforms) (particles : list Particle)
    (fiber : Fiber) : Fiber * R :=
  let startPos := position (read particles (start fiber)) in
  let endPos := position (read particles (end_ fiber)) in
  let distance := vlength (endPos -v startPos) in
  let fiber := set_length fiber distance in
  let fiber :=
    if Rgt_dec distance (maxDistance u) then set_isActive fiber 0 else fiber in
  let springForce := (distance - length_ fiber) * springStrength u in
  let fiber := set_strength fiber (mix (strength fiber) springForce (damping u)) in
  (fiber, springForce).

(** The body of [main] on its fiber. *)
Definition update_fiber (u : FiberUniforms) (particles : list Particle)
    (fiber : Fiber) : Fiber :=
  if Rgt_dec (isActive fiber) 0.5 then fst (active_block u particles fiber)
  else fiber.

(** [fn main]: the particle buffer is bound [read], so only the fiber buffer
    is written. *)
Definition main (u : FiberUniforms) (index : nat) (s : Store) : Store :=
  match fst s !! index with
  | None => s
  | Some fiber => (<[index := update_fiber u (snd s) fiber]> (fst s), snd s)
  end.

End FiberPassRO.

(** ** The host (JavaScript) *)

Module Host.

(** A JavaScript number, and the values a field of the parameter object can
    hold. *)
Inductive jsnum := Num (r : R) | NaN.
Inductive jsval := JUndefined | JNumber (n : jsnum) | JBool (b : bool).

(** Truthiness: [undefined], [NaN], [0] and [false] are falsy. *)
Definition truthy (v : jsval) : bool :=
  match v with
  | JUndefined => false
  | JNumber NaN => false
  | JNumber (Num r) => if Req_dec_T r 0 then false else true
  | JBool b => b
  end.

(** [v || d] with a numeric default. *)
Definition js_or (v : jsval) (d : R) : jsval :=
  if truthy v then v else JNumber (Num d).

(** The number a value is converted to when it is stored in a typed
    array. *)
Definition to_number (v : jsval) : jsnum :=
  match v with
  | JUndefined => NaN
  | JNumber n => n
  | JBool b => if b then Num 1 else Num 0
  end.

(** [new Float32Array([...])]: every number of the literal is rounded to
    binary32.  (A number beyond [IEEE.max32] in magnitude, which is stored
    as an infinity, is outside the model.) *)
Definition f32 (n : jsnum) : jsnum :=
  match n with
  | Num r => Num (IEEE.binary32 r)
  | NaN => NaN
  end.
Definition Float32Array (values : list jsnum) : list jsnum := f32 <$> values.

Record MousePos := mkMousePos { x : jsval; y : jsval }.

(** The fields of the parameter object that [updateUniforms] reads; a field
    the host never set reads as [JUndefined], and so does [mousePos?.x]
    when there is no [mousePos]. *)
Record Params := mkParams {
  gravity : jsval;
  turbulence : jsval;
  attraction : jsval;
  morphProgress : jsval;
  mousePos : option MousePos;
  hoverRadius : jsval;
  hoverStrength : jsval;
  mouseInfluence : jsval;
  hoverRepulsion : jsval;
  respawnRate : jsval;
  connectionDistance : jsval;
  fiberStrength : jsval;
  fiberDamping : jsval
}.

Definition mouse_x (params : Params) : jsval :=
  match mousePos params with Some m => x m | None => JUndefined end.
Definition mouse_y (params : Params) : jsval :=
  match mousePos params with Some m => y m | None => JUndefined end.

(** [updateUniforms]: the sixteen numbers written to the uniform buffer of
    the particle pass. *)
Definition uniformData (time deltaTime : R) (particleCount : nat)
    (params : Params) : list jsnum :=
  Float32Array
    [ Num time;
      Num deltaTime;
      Num (INR particleCount);
      to_number (js_or (gravity params) 0);
      to_number (js_or (turbulence params) 0.5);
      to_number (js_or (attraction params) 1);
      to_number (js_or (morphProgress params) 0);
      to_number (js_or (mouse_x params) 0);
      to_number (js_or (mouse_y params) 0);
      to_number (js_or (hoverRadius params) 3.0);
      to_number (js_or (hoverStrength params) 2.0);
      to_number (js_or (mouseInfluence params) 1.0);
      (if truthy (hoverRepulsion params) then Num 1.0 else Num 0.0);
      to_number (js_or (respawnRate params) 0.2);
      Num 0; Num 0 ].

(** ... and the four numbers written to the uniform buffer of the fiber
    pass that moves particles. *)
Definition fiberUniformData (deltaTime : R) (params : Params) : list jsnum :=
  Float32Array
    [ to_number (js_or (connectionDistance params) 2.0);
      to_number (js_or (fiberStrength params) 0.5);
      to_number (js_or (fiberDamping params) 0.05);
      Num deltaTime ].

(** Where each uniform sits in the buffer. *)
Definition i_gravity : nat := 3.
Definition i_turbulence : nat := 4.
Definition i_attraction : nat := 5.
Definition i_hoverRadius : nat := 9.
Definition i_hoverStrength : nat := 10.
Definition i_mouseInfluence : nat := 11.
Definition i_respawnRate : nat := 13.

(** The six parameters whose default is not zero, each with its place in
    the uniform buffer. *)
Definition defaulted (params : Params) : list (nat * jsval) :=
  [ (i_turbulence, turbulence params); (i_attraction, attraction params);
    (i_hoverRadius, hoverRadius params);
    (i_hoverStrength, hoverStrength params);
    (i_mouseInfluence, mouseInfluence params);
    (i_respawnRate, respawnRate params) ].

(** *** The control state

    [controlState] is an object literal; the listeners of the control panel
    store into it.  What they store is left open here (a slider stores
    [parseFloat] of its value, a toggle the negation of what it finds): what
    matters below is the property each of them stores into.  The pointer
    listeners store [mousePos.x] and [mousePos.y] into the object that
    [mousePos] holds, not into [controlState]. *)

Record Panel := mkPanel {
  (** the properties of the object literal *)
  own_properties : list string;
  (** the keys of the [sliders] object: each has an [input] listener that
      stores into the property of its name *)
  sliders : list string;
  (** the keys of the [toggles] object: each has a [click] listener that
      stores into the property of its name *)
  toggles : list string;
  (** the properties the [mousemove] and [mouseleave] listeners store
      into *)
  pointer_properties : list string
}.

(** The control panel next to the enhanced shaders. *)
Definition panel : Panel :=
  mkPanel
    [ "particleCount"; "particleSize"; "particleOpacity"; "fibersEnabled";
      "fiberStrength"; "connectionDistance"; "gravity"; "turbulence";
      "attraction"; "morphSpeed"; "rotationSpeed"; "bloomStrength";
      "bloomRadius"; "colorPalette"; "mousePos"; "hoverEnabled";
      "hoverRadius"; "hoverStrength"; "hoverRepulsion"; "particleTrail";
      "mouseInfluence"; "autoRotate" ]
    [ "particleCount"; "particleSize"; "particleOpacity"; "fiberStrength";
      "connectionDistance"; "gravity"; "turbulence"; "attraction";
      "morphSpeed"; "rotationSpeed"; "bloomStrength"; "bloomRadius";
      "hoverRadius"; "hoverStrength"; "mouseInfluence" ]
    [ "fibersEnabled"; "hoverEnabled"; "hoverRepulsion"; "particleTrail";
      "autoRotate" ]
    [ "mouseVelocity"; "lastMouseX"; "lastMouseY"; "mouseTrail" ].

(** The control panel of [modules/controls.js]. *)
Definition panel_modules : Panel :=
  mkPanel
    [ "particleCount"; "particleSize"; "particleOpacity"; "fibersEnabled";
      "fiberStrength"; "connectionDistance"; "interactiveFibersEnabled";
      "mouseConnectionDistance"; "fiberOpacity"; "gravity"; "turbulence";
      "attraction"; "morphSpeed"; "rotationSpeed"; "bloomStrength";
      "bloomRadius"; "colorPalette"; "mousePos"; "hoverEnabled";
      "hoverRadius"; "hoverStrength"; "hoverRepulsion"; "particleTrail";
      "mouseInfluence"; "autoRotate"; "respawnRate" ]
    [ "particleCount"; "particleSize"; "particleOpacity"; "fiberStrength";
      "connectionDistance"; "mouseConnectionDistance"; "fiberOpacity";
      "gravity"; "turbulence"; "attraction"; "morphSpeed"; "rotationSpeed";
      "bloomStrength"; "bloomRadius"; "hoverRadius"; "hoverStrength";
      "mouseInfluence" ]
    [ "fibersEnabled"; "interactiveFibersEnabled"; "hoverEnabled";
      "hoverRepulsion"; "particleTrail"; "autoRotate" ]
    [].

Section Page.

(** The values of JavaScript, with the test [v > 0] on them; the panel; and
    the values of the object literal. *)
Variable value : Type.
Variable positive : value -> bool.
Variable P : Panel.
Variable initial : string -> value.

Definition controlState : gmap string value :=
  list_to_map ((fun key => (key, initial key)) <$> own_properties P).

(** The properties that have a listener storing into them; the palette
    buttons store into [colorPalette]. *)
Definition listened : list string :=
  sliders P ++ toggles P ++ ["colorPalette"] ++ pointer_properties P.

(** A listener runs and stores [v] into the property [key] of its own. *)
Definition listener (key : string) (v : value) (c : gmap string value)
    : gmap string value :=
  if decide (key ∈ listened) then <[key := v]> c else c.

(** [applyPreset]: a property of the preset is copied when [controlState]
    has a property of that name. *)
Definition applyPreset (preset : list (string * value))
    (c : gmap string value) : gmap string value :=
  foldl (fun c kv => if decide (is_Some (c !! kv.1)) then <[kv.1 := kv.2]> c else c)
    c preset.

(** [controlState.morphProgress > 0]; a property that is not there reads as
    [undefined], and [undefined > 0] is false. *)
Definition morphing (c : gmap string value) : bool :=
  match c !! "morphProgress" with
  | Some v => positive v
  | None => false
  end.

(** *** The frame loop and the readback

    [animate] runs once per frame.  With the GPU path on it uploads the
    uniforms, dispatches, and, while [controlState.morphProgress > 0], calls
    [syncWebGPUParticles] without awaiting it.  That call runs up to its
    [await]: [readParticleData] has created a staging buffer, submitted the
    copy and asked for the mapping, and the readback is in flight.  When the
    mapping resolves the rest of [syncWebGPUParticles] copies the data into
    the mirror.  A readback is named by the frame that issued it.

    [morph], the one function that set [morphProgress], has that block
    commented out ("ORIGINAL WebGPU CODE - COMMENTED OUT FOR DEBUGGING") and
    starts the CPU tween instead; [animateMorphProgress], which also stores
    into it, is called from that block alone. *)

Record Loop := mkLoop {
  useWebGPU : bool;
  frame : nat;
  in_flight : list nat;
  mirror : option nat;
  control : gmap string value
}.

Definition syncWebGPUParticles (l : Loop) : Loop :=
  mkLoop (useWebGPU l) (frame l) (in_flight l ++ [frame l]) (mirror l)
    (control l).

Definition animate (l : Loop) : Loop :=
  let l := mkLoop (useWebGPU l) (S (frame l)) (in_flight l) (mirror l)
             (control l) in
  if useWebGPU l then
    if morphing (control l) then syncWebGPUParticles l else l
  else l.

(** The oldest mapping resolves and its data reach the mirror. *)
Definition resolve (l : Loop) : Loop :=
  match in_flight l with
  | [] => l
  | r :: rest => mkLoop (useWebGPU l) (frame l) rest (Some r) (control l)
  end.

Definition set_control (l : Loop) (c : gmap string value) : Loop :=
  mkLoop (useWebGPU l) (frame l) (in_flight l) (mirror l) c.

(** What happens on the page: a frame, a mapping that resolves, a listener
    of the panel, a preset button, a request to morph. *)
Inductive event :=
  | Frame
  | Resolved
  | Input (key : string) (v : value)
  | Preset (preset : list (string * value))
  | Morph.

Definition handle (l : Loop) (e : event) : Loop :=
  match e with
  | Frame => animate l
  | Resolved => resolve l
  | Input key v => set_control l (listener key v (control l))
  | Preset preset => set_control l (applyPreset preset (control l))
  | Morph => l
  end.

Definition run (events : list event) (l : Loop) : Loop :=
  fold_left handle events l.

(** The page when it has loaded. *)
Definition loaded (gpu : bool) : Loop := mkLoop gpu 0 [] None controlState.

(** The frames among the events. *)
Definition is_frame (e : event) : bool :=
  match e with Frame => true | _ => false end.
Definition frames (events : list event) : nat :=
  List.length (List.filter is_frame events).

End Page.

Arguments mkLoop {value}.
Arguments useWebGPU {value}.
Arguments frame {value}.
Arguments in_flight {value}.
Arguments mirror {value}.
Arguments control {value}.
Arguments Frame {value}.
Arguments Resolved {value}.
Arguments Input {value}.
Arguments Preset {value}.
Arguments Morph {value}.
Arguments controlState {value}.
Arguments listener {value}.
Arguments applyPreset {value}.
Arguments morphing {value}.
Arguments syncWebGPUParticles {value}.
Arguments animate {value}.
Arguments resolve {value}.
Arguments set_control {value}.
Arguments handle {value}.
Arguments run {value}.
Arguments loaded {value}.
Arguments is_frame {value}.
Arguments frames {value}.

(** *** The CPU morph tween ([manualMorph]) *)

(** [progress] of the inner [animate], from the seconds elapsed. *)
Definition progress_at (elapsed duration : R) : R := Rmin (elapsed / duration) 1.

(** The easing function, "power2.inOut equivalent". *)
Definition easedProgress (progress : R) : R :=
  if Rlt_dec progress 0.5
  then 2 * progress * progress
  else 1 - (-2 * progress + 2) ^ 2 / 2.

(** [startPositions[i] + (dest[i] - startPositions[i]) * easedProgress],
    stored in [pos[i]]: three operations on JavaScript numbers, each rounded
    to binary64, and the store into the [Float32Array] [pos], rounded to
    binary32. *)
Definition tween (s d eased : R) : R :=
  IEEE.binary32
    (IEEE.binary64 (s + IEEE.binary64 (IEEE.binary64 (d - s) * eased))).

(** The loop over [pos], for the eased progress of the frame:
    [startPositions] is the copy of [pos] taken when the tween began, so it
    has the length of [pos]; a read past the end of [dest] is [undefined]
    and the coordinate becomes [NaN]. *)
Definition morph_frame (startPositions dest : list R) (eased : R) : list jsnum :=
  imap (fun i s =>
          match dest !! i with
          | Some d => Num (tween s d eased)
          | None => NaN
          end) startPositions.

End Host.

(** ** Sample inputs, used to show the properties at work *)

Module Samples.

(** A frame of one second under gravity alone: no turbulence, no
    attraction, the pointer switched off. *)
Definition gravity_only : ParticlePass.Uniforms :=
  ParticlePass.mkUniforms 0 1 1 1 0 0 0 (V2 0 0) 0 2 1 0 0.2.

(** A particle whose life ends in that frame. *)
Definition dying : Particle :=
  mkParticle (V3 1 2 3) (V3 0.1 0 0) 0.1 0.03 (V3 0.1 0.4 0.9) (V3 1 2 3).

(** The pointer scenario: repel mode, radius 5, strength 1, influence 1,
    the pointer at the origin; one particle 2.5 away from it and one on
    it. *)
Definition repel : ParticlePass.Uniforms :=
  ParticlePass.mkUniforms 0 0.016 2 0 0.5 1 0 (V2 0 0) 5 1 1 1 0.2.
Definition near_pointer : Particle :=
  mkParticle (V3 2.5 0 0) vzero 2 0.03 (V3 0.1 0.4 0.9) (V3 2.5 0 0).
Definition on_pointer : Particle :=
  mkParticle vzero vzero 2 0.03 (V3 0.1 0.4 0.9) vzero.

(** The same frame with the pointer radius negative. *)
Definition negative_radius : ParticlePass.Uniforms :=
  ParticlePass.mkUniforms 0 0.016 2 0 0.5 1 0 (V2 0 0) (-1) 1 1 1 0.2.

(** A noise field to run the pass with. *)
Definition still (p : vec3) : vec3 := V3 1 0 0.

(** The fiber scenario: two particles at (0,0,0) and (3,0,0) joined by an
    active fiber of resting length 1; spring strength 1, no damping, a frame
    of one second, fibers breaking beyond 10. *)
Definition spring : FiberPass.FiberUniforms :=
  FiberPass.mkFiberUniforms 10 1 0 1.
Definition left_end : Particle :=
  mkParticle vzero vzero 2 0.03 (V3 0.1 0.4 0.9) vzero.
Definition right_end : Particle :=
  mkParticle (V3 3 0 0) vzero 2 0.03 (V3 0.1 0.4 0.9) (V3 3 0 0).
Definition link : Fiber := mkFiber 0 1 0.5 1 1.
Definition linked : Store := ([link], [left_end; right_end]).

(** The same pair under a pass that breaks fibers beyond 2. *)
Definition brittle : FiberPass.FiberUniforms :=
  FiberPass.mkFiberUniforms 2 1 0 1.

(** Two particles 0.00005 apart, joined by the same fiber. *)
Definition close_end : Particle :=
  mkParticle (V3 0.00005 0 0) vzero 2 0.03 (V3 0.1 0.4 0.9) (V3 0.00005 0 0).
Definition touching : Store := ([link], [left_end; close_end]).

(** The read-only fiber pass on the same pair. *)
Definition measuring : FiberPassRO.FiberUniforms :=
  FiberPassRO.mkFiberUniforms 10 0.5 0.95 0.

(** A parameter object whose numbers are all zero. *)
Definition zero : Host.jsval := Host.JNumber (Host.Num 0).
Definition all_zero : Host.Params :=
  Host.mkParams zero zero zero zero (Some (Host.mkMousePos zero zero))
    zero zero zero (Host.JBool false) zero zero zero zero.

(** The control state when the page has loaded, but for a turbulence of
    [2^-200]. *)
Definition tiny_turbulence : Host.Params :=
  Host.mkParams zero (Host.JNumber (Host.Num (IEEE.bpow (-200))))
    (Host.JNumber (Host.Num 1)) Host.JUndefined
    (Some (Host.mkMousePos zero zero))
    (Host.JNumber (Host.Num 3)) (Host.JNumber (Host.Num 2))
    (Host.JNumber (Host.Num 1)) (Host.JBool false) Host.JUndefined
    (Host.JNumber (Host.Num 2)) (Host.JNumber (Host.Num 0.5)) Host.JUndefined.

(** Two points on their way to two other points. *)
Definition from_here : list R := [0; 0; 0; 1; 1; 1].
Definition to_there : list R := [1; 2; 3; 4; 5; 6].

End Samples.

(** ** Dispatches

    [compute] encodes one pass per pipeline and [dispatchWorkgroups] runs
    the invocations the work groups cover.  The model runs the invocations
    of a pass one after the other, in the order of the list it is given. *)

Module Schedule.

(** [Math.ceil]. *)
Definition ceil (x : R) : Z := (- Int_part (- x))%Z.

(** [Math.ceil(this.particleCount / 64)], the number of work groups of the
    particle pass, and the indices their 64 invocations each cover. *)
Definition workgroupsX (particleCount : nat) : nat :=
  Z.to_nat (ceil (INR particleCount / 64)).
Definition dispatched (workgroups : nat) : list nat := seq 0 (64 * workgroups).

Fixpoint particle_pass (curlNoise : vec3 -> vec3) (u : ParticlePass.Uniforms)
    (targets : list vec3) (indices : list nat) (particles : list Particle)
    : option (list Particle) :=
  match indices with
  | [] => Some particles
  | index :: rest =>
      particles ← ParticlePass.main curlNoise u targets index particles;
      particle_pass curlNoise u targets rest particles
  end.

(** The sum of the velocities in the particle buffer (every particle has
    mass 1 in the fiber shader). *)
Definition total_velocity (particles : list Particle) : vec3 :=
  foldr (fun particle sum => velocity particle +v sum) vzero particles.

End Schedule.

(** ** Colours on the host *)

Module Colour.

(** [Math.trunc], and [a % b] on numbers: the remainder has the sign of
    [a]. *)
Definition trunc (x : R) : Z :=
  if Rle_dec 0 x then Int_part x else (- Int_part (- x))%Z.
Definition js_rem (a b : R) : R := a - b * IZR (trunc (a / b)).

Record rgb := RGB { r : R; g : R; b : R }.

(** [hsl2rgb(h, s, l)], with [h] in degrees and [s], [l] in percent. *)
Definition hsl2rgb (h s l : R) : rgb :=
  let h := h / 360 in
  let s := s / 100 in
  let l := l / 100 in
  let a := s * Rmin l (1 - l) in
  let f := fun n : R =>
    let k := js_rem (n + h * 12) 12 in
    l - a * Rmax (Rmin (Rmin (k - 3) (9 - k)) 1) (-1) in
  RGB (f 0) (f 8) (f 4).

(** The colour of particle [i] of [count] along a palette of [len] colours:
    the two palette entries to blend and the weight of the second, as the
    three colouring loops compute them ([floorIdx], [ceilIdx], [mix]). *)
Definition palette_slot (count len i : nat) : Z * Z * R :=
  let t := INR i / Rmax (INR count - 1) 1 in
  let idx := t * (INR len - 1) in
  let floorIdx := Int_part idx in
  let ceilIdx := Z.min (Schedule.ceil idx) (Z.of_nat len - 1) in
  let mix := js_rem idx 1 in
  (floorIdx, ceilIdx, mix).

End Colour.

(** ** The particle system object *)

Module System.

(** [setParticleCount(count)], on the field [particleCount]; the buffers are
    not touched. *)
Definition setParticleCount (count particleCount : Z) : Z :=
  if decide (count <> particleCount)
  then Z.min (Z.max count 100) 10000
  else particleCount.

End System.

(** ** Typed arrays on the host

    A [Float32Array] is a list of numbers of fixed length; a read past its
    end is [undefined], which is stored as [NaN]. *)

Module Arrays.

Import Host.

Definition at_ (array : list jsnum) (i : nat) : jsnum :=
  default NaN (array !! i).

(** Three consecutive writes, [a[j] = x; a[j + 1] = y; a[j + 2] = z]. *)
Definition write3 {A : Type} (j : nat) (x y z : A) (a : list A) : list A :=
  <[(j + 2)%nat := z]> (<[(j + 1)%nat := y]> (<[j := x]> a)).

(** *** The copy into the mirror ([syncWebGPUParticles], after the await) *)

Record Mirror := mkMirror {
  positions : list jsnum;
  colors : list jsnum
}.

(** The values of [i] in [for (let i = 0; i < length; i += 14)]. *)
Definition strides (length : nat) : list nat :=
  (fun k => 14 * k)%nat <$> seq 0 ((length + 13) / 14)%nat.

(** The body of the loop. *)
Definition sync_particle (particleData : list jsnum) (m : Mirror) (i : nat)
    : Mirror :=
  let particleIndex := (i / 14)%nat in
  let posIndex := (particleIndex * 3)%nat in
  let colorIndex := (particleIndex * 3)%nat in
  if decide (posIndex + 2 < List.length (positions m))%nat then
    let positions :=
      write3 posIndex (at_ particleData i) (at_ particleData (i + 1)%nat)
        (at_ particleData (i + 2)%nat) (positions m) in
    let colors :=
      if decide (colorIndex + 2 < List.length (colors m))%nat then
        write3 colorIndex (at_ particleData (i + 8)%nat)
          (at_ particleData (i + 9)%nat) (at_ particleData (i + 10)%nat)
          (colors m)
      else colors m in
    mkMirror positions colors
  else m.

Definition sync (particleData : list jsnum) (m : Mirror) : Mirror :=
  foldl (sync_particle particleData) m (strides (List.length particleData)).

(** *** The copy of a target into the positions ([initializeTargets],
        [updateParticleCount]) *)

Definition copy_targets (positionArray targetArray : list jsnum) : list jsnum :=
  let copyLength := Nat.min (List.length positionArray) (List.length targetArray) in
  let positionArray :=
    foldl (fun a i => <[i := at_ targetArray i]> a) positionArray
      (seq 0 copyLength) in
  if decide (List.length targetArray < List.length positionArray)%nat then
    foldl (fun a i => <[i := at_ targetArray (i mod List.length targetArray)%nat]> a)
      positionArray
      (seq copyLength (List.length positionArray - copyLength)%nat)
  else positionArray.

(** *** The sampling of a mesh ([createGLBPoints], once the vertices are
        collected)

    The centre of the bounding box comes from the rendering library and is
    a parameter.  [None]: a vertex is read past the end of [vertices], and
    the read of its [x] throws. *)

Definition sample_index (totalPoints vertexCount i : nat) : nat :=
  if decide (totalPoints <= vertexCount)%nat
  then Z.to_nat (Int_part (INR i / INR totalPoints * INR vertexCount))
  else (i mod vertexCount)%nat.

Definition sample_point (vertices : list vec3) (center : vec3)
    (totalPoints : nat) (pts : option (list R)) (i : nat) : option (list R) :=
  pts ← pts;
  v ← vertices !! sample_index totalPoints (List.length vertices) i;
  let i3 := (i * 3)%nat in
  Some (write3 i3 (vx v - vx center) (vy v - vy center) (vz v - vz center) pts).

Definition sample_points (vertices : list vec3) (center : vec3)
    (totalPoints : nat) : option (list R) :=
  if decide (List.length vertices = 0)%nat
  then Some (replicate (totalPoints * 3)%nat 0)
  else foldl (sample_point vertices center totalPoints)
         (Some (replicate (totalPoints * 3)%nat 0)) (seq 0 totalPoints).

End Arrays.

(** ** The pointer ([handleMouseMove]) *)

Module Pointer.

Definition handleMouseMove (clientX clientY innerWidth innerHeight : R) : vec2 :=
  V2 (clientX / innerWidth * 2 - 1) (- (clientY / innerHeight) * 2 + 1).

End Pointer.

(** ** The sparkle ([applySparkle]) *)

Module Sparkle.

(** The factor [b] by which a twinkling particle's original colour is
    multiplied at time [t]. *)
Definition gain (twinkle t : R) (i : nat) : R :=
  let p := Rabs (sin (twinkle * t + INR i * 0.1)) ^ 10 in
  1 + 4 * p.

(** The body of the loop for particle [i], with original colour [oc]. *)
Definition sparkle_particle (twinkle t : R) (i : nat) (oc : Colour.rgb)
    (colArray : list R) : list R :=
  if Rgt_dec twinkle 0 then
    let b := gain twinkle t i in
    let i3 := (i * 3)%nat in
    Arrays.write3 i3 (Colour.r oc * b) (Colour.g oc * b) (Colour.b oc * b)
      colArray
  else colArray.

End Sparkle.

(** ** The fiber network ([initializeFibers] of the system that moves
       particles)

    [Math.random()] is a parameter: [random i j] is the number drawn when
    the loops are at the pair [(i, j)], which they reach once at most. *)

Module FiberInit.

(** Five consecutive writes, one row of the fiber data. *)
Definition write5 (offset : nat) (a b c d e : R) (data : list R) : list R :=
  <[(offset + 4)%nat := e]>
    (<[(offset + 3)%nat := d]>
       (<[(offset + 2)%nat := c]>
          (<[(offset + 1)%nat := b]> (<[(offset + 0)%nat := a]> data)))).

Record Progress := mkProgress {
  fiberIndex : nat;
  fiberData : list R
}.

Section Loops.

Variable random : nat -> nat -> R.
Variable limit : nat.
Variable maxFibers : nat.

(** The body of the inner loop. *)
Definition connect (i j : nat) (st : Progress) : Progress :=
  if Rlt_dec (random i j) 0.01 then
    let offset := (fiberIndex st * 5)%nat in
    mkProgress (S (fiberIndex st))
      (write5 offset (INR i) (INR j) 0.5 1 1 (fiberData st))
  else st.

(** [for (j = ...; j < limit && fiberIndex < maxFibers; j++)], from [j] on;
    the loop ends by its test, within [fuel] rounds. *)
Fixpoint inner_loop (fuel i j : nat) (st : Progress) : Progress :=
  match fuel with
  | O => st
  | S fuel =>
      if decide (j < limit /\ fiberIndex st < maxFibers)%nat
      then inner_loop fuel i (S j) (connect i j st)
      else st
  end.

(** [for (i = ...; i < limit && fiberIndex < maxFibers; i++)], from [i]
    on. *)
Fixpoint outer_loop (fuel i : nat) (st : Progress) : Progress :=
  match fuel with
  | O => st
  | S fuel =>
      if decide (i < limit /\ fiberIndex st < maxFibers)%nat
      then outer_loop fuel (S i) (inner_loop limit i (S i) st)
      else st
  end.

End Loops.

(** The fiber data written to the buffer, and the number of fibers. *)
Definition initializeFibers (random : nat -> nat -> R)
    (particleCount maxFibers : nat) : Progress :=
  let limit := Nat.min particleCount 1000 in
  outer_loop random limit maxFibers limit 0
    (mkProgress 0 (replicate (maxFibers * 5)%nat 0)).

(** A row of the data, as the five numbers of a fiber. *)
Definition row (data : list R) (k : nat) : list (option R) :=
  [ data !! (k * 5)%nat; data !! (k * 5 + 1)%nat; data !! (k * 5 + 2)%nat;
    data !! (k * 5 + 3)%nat; data !! (k * 5 + 4)%nat ].

(** What the loops keep true of their progress. *)
Definition well_formed (limit maxFibers : nat) (st : Progress) : Prop :=
  (fiberIndex st <= maxFibers)%nat
  /\ List.length (fiberData st) = (maxFibers * 5)%nat
  /\ (forall k, (k < fiberIndex st)%nat ->
      exists i j,
        (i < j < limit)%nat
        /\ row (fiberData st) k
           = [Some (INR i); Some (INR j); Some 0.5; Some 1; Some 1])
  /\ (forall k, (fiberIndex st <= k < maxFibers)%nat ->
      row (fiberData st) k = [Some 0; Some 0; Some 0; Some 0; Some 0]).

End FiberInit.

(** * Properties *)

(** ** Arithmetic of the built-ins *)

(** Equations between vectors built from the components. *)
Ltac vec_eq :=
  unfold vadd, vsub, vneg, vscale, vadds, splat, vzero; simpl;
  f_equal; first [ring | lra].

(** ** Binary floating point *)

Section Powers.

Import IEEE.

Lemma ln_2_pos : 0 < ln 2.
Proof. pose proof ln_lt_2. lra. Qed.

Lemma bpow_exp (e : Z) : bpow e = exp (IZR e * ln 2).
Proof. unfold bpow. rewrite powerRZ_Rpower by lra. reflexivity. Qed.

Lemma bpow_pos (e : Z) : 0 < bpow e.
Proof. rewrite bpow_exp. apply exp_pos. Qed.

Lemma bpow_add (e1 e2 : Z) : bpow (e1 + e2) = bpow e1 * bpow e2.
Proof. unfold bpow. apply powerRZ_add. lra. Qed.

Lemma bpow_lt (e1 e2 : Z) : (e1 < e2)%Z -> bpow e1 < bpow e2.
Proof.
  intros H. rewrite !bpow_exp. apply exp_increasing.
  apply Rmult_lt_compat_r; [exact ln_2_pos | apply IZR_lt; exact H].
Qed.

Lemma bpow_le (e1 e2 : Z) : (e1 <= e2)%Z -> bpow e1 <= bpow e2.
Proof.
  intros H. destruct (Z.eq_dec e1 e2) as [-> | Hne]; [lra |].
  apply Rlt_le, bpow_lt. lia.
Qed.

Lemma bpow_lt_inv (e1 e2 : Z) : bpow e1 < bpow e2 -> (e1 < e2)%Z.
Proof.
  intros H. destruct (Z_lt_le_dec e1 e2) as [Hlt | Hle]; [exact Hlt |].
  pose proof (bpow_le e2 e1 Hle). lra.
Qed.

Lemma bpow_le_inv (e1 e2 : Z) : bpow e1 <= bpow e2 -> (e1 <= e2)%Z.
Proof.
  intros H. destruct (Z_le_gt_dec e1 e2) as [Hle | Hgt]; [exact Hle |].
  pose proof (bpow_lt e2 e1 ltac:(lia)). lra.
Qed.

Lemma bpow_0 : bpow 0 = 1.
Proof. reflexivity. Qed.

Lemma bpow_opp (e : Z) : bpow (- e) = / bpow e.
Proof.
  apply (Rmult_eq_reg_l (bpow e)); [| pose proof (bpow_pos e); lra].
  rewrite <- bpow_add, Z.add_opp_diag_r, bpow_0.
  rewrite Rinv_r; [reflexivity | pose proof (bpow_pos e); lra].
Qed.

Lemma bpow_succ (e : Z) : bpow (e + 1) = 2 * bpow e.
Proof. rewrite bpow_add. unfold bpow at 2. simpl. lra. Qed.

Lemma bpow_pred (e : Z) : bpow (e - 1) = bpow e / 2.
Proof.
  replace e with ((e - 1) + 1)%Z at 2 by lia. rewrite bpow_succ. lra.
Qed.

Lemma scaled (x : R) (e : Z) : x * bpow (- e) = x / bpow e.
Proof. rewrite bpow_opp. reflexivity. Qed.

(** A power of two with an exponent that is not negative is an integer. *)
Lemma bpow_IZR (n : Z) : (0 <= n)%Z -> bpow n = IZR (2 ^ n).
Proof.
  intros Hn. unfold bpow.
  rewrite <- (Z2Nat.id n Hn) at 1. rewrite <- pow_powerRZ.
  rewrite pow_IZR. rewrite Z2Nat.id by exact Hn. reflexivity.
Qed.

End Powers.

Section Magnitude.

Import IEEE.

Lemma mag_bounds (x : R) :
  x <> 0 -> bpow (mag x - 1) <= Rabs x < bpow (mag x).
Proof.
  intros Hx. assert (Hpos : 0 < Rabs x) by (apply Rabs_pos_lt; exact Hx).
  unfold mag. set (L := ln (Rabs x) / ln 2).
  pose proof (Zfloor_bound L) as [Hlo Hhi].
  pose proof ln_2_pos as H2.
  assert (HL : L * ln 2 = ln (Rabs x)) by (unfold L; field; lra).
  rewrite <- (exp_ln (Rabs x) Hpos). rewrite <- HL.
  rewrite !bpow_exp. split.
  - replace (Zfloor L + 1 - 1)%Z with (Zfloor L) by lia.
    destruct (Req_dec (IZR (Zfloor L)) L) as [-> | Hne]; [lra |].
    apply Rlt_le, exp_increasing. apply Rmult_lt_compat_r; lra.
  - apply exp_increasing. rewrite plus_IZR.
    apply Rmult_lt_compat_r; lra.
Qed.

Lemma mag_unique (x : R) (e : Z) :
  bpow (e - 1) <= Rabs x < bpow e -> mag x = e.
Proof.
  intros [Hlo Hhi].
  assert (Hx : x <> 0).
  { intros ->. rewrite Rabs_R0 in Hlo. pose proof (bpow_pos (e - 1)). lra. }
  destruct (mag_bounds x Hx) as [Mlo Mhi].
  assert (H1 : (mag x - 1 < e)%Z) by (apply bpow_lt_inv; lra).
  assert (H2 : (e - 1 < mag x)%Z) by (apply bpow_lt_inv; lra).
  lia.
Qed.

Lemma mag_le (x y : R) : x <> 0 -> Rabs x <= Rabs y -> (mag x <= mag y)%Z.
Proof.
  intros Hx Hxy.
  assert (Hy : y <> 0).
  { intros ->. rewrite Rabs_R0 in Hxy.
    pose proof (Rabs_pos_lt x Hx). lra. }
  destruct (mag_bounds x Hx) as [Mlo _].
  destruct (mag_bounds y Hy) as [_ Mhi].
  assert (H : (mag x - 1 < mag y)%Z) by (apply bpow_lt_inv; lra).
  lia.
Qed.

Lemma mag_opp (x : R) : mag (- x) = mag x.
Proof. unfold mag. rewrite Rabs_Ropp. reflexivity. Qed.

End Magnitude.

Section Nearest.

Import IEEE.

Lemma rne_IZR (k : Z) : rne (IZR k) = k.
Proof.
  unfold rne. rewrite ZfloorZ.
  destruct (Rlt_dec (IZR k - IZR k) (1 / 2)) as [_ | Hn]; [reflexivity | lra].
Qed.

Lemma rne_cases (x : R) : rne x = Zfloor x \/ rne x = (Zfloor x + 1)%Z.
Proof.
  unfold rne. destruct (Rlt_dec _ _); [left; reflexivity |].
  destruct (Rlt_dec _ _); [right; reflexivity |].
  destruct (Z.even _); [left | right]; reflexivity.
Qed.

Lemma rne_bound (x : R) : Rabs (x - IZR (rne x)) <= 1 / 2.
Proof.
  pose proof (Zfloor_bound x) as [Hlo Hhi].
  unfold rne. destruct (Rlt_dec _ _) as [H1 | H1].
  - rewrite Rabs_pos_eq; lra.
  - assert (Hup : Rabs (x - IZR (Zfloor x + 1)) <= 1 / 2).
    { rewrite plus_IZR, Rabs_left1; lra. }
    destruct (Rlt_dec _ _) as [H2 | H2]; [exact Hup |].
    destruct (Z.even _); [| exact Hup].
    rewrite Rabs_pos_eq; lra.
Qed.

Lemma rne_le (x : R) (k : Z) : x <= IZR k -> (rne x <= k)%Z.
Proof.
  intros Hx. pose proof (Zfloor_bound x) as [Hlo Hhi].
  assert (Hf : (Zfloor x <= k)%Z) by (apply le_IZR; lra).
  unfold rne. destruct (Rlt_dec _ _) as [H1 | H1]; [exact Hf |].
  assert (Hlt : (Zfloor x < k)%Z) by (apply lt_IZR; lra).
  destruct (Rlt_dec _ _); [lia |]. destruct (Z.even _); lia.
Qed.

Lemma rne_ge (x : R) (k : Z) : IZR k <= x -> (k <= rne x)%Z.
Proof.
  intros Hx. pose proof (Zfloor_lub k x Hx).
  destruct (rne_cases x) as [-> | ->]; lia.
Qed.

Lemma rne_near (x : R) (k : Z) : Rabs (x - IZR k) < 1 / 2 -> rne x = k.
Proof.
  intros H. apply Rabs_def2 in H. destruct H as [Hhi Hlo].
  destruct (Rle_dec (IZR k) x) as [Hge | Hlt].
  - assert (Hf : Zfloor x = k) by (apply Zfloor_eq; lra).
    unfold rne. rewrite Hf.
    destruct (Rlt_dec _ _) as [_ | Hn]; [reflexivity | lra].
  - assert (Hf : Zfloor x = (k - 1)%Z)
      by (apply Zfloor_eq; rewrite minus_IZR; lra).
    unfold rne. rewrite Hf, minus_IZR.
    destruct (Rlt_dec _ _) as [H1 | _]; [lra |].
    destruct (Rlt_dec _ _) as [_ | H2]; [lia | lra].
Qed.

Lemma rne_tie (x : R) (k : Z) :
  x = IZR k + 1 / 2 -> rne x = if Z.even k then k else (k + 1)%Z.
Proof.
  intros ->.
  assert (Hf : Zfloor (IZR k + 1 / 2) = k) by (apply Zfloor_eq; lra).
  unfold rne. rewrite Hf.
  destruct (Rlt_dec _ _) as [H1 | _]; [lra |].
  destruct (Rlt_dec _ _) as [H2 | _]; [lra | reflexivity].
Qed.

Lemma rne_opp (x : R) : rne (- x) = (- rne x)%Z.
Proof.
  pose proof (Zfloor_bound x) as [Hlo Hhi].
  remember (Zfloor x) as f eqn:Hf. clear Hf.
  destruct (Rtotal_order (x - IZR f) (1 / 2)) as [Hlt | [Heq | Hgt]].
  - rewrite (rne_near x f) by (rewrite Rabs_pos_eq; lra).
    destruct (Req_dec x (IZR f)) as [-> | Hne].
    + rewrite <- opp_IZR. apply rne_IZR.
    + apply rne_near. rewrite opp_IZR, Rabs_left1; lra.
  - assert (Hx : x = IZR f + 1 / 2) by lra.
    rewrite (rne_tie x f Hx).
    assert (Hx' : - x = IZR (- f - 1) + 1 / 2)
      by (rewrite minus_IZR, opp_IZR; lra).
    rewrite (rne_tie (- x) (- f - 1) Hx').
    replace (- f - 1)%Z with (- (f + 1))%Z by lia.
    rewrite Z.even_opp, Z.even_add. simpl.
    destruct (Z.even f); simpl; lia.
  - rewrite (rne_near x (f + 1)) by (rewrite plus_IZR, Rabs_left1; lra).
    apply rne_near. rewrite opp_IZR, plus_IZR, Rabs_pos_eq; lra.
Qed.

End Nearest.

Section Rounding.

Import IEEE.

Variables prec emin : Z.
Hypothesis Hprec : (0 < prec)%Z.

Lemma cexp_opp (x : R) : cexp prec emin (- x) = cexp prec emin x.
Proof. unfold cexp. rewrite mag_opp. reflexivity. Qed.

Lemma round_opp (x : R) : round prec emin (- x) = - round prec emin x.
Proof.
  unfold round. rewrite cexp_opp, !scaled.
  replace (- x / bpow (cexp prec emin x)) with (- (x / bpow (cexp prec emin x)))
    by (field; pose proof (bpow_pos (cexp prec emin x)); lra).
  rewrite rne_opp, opp_IZR. ring.
Qed.

Lemma round_0 : round prec emin 0 = 0.
Proof.
  unfold round. rewrite Rmult_0_l.
  rewrite rne_IZR. ring.
Qed.

Lemma cexp_mono (x y : R) :
  x <> 0 -> Rabs x <= Rabs y -> (cexp prec emin x <= cexp prec emin y)%Z.
Proof.
  intros Hx Hxy. pose proof (mag_le x y Hx Hxy). unfold cexp. lia.
Qed.

(** A number [k * 2^c] with [c] at or above its own exponent is kept. *)
Lemma round_rep (x : R) (k c : Z) :
  x = IZR k * bpow c -> (cexp prec emin x <= c)%Z -> round prec emin x = x.
Proof.
  intros Hx Hc. unfold round. rewrite scaled. set (e := cexp prec emin x) in *.
  assert (Hb : bpow c = IZR (2 ^ (c - e)) * bpow e).
  { rewrite <- bpow_IZR by lia. rewrite <- bpow_add. f_equal. lia. }
  assert (Hq : x / bpow e = IZR (k * 2 ^ (c - e))).
  { rewrite Hx, Hb, mult_IZR. field. pose proof (bpow_pos e). lra. }
  rewrite Hq, rne_IZR, mult_IZR, Hx, Hb. ring.
Qed.

(** What [round] keeps is on the grid of its own exponent. *)
Lemma round_fixed_grid (c : R) :
  round prec emin c = c ->
  c = IZR (rne (c * bpow (- cexp prec emin c))) * bpow (cexp prec emin c).
Proof. intros H. symmetry. exact H. Qed.

Lemma round_grid_le (x : R) (j : Z) :
  x <= IZR j * bpow (cexp prec emin x) ->
  round prec emin x <= IZR j * bpow (cexp prec emin x).
Proof.
  intros H. unfold round. rewrite scaled.
  pose proof (bpow_pos (cexp prec emin x)) as Hb.
  apply Rmult_le_compat_r; [lra |]. apply IZR_le, rne_le.
  apply (Rmult_le_reg_r (bpow (cexp prec emin x))); [exact Hb |].
  replace (x / bpow (cexp prec emin x) * bpow (cexp prec emin x)) with x
    by (field; lra).
  exact H.
Qed.

(** Rounding does not cross a number of the format. *)
Lemma round_le_rep (x c : R) :
  x <= c -> round prec emin c = c -> round prec emin x <= c.
Proof.
  intros Hxc Hc.
  destruct (Rle_dec x 0) as [Hx0 | Hx0].
  - destruct (Rle_dec 0 c) as [Hc0 | Hc0].
    + pose proof (round_grid_le x 0) as H. rewrite Rmult_0_l in H.
      specialize (H Hx0). lra.
    + assert (Hcn : c <> 0) by lra.
      assert (Habs : Rabs c <= Rabs x) by (rewrite !Rabs_left1; lra).
      pose proof (cexp_mono c x Hcn Habs) as Hce.
      destruct (Z_le_gt_dec (cexp prec emin x) (cexp prec emin c)) as [Hle | Hgt].
      * assert (Heq : cexp prec emin c = cexp prec emin x) by lia.
        pose proof (round_fixed_grid c Hc) as Hg. rewrite Heq in Hg.
        rewrite Hg. apply round_grid_le. rewrite <- Hg. exact Hxc.
      * assert (Hxn : x <> 0) by lra.
        destruct (mag_bounds x Hxn) as [Mx _].
        destruct (mag_bounds c Hcn) as [_ Mc].
        assert (He : cexp prec emin x = (mag x - prec)%Z)
          by (unfold cexp in *; lia).
        assert (Hm : (mag c <= mag x - 1)%Z) by (unfold cexp in *; lia).
        pose proof (bpow_le _ _ Hm) as Hb.
        assert (Hg : - bpow (mag x - 1)
                     = IZR (- 2 ^ (prec - 1)) * bpow (cexp prec emin x)).
        { rewrite He, opp_IZR, <- bpow_IZR by lia.
          replace (mag x - 1)%Z with ((prec - 1) + (mag x - prec))%Z by lia.
          rewrite bpow_add. ring. }
        rewrite Rabs_left1 in Mx by lra. rewrite Rabs_left1 in Mc by lra.
        pose proof (round_grid_le x (- 2 ^ (prec - 1))) as H.
        rewrite <- Hg in H. specialize (H ltac:(lra)). lra.
  - assert (Hxn : x <> 0) by lra.
    assert (Habs : Rabs x <= Rabs c) by (rewrite !Rabs_pos_eq; lra).
    pose proof (cexp_mono x c Hxn Habs) as Hce.
    pose proof (round_fixed_grid c Hc) as Hg.
    set (kc := rne (c * bpow (- cexp prec emin c))) in *.
    assert (Hg' : c = IZR (kc * 2 ^ (cexp prec emin c - cexp prec emin x))
                      * bpow (cexp prec emin x)).
    { rewrite mult_IZR, <- bpow_IZR by lia. rewrite Rmult_assoc, <- bpow_add.
      replace (cexp prec emin c - cexp prec emin x + cexp prec emin x)%Z
        with (cexp prec emin c) by lia.
      exact Hg. }
    rewrite Hg'. apply round_grid_le. rewrite <- Hg'. exact Hxc.
Qed.

Lemma round_ge_rep (x c : R) :
  c <= x -> round prec emin c = c -> c <= round prec emin x.
Proof.
  intros Hcx Hc.
  assert (H : round prec emin (- x) <= - c).
  { apply round_le_rep; [lra |]. rewrite round_opp, Hc. reflexivity. }
  rewrite round_opp in H. lra.
Qed.

(** A number of magnitude at most half the smallest positive one rounds to
    zero, and nothing else does. *)
Lemma round_underflow (x : R) :
  Rabs x <= bpow (emin - 1) -> round prec emin x = 0.
Proof.
  intros Hx. destruct (Req_dec x 0) as [-> | Hxn]; [apply round_0 |].
  destruct (mag_bounds x Hxn) as [Mlo _].
  assert (Hm : (mag x - 1 <= emin - 1)%Z) by (apply bpow_le_inv; lra).
  assert (He : cexp prec emin x = emin) by (unfold cexp; lia).
  unfold round. rewrite He, scaled.
  pose proof (bpow_pos emin) as Hb. rewrite bpow_pred in Hx.
  assert (Hr : rne (x / bpow emin) = 0%Z).
  { destruct (Rle_lt_or_eq_dec _ _ Hx) as [Hlt | Heq].
    - apply rne_near. replace (x / bpow emin - 0) with (x / bpow emin) by ring.
      unfold Rdiv. rewrite Rabs_mult, (Rabs_pos_eq (/ bpow emin))
        by (apply Rlt_le, Rinv_0_lt_compat; exact Hb).
      apply (Rmult_lt_reg_r (bpow emin)); [exact Hb |].
      rewrite Rmult_assoc, Rinv_l by lra. lra.
    - destruct (Rle_dec 0 x) as [Hpos | Hneg].
      + rewrite Rabs_pos_eq in Heq by exact Hpos.
        rewrite (rne_tie _ 0); [reflexivity |]. rewrite Heq. field. lra.
      + rewrite Rabs_left1 in Heq by lra.
        rewrite (rne_tie _ (-1)); [reflexivity |].
        replace x with (- (bpow emin / 2)) by lra. field. lra. }
  rewrite Hr. ring.
Qed.

Lemma round_zero_inv (x : R) :
  round prec emin x = 0 -> Rabs x <= bpow (emin - 1).
Proof.
  intros H. destruct (Req_dec x 0) as [-> | Hxn].
  { rewrite Rabs_R0. apply Rlt_le, bpow_pos. }
  unfold round in H. rewrite scaled in H.
  pose proof (bpow_pos (cexp prec emin x)) as Hb.
  assert (Hr : rne (x / bpow (cexp prec emin x)) = 0%Z).
  { apply eq_IZR. destruct (Rmult_integral _ _ H) as [H0 | H0]; [exact H0 | lra]. }
  pose proof (rne_bound (x / bpow (cexp prec emin x))) as Hn.
  rewrite Hr in Hn.
  replace (x / bpow (cexp prec emin x) - 0) with (x / bpow (cexp prec emin x))
    in Hn by ring.
  unfold Rdiv in Hn.
  rewrite Rabs_mult, (Rabs_pos_eq (/ bpow (cexp prec emin x))) in Hn
    by (apply Rlt_le, Rinv_0_lt_compat; exact Hb).
  assert (Hx : Rabs x <= bpow (cexp prec emin x - 1)).
  { rewrite bpow_pred.
    apply (Rmult_le_compat_r (bpow (cexp prec emin x))) in Hn; [| lra].
    rewrite Rmult_assoc, Rinv_l in Hn by lra. lra. }
  destruct (mag_bounds x Hxn) as [Mlo _].
  assert (Hm : (mag x - 1 <= cexp prec emin x - 1)%Z)
    by (apply bpow_le_inv; lra).
  assert (He : cexp prec emin x = emin) by (unfold cexp in *; lia).
  rewrite He in Hx. exact Hx.
Qed.

(** The exponent of a number that is not zero, from a bound on it. *)
Lemma cexp_le (x : R) (e c : Z) :
  x <> 0 -> Rabs x < bpow e -> (e - prec <= c)%Z -> (emin <= c)%Z ->
  (cexp prec emin x <= c)%Z.
Proof.
  intros Hxn Hx He Hc. destruct (mag_bounds x Hxn) as [Mlo _].
  assert (Hm : (mag x - 1 < e)%Z) by (apply bpow_lt_inv; lra).
  unfold cexp. lia.
Qed.

(** Integers of fewer than [prec] bits are kept. *)
Lemma round_IZR (n : Z) :
  (Z.abs n < 2 ^ prec)%Z -> (emin <= 0)%Z -> round prec emin (IZR n) = IZR n.
Proof.
  intros Hn He. destruct (Z.eq_dec n 0%Z) as [-> | Hnz]; [apply round_0 |].
  apply (round_rep (IZR n) n 0%Z); [rewrite bpow_0; ring |].
  apply (cexp_le _ prec); try lia.
  - apply not_0_IZR. exact Hnz.
  - rewrite <- abs_IZR, bpow_IZR by lia. apply IZR_lt. exact Hn.
Qed.

(** Rounding in a binade that is known. *)
Lemma round_eval (x : R) (e k : Z) :
  bpow (e - 1) <= Rabs x < bpow e ->
  rne (x * bpow (- Z.max (e - prec) emin)) = k ->
  round prec emin x = IZR k * bpow (Z.max (e - prec) emin).
Proof.
  intros Hx Hk. unfold round, cexp. rewrite (mag_unique x e Hx), Hk.
  reflexivity.
Qed.

End Rounding.

(** A number of a format is a number of every format with at least its
    precision and its range. *)
Lemma round_rep_incl (p1 e1 p2 e2 : Z) (x : R) :
  IEEE.round p1 e1 x = x -> (p1 <= p2)%Z -> (e2 <= e1)%Z ->
  IEEE.round p2 e2 x = x.
Proof.
  intros H Hp He. symmetry in H.
  apply (round_rep p2 e2 x _ (IEEE.cexp p1 e1 x) H).
  unfold IEEE.cexp. lia.
Qed.

Section Numerals.

Import IEEE.

Lemma bpow_neg_IZR (n : Z) : (0 <= n)%Z -> bpow (- n) = / IZR (2 ^ n).
Proof. intros Hn. rewrite bpow_opp, bpow_IZR by exact Hn. reflexivity. Qed.

End Numerals.

(** Powers of two with a literal exponent, as numerals. *)
Ltac bpow_num :=
  repeat match goal with
  | |- context [IEEE.bpow ?e] =>
      lazymatch e with
      | Zpos _ => fail
      | Zneg _ => fail
      | Z0 => fail
      | _ => let v := eval vm_compute in e in change (IEEE.bpow e) with (IEEE.bpow v)
      end
  end;
  repeat match goal with
  | |- context [IEEE.bpow (Zneg ?p)] =>
      let v := eval vm_compute in (2 ^ Zpos p)%Z in
      replace (IEEE.bpow (Zneg p)) with (/ IZR v)
        by (symmetry; apply (bpow_neg_IZR (Zpos p)); lia)
  | |- context [IEEE.bpow (Zpos ?p)] =>
      let v := eval vm_compute in (2 ^ Zpos p)%Z in
      replace (IEEE.bpow (Zpos p)) with (IZR v)
        by (symmetry; apply (bpow_IZR (Zpos p)); lia)
  | |- context [IEEE.bpow 0] => rewrite bpow_0
  end.

Section Formats.

Import IEEE.

Lemma binary32_small (n : Z) :
  (Z.abs n < 2 ^ 24)%Z -> binary32 (IZR n) = IZR n.
Proof. intros Hn. apply round_IZR; lia. Qed.

Lemma binary64_small (n : Z) :
  (Z.abs n < 2 ^ 53)%Z -> binary64 (IZR n) = IZR n.
Proof. intros Hn. apply round_IZR; lia. Qed.

(** A binary32 number is a binary64 number. *)
Lemma binary32_in_binary64 (x : R) : binary32 x = x -> binary64 x = x.
Proof. intros H. apply (round_rep_incl 24 (-149)); [exact H | lia | lia]. Qed.

Lemma binary32_half : binary32 0.5 = 0.5.
Proof.
  apply (round_rep 24 (-149) 0.5 1 (-1)).
  - bpow_num. lra.
  - apply (cexp_le 24 (-149) 0.5 0); try lia; [lra |].
    rewrite Rabs_pos_eq by lra. bpow_num. lra.
Qed.

(** The defaults 0.2 and 0.05 are not binary32 numbers: what is stored is
    the nearest one. *)
Lemma binary32_fifth : binary32 0.2 = 13421773 / 67108864.
Proof.
  unfold binary32. rewrite (round_eval 24 (-149) 0.2 (-2) 13421773).
  - bpow_num. lra.
  - rewrite Rabs_pos_eq by lra. bpow_num. lra.
  - apply rne_near. bpow_num. apply Rabs_def1; lra.
Qed.

Lemma binary32_twentieth : binary32 0.05 = 13421773 / 268435456.
Proof.
  unfold binary32. rewrite (round_eval 24 (-149) 0.05 (-4) 13421773).
  - bpow_num. lra.
  - rewrite Rabs_pos_eq by lra. bpow_num. lra.
  - apply rne_near. bpow_num. apply Rabs_def1; lra.
Qed.

End Formats.

(** ** The built-ins *)

Section BuiltIns.

(** [fract] stays between 0 and 1, and 1 is not excluded. *)
Lemma fract_range (x : R) : 0 <= fract x <= 1.
Proof.
  unfold fract. destruct (base_fp x) as [Hge Hlt]. split.
  - apply round_ge_rep; [lia | lra | apply round_0].
  - apply round_le_rep; [lia | lra | exact (binary32_small 1 ltac:(lia))].
Qed.

Lemma pow_2 (x : R) : 0 < x -> pow x 2 = x * x.
Proof.
  intros Hx. unfold pow.
  replace 2 with (INR 2) by (simpl; lra).
  rewrite Rpower_pow by assumption. simpl. ring.
Qed.

Lemma dot_self_nonneg (v : vec3) : 0 <= dot v v.
Proof. unfold dot. nra. Qed.

Lemma vlength_nonneg (v : vec3) : 0 <= vlength v.
Proof. apply sqrt_pos. Qed.

Lemma vlength_zero : vlength vzero = 0.
Proof.
  unfold vlength, dot, vzero; simpl.
  replace (0 * 0 + 0 * 0 + 0 * 0) with 0 by ring. apply sqrt_0.
Qed.

(** A vector along the first axis has the length of its first component. *)
Lemma vlength_x_axis (a : R) : 0 <= a -> vlength (V3 a 0 0) = a.
Proof.
  intros Ha. unfold vlength, dot; simpl.
  replace (a * a + 0 * 0 + 0 * 0) with (a * a) by ring.
  apply sqrt_square; assumption.
Qed.

(** Dividing a non-zero vector by its length leaves a unit vector. *)
Lemma vdiv_unit (v : vec3) :
  0 < vlength v ->
  exists d, vdiv v (vlength v) = Some d /\ vlength d = 1
            /\ d *s vlength v = v.
Proof.
  intros Hpos. unfold vdiv.
  destruct (Req_dec_T (vlength v) 0) as [Hz | Hnz]; [lra |].
  eexists; split; [reflexivity |].
  assert (Hsq : vlength v * vlength v = dot v v).
  { unfold vlength. apply sqrt_sqrt, dot_self_nonneg. }
  split.
  - unfold vlength at 1. unfold dot at 1; simpl.
    replace (vx v / vlength v * (vx v / vlength v)
             + vy v / vlength v * (vy v / vlength v)
             + vz v / vlength v * (vz v / vlength v))
      with (dot v v / (vlength v * vlength v)) by (unfold dot; field; lra).
    rewrite Hsq. unfold Rdiv. rewrite Rinv_r.
    + apply sqrt_1.
    + rewrite <- Hsq. nra.
  - destruct v as [a b c]; unfold vscale; simpl in *.
    f_equal; field; lra.
Qed.

(** The point [(r sin phi cos theta, r sin phi sin theta, r cos phi)] lies
    at distance [r] from the origin. *)
Lemma vlength_spherical (r phi theta : R) :
  0 <= r ->
  vlength (V3 (r * sin phi * cos theta) (r * sin phi * sin theta) (r * cos phi)) = r.
Proof.
  intros Hr. unfold vlength, dot; simpl.
  replace (r * sin phi * cos theta * (r * sin phi * cos theta)
           + r * sin phi * sin theta * (r * sin phi * sin theta)
           + r * cos phi * (r * cos phi))
    with (r * r * ((sin phi)² * ((sin theta)² + (cos theta)²) + (cos phi)²))
    by (unfold Rsqr; ring).
  rewrite (sin2_cos2 theta), Rmult_1_r, (sin2_cos2 phi), Rmult_1_r.
  apply sqrt_square; assumption.
Qed.

End BuiltIns.

(** ** The particle pass *)

Section ParticlePassFacts.

Import ParticlePass.

Lemma hash_range (p : vec3) : 0 <= hash p <= 1.
Proof. unfold hash. apply fract_range. Qed.

(** The life drawn from a hash value is between 1 and 3. *)
Lemma new_life_range (h : R) : 0 <= h <= 1 -> 1 <= new_life h <= 3.
Proof.
  intros Hh. unfold new_life.
  assert (H2 : 0 <= IEEE.binary32 (h * 2) <= 2).
  { split.
    - apply round_ge_rep; [lia | lra | apply round_0].
    - apply round_le_rep; [lia | lra | exact (binary32_small 2 ltac:(lia))]. }
  split.
  - apply round_ge_rep; [lia | lra | exact (binary32_small 1 ltac:(lia))].
  - apply round_le_rep; [lia | lra | exact (binary32_small 3 ltac:(lia))].
Qed.

(** The test of step 1, on the life before the step. *)
Lemma life_cycle_respawns (u : Uniforms) (p : Particle) :
  life p - deltaTime u * respawnRate u <= 0 ->
  life_cycle u p = respawn u (set_life p (life p - deltaTime u * respawnRate u)).
Proof.
  intros Hle. unfold life_cycle. cbv zeta.
  destruct (Rle_dec _ 0) as [_ | Hn]; [reflexivity |].
  exfalso. apply Hn. simpl. exact Hle.
Qed.

Lemma life_cycle_survives (u : Uniforms) (p : Particle) :
  0 < life p - deltaTime u * respawnRate u ->
  life_cycle u p = set_life p (life p - deltaTime u * respawnRate u).
Proof.
  intros Hlt. unfold life_cycle. cbv zeta.
  destruct (Rle_dec _ 0) as [Hle | _]; [| reflexivity].
  simpl in Hle. lra.
Qed.

Lemma respawn_velocity (u : Uniforms) (p : Particle) :
  velocity (respawn u p) = vzero.
Proof. reflexivity. Qed.

Lemma respawn_life (u : Uniforms) (p : Particle) :
  life (respawn u p) = new_life (hash (position (respawn u p))).
Proof. reflexivity. Qed.

Lemma respawn_position_length (u : Uniforms) (p : Particle) :
  vlength (position (respawn u p)) = hash (targetPos p) * 5.
Proof.
  unfold respawn; cbv zeta; simpl.
  apply vlength_spherical.
  pose proof (hash_range (targetPos p)). lra.
Qed.

Lemma respawn_keeps (u : Uniforms) (p : Particle) :
  size (respawn u p) = size p /\ color (respawn u p) = color p
  /\ targetPos (respawn u p) = targetPos p.
Proof. repeat split. Qed.




Section WithNoise.

Variable curlNoise : vec3 -> vec3.

Lemma vadd_zero_l (v : vec3) : vzero +v v = v.
Proof. destruct v. vec_eq. Qed.

(** Steps 2 to 4 on a particle, once the pointer force has a value. *)
Lemma forces_and_integration_spec (u : Uniforms) (targets : list vec3)
    (index : nat) (q : Particle) (mouse : vec3) :
  mouseForce u q = Some mouse ->
  exists p',
    forces_and_integration curlNoise u targets index q = Some p'
    /\ velocity p' =
         (velocity q
          +v (turbulenceForce curlNoise u q +v gravityForce u
              +v targetForce u targets index q +v mouse) *s deltaTime u) *s 0.98
    /\ position p' = position q +v velocity p' *s deltaTime u
    /\ life p' = life q.
Proof.
  intros Hm. unfold forces_and_integration. rewrite Hm. simpl.
  eexists; split; [reflexivity |]. repeat split.
Qed.

(** The whole update of a particle that takes the respawn branch. *)
Lemma update_after_respawn (u : Uniforms) (targets : list vec3) (index : nat)
    (p : Particle) (mouse : vec3) :
  life p - deltaTime u * respawnRate u <= 0 ->
  let q := respawn u (set_life p (life p - deltaTime u * respawnRate u)) in
  mouseForce u q = Some mouse ->
  exists p',
    update_particle curlNoise u targets index p = Some p'
    /\ velocity p' =
         ((turbulenceForce curlNoise u q +v gravityForce u
           +v targetForce u targets index q +v mouse) *s deltaTime u) *s 0.98
    /\ position p' = position q +v velocity p' *s deltaTime u
    /\ life p' = life q.
Proof.
  intros Hle q Hm. unfold update_particle.
  rewrite (life_cycle_respawns u p Hle). fold q.
  destruct (forces_and_integration_spec u targets index q mouse Hm)
    as (p' & Hp' & Hv & Hx & Hl).
  exists p'. repeat split; try assumption.
  rewrite Hv. unfold q at 1. rewrite respawn_velocity, vadd_zero_l. reflexivity.
Qed.

(** C1, as the shader has it.  The respawn branch is followed by the force
    and integration steps of the same invocation: they run on the particle
    the respawn has just reset, so the particle leaves the frame with the
    velocity those forces give it over [deltaTime], damped, and displaced by
    it from its respawn position; only the life is the re-seeded one. *)
Theorem respawn_then_forces (u : Uniforms) (targets : list vec3) (index : nat)
    (p : Particle) :
  life p - deltaTime u * respawnRate u <= 0 ->
  let q := respawn u (set_life p (life p - deltaTime u * respawnRate u)) in
  update_particle curlNoise u targets index p
    = forces_and_integration curlNoise u targets index q
  /\ forall mouse, mouseForce u q = Some mouse ->
       exists p',
         update_particle curlNoise u targets index p = Some p'
         /\ velocity p' =
              ((turbulenceForce curlNoise u q +v gravityForce u
                +v targetForce u targets index q +v mouse) *s deltaTime u) *s 0.98
         /\ position p' = position q +v velocity p' *s deltaTime u
         /\ life p' = life q.
Proof.
  intros Hle q. split.
  - unfold update_particle. rewrite (life_cycle_respawns u p Hle). reflexivity.
  - intros mouse Hm. exact (update_after_respawn u targets index p mouse Hle Hm).
Qed.

(** With a pointer radius that is not positive the pointer block is
    skipped. *)
Lemma mouseForce_off (u : Uniforms) (q : Particle) :
  hoverRadius u <= 0 -> mouseForce u q = Some vzero.
Proof.
  intros Hr. unfold mouseForce.
  destruct (Rgt_dec (hoverRadius u) 0) as [Hgt | _]; [lra | reflexivity].
Qed.

(** C7.  With a pointer radius that is zero or negative, the pointer force
    of every particle is the zero vector, the update of a particle has a
    result, and so has the invocation on the buffer, whatever the index. *)
Theorem nonpositive_radius_no_force (u : Uniforms) (targets : list vec3)
    (index : nat) (p : Particle) (particles : list Particle) :
  hoverRadius u <= 0 ->
  (forall q, mouseForce u q = Some vzero)
  /\ is_Some (update_particle curlNoise u targets index p)
  /\ is_Some (main curlNoise u targets index particles).
Proof.
  intros Hr.
  assert (Hoff : forall q, mouseForce u q = Some vzero)
    by (intros q; apply mouseForce_off; exact Hr).
  assert (Hup : forall i q, is_Some (update_particle curlNoise u targets i q)).
  { intros i q. unfold update_particle, forces_and_integration.
    rewrite Hoff. simpl. eexists; reflexivity. }
  split; [exact Hoff | split; [apply Hup |]].
  unfold main. destruct (decide _) as [_ | _]; [eexists; reflexivity |].
  destruct (particles !! index) as [q |]; [| eexists; reflexivity].
  destruct (Hup index q) as [q' Hq']. rewrite Hq'. simpl. eexists; reflexivity.
Qed.

End WithNoise.

(** C1, refuted as the specification has it.  The sample particle takes the
    respawn branch, and whatever the noise field is, it leaves the frame
    with the velocity that gravity gave it and away from its respawn
    position: not in the state the respawn reset left. *)
Lemma respawned_particle_still_moves :
  life Samples.dying
    - deltaTime Samples.gravity_only * respawnRate Samples.gravity_only <= 0
  /\ forall curlNoise : vec3 -> vec3,
       exists p',
         update_particle curlNoise Samples.gravity_only [] 0 Samples.dying = Some p'
         /\ velocity p' = V3 0 (-0.98) 0
         /\ position p'
            = position (life_cycle Samples.gravity_only Samples.dying)
              +v V3 0 (-0.98) 0
         /\ velocity p' <> velocity (life_cycle Samples.gravity_only Samples.dying)
         /\ Some p' <> Some (life_cycle Samples.gravity_only Samples.dying).
Proof.
  assert (H : life Samples.dying
    - deltaTime Samples.gravity_only * respawnRate Samples.gravity_only <= 0)
    by (simpl; lra).
  split; [exact H |]. intros curlNoise.
  destruct (update_after_respawn curlNoise Samples.gravity_only [] 0
              Samples.dying vzero H) as (p' & Hp' & Hv & Hx & _).
  { apply mouseForce_off. simpl; lra. }
  exists p'. split; [exact Hp' |].
  assert (Hv' : velocity p' = V3 0 (-0.98) 0).
  { rewrite Hv. unfold turbulenceForce, gravityForce, targetForce, vadd, vsub,
      vscale, vzero; simpl. f_equal; lra. }
  assert (Hne : V3 0 (-0.98) 0 <> vzero).
  { unfold vzero. intros Heq. injection Heq. lra. }
  split; [exact Hv' |]. split.
  - rewrite Hx, Hv'. rewrite (life_cycle_respawns _ _ H).
    vec_eq.
  - rewrite (life_cycle_respawns _ _ H), respawn_velocity, Hv'.
    split; [exact Hne |].
    intros Heq. injection Heq as Heq. apply Hne.
    rewrite <- Hv', Heq. apply respawn_velocity.
Qed.

(** C1 as the shader has it, at work on the sample particle. *)
Lemma respawn_then_forces_sample :
  life Samples.dying
    - deltaTime Samples.gravity_only * respawnRate Samples.gravity_only <= 0
  /\ update_particle Samples.still Samples.gravity_only [] 0 Samples.dying
     = forces_and_integration Samples.still Samples.gravity_only [] 0
         (respawn Samples.gravity_only
            (set_life Samples.dying
               (life Samples.dying
                - deltaTime Samples.gravity_only * respawnRate Samples.gravity_only))).
Proof.
  assert (H : life Samples.dying
    - deltaTime Samples.gravity_only * respawnRate Samples.gravity_only <= 0)
    by (simpl; lra).
  split; [exact H |].
  exact (proj1 (respawn_then_forces Samples.still Samples.gravity_only [] 0
                  Samples.dying H)).
Defined.

(** C7, at work on the frame with a negative radius. *)
Lemma nonpositive_radius_no_force_sample :
  hoverRadius Samples.negative_radius <= 0
  /\ (forall q, mouseForce Samples.negative_radius q = Some vzero)
  /\ is_Some (update_particle Samples.still Samples.negative_radius [] 0
                Samples.near_pointer)
  /\ is_Some (main Samples.still Samples.negative_radius [] 0
                [Samples.near_pointer; Samples.on_pointer]).
Proof.
  assert (H : hoverRadius Samples.negative_radius <= 0) by (simpl; lra).
  split; [exact H |].
  exact (nonpositive_radius_no_force Samples.still Samples.negative_radius [] 0
           Samples.near_pointer [Samples.near_pointer; Samples.on_pointer] H).
Defined.

(** *** The pointer force *)

Lemma ratio_below_one (d r : R) : 0 <= d -> d < r -> 0 < 1 - d / r <= 1.
Proof.
  intros Hd Hr.
  assert (Hlt : d / r < 1).
  { apply (Rmult_lt_reg_r r); [lra |].
    replace (d / r * r) with d by (field; lra). lra. }
  assert (Hge : 0 <= d / r).
  { apply Rmult_le_pos; [lra |]. apply Rlt_le, Rinv_0_lt_compat. lra. }
  lra.
Qed.

(** Inside the radius and off the pointer itself. *)
Lemma mouseForce_inside (u : Uniforms) (p : Particle) :
  let mouseVec := position p -v V3 (x2 (mousePos u)) (y2 (mousePos u)) 0 in
  let dist := vlength mouseVec in
  let falloff := (1 - dist / hoverRadius u) * (1 - dist / hoverRadius u) in
  let magnitude := falloff * hoverStrength u * mouseInfluence u in
  0 < dist < hoverRadius u ->
  exists away,
    vdiv mouseVec dist = Some away /\ vlength away = 1
    /\ away *s dist = mouseVec
    /\ mouseForce u p =
         Some (if Rgt_dec (hoverRepulsion u) 0.5
               then away *s magnitude else vneg away *s magnitude).
Proof.
  intros mouseVec dist falloff magnitude [Hpos Hlt].
  destruct (vdiv_unit mouseVec Hpos) as (away & Hdiv & Hunit & Hback).
  exists away. repeat split; try assumption.
  pose proof (ratio_below_one dist (hoverRadius u) (Rlt_le _ _ Hpos) Hlt) as Hratio.
  unfold magnitude, falloff. unfold dist, mouseVec in *.
  unfold mouseForce.
  destruct (Rgt_dec (hoverRadius u) 0) as [_ | Hn]; [| lra].
  cbv zeta.
  destruct (Rlt_dec _ (hoverRadius u)) as [_ | Hn]; [| lra].
  rewrite Hdiv. simpl. unfold rdiv.
  destruct (Req_dec_T (hoverRadius u) 0) as [Hz | _]; [lra |]. simpl.
  rewrite pow_2 by lra.
  destruct (Rgt_dec (hoverRepulsion u) 0.5); reflexivity.
Qed.

(** At the radius and beyond, and with the pointer off. *)
Lemma mouseForce_outside (u : Uniforms) (p : Particle) :
  hoverRadius u
    <= vlength (position p -v V3 (x2 (mousePos u)) (y2 (mousePos u)) 0) ->
  mouseForce u p = Some vzero.
Proof.
  intros Hge. unfold mouseForce.
  destruct (Rgt_dec (hoverRadius u) 0) as [_ | _]; [| reflexivity].
  cbv zeta. destruct (Rlt_dec _ (hoverRadius u)) as [Hlt | _]; [lra | reflexivity].
Qed.

(** On the pointer itself the direction is [0 / 0]. *)
Lemma mouseForce_on_pointer (u : Uniforms) (p : Particle) :
  0 < hoverRadius u ->
  position p = V3 (x2 (mousePos u)) (y2 (mousePos u)) 0 ->
  mouseForce u p = None.
Proof.
  intros Hr Hp. unfold mouseForce.
  destruct (Rgt_dec (hoverRadius u) 0) as [_ | Hn]; [| lra].
  cbv zeta. rewrite Hp.
  replace (V3 (x2 (mousePos u)) (y2 (mousePos u)) 0
           -v V3 (x2 (mousePos u)) (y2 (mousePos u)) 0) with vzero
    by vec_eq.
  rewrite vlength_zero.
  destruct (Rlt_dec 0 (hoverRadius u)) as [_ | Hn]; [| lra].
  unfold vdiv. destruct (Req_dec_T 0 0) as [_ | Hn]; [reflexivity | lra].
Qed.




End ParticlePassFacts.

(** ** The fiber pass that moves particles *)

Section FiberPassFacts.

Import FiberPass.

Variable u : FiberUniforms.

(** An active fiber stretched beyond [maxDistance] is switched off, and
    nothing else is written. *)
Lemma main_breaks (index : nat) (s : Store) (fiber : Fiber)
    (startParticle endParticle : Particle) :
  fst s !! index = Some fiber ->
  0.5 <= isActive fiber ->
  snd s !! start fiber = Some startParticle ->
  snd s !! end_ fiber = Some endParticle ->
  vlength (position endParticle -v position startParticle) > maxDistance u ->
  main u index s = Some (<[index := set_isActive fiber 0]> (fst s), snd s).
Proof.
  intros Hf Hact Hs He Hfar. unfold main. rewrite Hf.
  destruct (Rlt_dec (isActive fiber) 0.5) as [Hlt | _]; [lra |].
  cbv zeta. rewrite Hs, He.
  destruct (Rgt_dec _ (maxDistance u)) as [_ | Hn]; [reflexivity | contradiction].
Qed.

(** An active fiber within reach, its ends at least 0.0001 apart, pulls its
    two particles with opposite velocity changes. *)
Lemma main_spring (index : nat) (s : Store) (fiber : Fiber)
    (startParticle endParticle : Particle) :
  fst s !! index = Some fiber ->
  0.5 <= isActive fiber ->
  snd s !! start fiber = Some startParticle ->
  snd s !! end_ fiber = Some endParticle ->
  let vecBetween := position endParticle -v position startParticle in
  let currentDistance := vlength vecBetween in
  currentDistance <= maxDistance u ->
  0.0001 <= currentDistance ->
  exists direction,
    vdiv vecBetween currentDistance = Some direction
    /\ vlength direction = 1
    /\ direction *s currentDistance = vecBetween
    /\ let springForce :=
         direction *s ((currentDistance - length_ fiber) * springStrength u) in
       let dampingForce :=
         direction
         *s (dot (velocity endParticle -v velocity startParticle) direction
             * springDamping u) in
       let totalForce := springForce +v dampingForce in
       let deltaVelocity := totalForce *s deltaTime u in
       main u index s =
         Some (<[index := set_strength fiber (vlength totalForce)]> (fst s),
               <[end_ fiber :=
                   set_velocity endParticle (velocity endParticle -v deltaVelocity)]>
                 (<[start fiber :=
                      set_velocity startParticle
                        (velocity startParticle +v deltaVelocity)]> (snd s))).
Proof.
  intros Hf Hact Hs He vecBetween currentDistance Hnear Hapart.
  assert (Hpos : 0 < vlength vecBetween) by (unfold currentDistance in *; lra).
  destruct (vdiv_unit vecBetween Hpos) as (direction & Hdiv & Hunit & Hback).
  exists direction. repeat split; try assumption.
  cbv zeta. unfold currentDistance, vecBetween in *.
  unfold main. rewrite Hf.
  destruct (Rlt_dec (isActive fiber) 0.5) as [Hlt | _]; [lra |].
  cbv zeta. rewrite Hs, He.
  destruct (Rgt_dec _ (maxDistance u)) as [Hgt | _]; [lra |].
  destruct (Rlt_dec _ 0.0001) as [Hlt | _]; [lra |].
  unfold apply_spring. rewrite Hdiv. reflexivity.
Qed.

(** An active fiber within reach whose ends are less than 0.0001 apart is
    left as it is, and so are its particles. *)
Lemma main_too_close (index : nat) (s : Store) (fiber : Fiber)
    (startParticle endParticle : Particle) :
  fst s !! index = Some fiber ->
  0.5 <= isActive fiber ->
  snd s !! start fiber = Some startParticle ->
  snd s !! end_ fiber = Some endParticle ->
  vlength (position endParticle -v position startParticle) <= maxDistance u ->
  vlength (position endParticle -v position startParticle) < 0.0001 ->
  main u index s = Some s.
Proof.
  intros Hf Hact Hs He Hnear Hclose. unfold main. rewrite Hf.
  destruct (Rlt_dec (isActive fiber) 0.5) as [Hlt | _]; [lra |].
  cbv zeta. rewrite Hs, He.
  destruct (Rgt_dec _ (maxDistance u)) as [Hgt | _]; [lra |].
  destruct (Rlt_dec _ 0.0001) as [_ | Hn]; [reflexivity | contradiction].
Qed.

(** Fibers whose ends are apart join two different particles. *)
Lemma apart_distinct (particles : list Particle) (fiber : Fiber)
    (startParticle endParticle : Particle) :
  particles !! start fiber = Some startParticle ->
  particles !! end_ fiber = Some endParticle ->
  0 < vlength (position endParticle -v position startParticle) ->
  start fiber <> end_ fiber.
Proof.
  intros Hs He Hpos Heq. rewrite Heq, He in Hs. injection Hs as ->.
  replace (position startParticle -v position startParticle) with vzero in Hpos
    by vec_eq.
  rewrite vlength_zero in Hpos. lra.
Qed.

(** The shader skips an inactive fiber, so no step changes it. *)
Lemma step_keeps_inactive (s s' : Store) (i : nat) (f : Fiber) :
  step u s s' -> fst s !! i = Some f -> inactive f -> fst s' !! i = Some f.
Proof.
  intros [index Hmain] Hi Hoff. unfold inactive in Hoff.
  unfold main in Hmain.
  destruct (fst s !! index) as [fiber |] eqn:Hf;
    [| injection Hmain as <-; exact Hi].
  destruct (Rlt_dec (isActive fiber) 0.5) as [Hlt | Hact];
    [injection Hmain as <-; exact Hi |].
  assert (Hne : index <> i).
  { intros ->. rewrite Hi in Hf. injection Hf as ->. contradiction. }
  cbv zeta in Hmain.
  destruct (snd s !! start fiber) as [startParticle |];
    [| injection Hmain as <-; exact Hi].
  destruct (snd s !! end_ fiber) as [endParticle |];
    [| injection Hmain as <-; exact Hi].
  destruct (Rgt_dec _ (maxDistance u)) as [_ | _].
  { injection Hmain as <-. simpl. rewrite list_lookup_insert_ne by exact Hne.
    exact Hi. }
  destruct (Rlt_dec _ 0.0001) as [_ | _]; [injection Hmain as <-; exact Hi |].
  unfold apply_spring in Hmain.
  destruct (vdiv _ _) as [direction |]; simpl in Hmain; [| discriminate].
  injection Hmain as <-. simpl. rewrite list_lookup_insert_ne by exact Hne.
  exact Hi.
Qed.

Lemma steps_keep_inactive (s s' : Store) :
  rtc (step u) s s' ->
  forall i f, fst s !! i = Some f -> inactive f -> fst s' !! i = Some f.
Proof.
  induction 1 as [s | s t s' Hstep _ IH]; intros i f Hi Hoff.
  - exact Hi.
  - apply IH; [| exact Hoff]. exact (step_keeps_inactive s t i f Hstep Hi Hoff).
Qed.


(** What the three writes of [main_spring] leave in the buffers. *)
Lemma main_spring_writes (index : nat) (s : Store) (fiber : Fiber)
    (startParticle endParticle : Particle) :
  fst s !! index = Some fiber ->
  0.5 <= isActive fiber ->
  snd s !! start fiber = Some startParticle ->
  snd s !! end_ fiber = Some endParticle ->
  let vecBetween := position endParticle -v position startParticle in
  let currentDistance := vlength vecBetween in
  currentDistance <= maxDistance u ->
  0.0001 <= currentDistance ->
  exists direction,
    vlength direction = 1
    /\ direction *s currentDistance = vecBetween
    /\ let springForce :=
         direction *s ((currentDistance - length_ fiber) * springStrength u) in
       let dampingForce :=
         direction
         *s (dot (velocity endParticle -v velocity startParticle) direction
             * springDamping u) in
       let totalForce := springForce +v dampingForce in
       let deltaVelocity := totalForce *s deltaTime u in
       exists s',
         main u index s = Some s'
         /\ snd s' !! start fiber =
              Some (set_velocity startParticle
                      (velocity startParticle +v deltaVelocity))
         /\ snd s' !! end_ fiber =
              Some (set_velocity endParticle
                      (velocity endParticle -v deltaVelocity))
         /\ fst s' !! index = Some (set_strength fiber (vlength totalForce)).
Proof.
  intros Hf Hact Hs He vecBetween currentDistance Hnear Hapart.
  destruct (main_spring index s fiber startParticle endParticle
              Hf Hact Hs He Hnear Hapart)
    as (direction & _ & Hunit & Hback & Hmain).
  exists direction. split; [exact Hunit | split; [exact Hback |]].
  cbv zeta in *. eexists. split; [exact Hmain |].
  assert (Hne : start fiber <> end_ fiber).
  { apply (apart_distinct (snd s) fiber startParticle endParticle Hs He).
    unfold currentDistance, vecBetween in Hapart. lra. }
  simpl. repeat split.
  - rewrite list_lookup_insert_ne by (intros Heq; apply Hne; symmetry; exact Heq).
    apply list_lookup_insert_eq. exact (lookup_lt_Some _ _ _ Hs).
  - apply list_lookup_insert_eq. rewrite length_insert.
    exact (lookup_lt_Some _ _ _ He).
  - apply list_lookup_insert_eq. exact (lookup_lt_Some _ _ _ Hf).
Qed.

(** The scenario of the specification, for any two particles at (0,0,0) and
    (3,0,0), whatever their other fields are. *)
Lemma spring_scenario (index : nat) (s : Store) (fiber : Fiber)
    (startParticle endParticle : Particle) :
  fst s !! index = Some fiber ->
  0.5 <= isActive fiber ->
  snd s !! start fiber = Some startParticle ->
  snd s !! end_ fiber = Some endParticle ->
  position startParticle = V3 0 0 0 ->
  position endParticle = V3 3 0 0 ->
  length_ fiber = 1 ->
  springStrength u = 1 -> springDamping u = 0 -> deltaTime u = 1 ->
  maxDistance u = 10 ->
  (vlength (position endParticle -v position startParticle) - length_ fiber)
    * springStrength u = 2
  /\ exists s',
       main u index s = Some s'
       /\ snd s' !! start fiber =
            Some (set_velocity startParticle (velocity startParticle +v V3 2 0 0))
       /\ snd s' !! end_ fiber =
            Some (set_velocity endParticle (velocity endParticle -v V3 2 0 0))
       /\ fst s' !! index = Some (set_strength fiber 2).
Proof.
  intros Hf Hact Hs He Hps Hpe Hlen Hk Hdamp Hdt Hmax.
  assert (Hvec : position endParticle -v position startParticle = V3 3 0 0)
    by (rewrite Hps, Hpe; vec_eq).
  assert (Hd : vlength (position endParticle -v position startParticle) = 3)
    by (rewrite Hvec; apply vlength_x_axis; lra).
  split; [rewrite Hd, Hlen, Hk; lra |].
  destruct (main_spring_writes index s fiber startParticle endParticle
              Hf Hact Hs He) as (direction & _ & Hback & Hw);
    [rewrite Hd, Hmax; lra | rewrite Hd; lra |].
  cbv zeta in Hw. rewrite Hd, Hvec in Hback.
  assert (Hdir : direction = V3 1 0 0).
  { destruct direction as [a b c]. unfold vscale in Hback; simpl in Hback.
    injection Hback as Ha Hb Hc. f_equal; lra. }
  rewrite Hdir, Hd, Hlen, Hk, Hdamp, Hdt in Hw.
  replace (V3 1 0 0 *s ((3 - 1) * 1)
           +v V3 1 0 0
              *s (dot (velocity endParticle -v velocity startParticle) (V3 1 0 0)
                  * 0))
    with (V3 2 0 0) in Hw
    by vec_eq.
  replace (V3 2 0 0 *s 1) with (V3 2 0 0) in Hw
    by vec_eq.
  rewrite (vlength_x_axis 2) in Hw by lra.
  exact Hw.
Qed.


End FiberPassFacts.

Section FiberPassSamples.

Import FiberPass.

Lemma sample_gap :
  vlength (position Samples.right_end -v position Samples.left_end) = 3.
Proof.
  replace (position Samples.right_end -v position Samples.left_end)
    with (V3 3 0 0) by vec_eq.
  apply vlength_x_axis; lra.
Qed.

Lemma sample_tiny_gap :
  vlength (position Samples.close_end -v position Samples.left_end) = 0.00005.
Proof.
  replace (position Samples.close_end -v position Samples.left_end)
    with (V3 0.00005 0 0) by vec_eq.
  apply vlength_x_axis; lra.
Qed.




End FiberPassSamples.

(** ** The fiber pass that only reads particles *)

Section FiberPassROFacts.

Import FiberPassRO.

Variable u : FiberUniforms.

(** [fiber.length] is the distance by the time it is subtracted from it. *)
Lemma active_block_spring (particles : list Particle) (fiber : Fiber) :
  snd (active_block u particles fiber) = 0.
Proof.
  unfold active_block. cbv zeta. simpl.
  destruct (Rgt_dec _ (maxDistance u)); simpl; ring.
Qed.

Lemma active_block_fiber (particles : list Particle) (fiber : Fiber) :
  let fiber' := fst (active_block u particles fiber) in
  start fiber' = start fiber /\ end_ fiber' = end_ fiber
  /\ strength fiber' = mix (strength fiber) 0 (damping u)
  /\ length_ fiber' =
       vlength (position (read particles (end_ fiber))
                -v position (read particles (start fiber))).
Proof.
  unfold active_block. cbv zeta. simpl.
  destruct (Rgt_dec _ (maxDistance u)); simpl; repeat split;
    unfold mix; ring.
Qed.

Lemma update_fiber_ends (particles : list Particle) (fiber : Fiber) :
  start (update_fiber u particles fiber) = start fiber
  /\ end_ (update_fiber u particles fiber) = end_ fiber.
Proof.
  unfold update_fiber.
  destruct (Rgt_dec (isActive fiber) 0.5); [| split; reflexivity].
  destruct (active_block_fiber particles fiber) as (Hs & He & _).
  split; assumption.
Qed.


End FiberPassROFacts.


(** ** The host *)

Section HostFacts.

Import Host.

(** *** The defaults of [updateUniforms] *)

Lemma zero_is_falsy : truthy (JNumber (Num 0)) = false.
Proof.
  simpl. destruct (Req_dec_T 0 0) as [_ | Hn]; [reflexivity | contradiction].
Qed.

Lemma js_or_falsy (v : jsval) (d : R) :
  truthy v = false -> to_number (js_or v d) = Num d.
Proof. intros Hv. unfold js_or. rewrite Hv. reflexivity. Qed.

Lemma js_or_truthy (v : jsval) (d : R) :
  truthy v = true -> to_number (js_or v d) = to_number v.
Proof. intros Hv. unfold js_or. rewrite Hv. reflexivity. Qed.

(** What reaches the buffer for a parameter with a default. *)
Lemma store_default (v : jsval) (d : R) :
  truthy v = false -> f32 (to_number (js_or v d)) = Num (IEEE.binary32 d).
Proof. intros Hv. rewrite (js_or_falsy v d Hv). reflexivity. Qed.

Lemma truthy_number (r : R) : r <> 0 -> truthy (JNumber (Num r)) = true.
Proof.
  intros Hr. simpl. destruct (Req_dec_T r 0); [contradiction | reflexivity].
Qed.

(** A number that is not zero but at most [2^-150] in magnitude is truthy,
    and is stored as 0. *)
Lemma store_tiny (r d : R) :
  r <> 0 -> Rabs r <= IEEE.bpow (-150) ->
  f32 (to_number (js_or (JNumber (Num r)) d)) = Num 0.
Proof.
  intros Hr Hsmall. rewrite js_or_truthy by (apply truthy_number; exact Hr).
  simpl. f_equal. apply round_underflow; [lia | exact Hsmall].
Qed.

(** With a default that binary32 does not round to zero, nothing else is
    stored as 0. *)
Lemma store_zero_inv (v : jsval) (d : R) :
  IEEE.binary32 d <> 0 ->
  f32 (to_number (js_or v d)) = Num 0 ->
  exists r, v = JNumber (Num r) /\ r <> 0 /\ Rabs r <= IEEE.bpow (-150).
Proof.
  intros Hd H0. destruct (truthy v) eqn:Hv.
  - rewrite (js_or_truthy v d Hv) in H0.
    destruct v as [| [r |] | [|]]; simpl in Hv, H0; try discriminate.
    + exists r. split; [reflexivity |].
      destruct (Req_dec_T r 0) as [_ | Hr]; [discriminate |].
      split; [exact Hr |].
      injection H0 as H0. exact (round_zero_inv 24 (-149) ltac:(lia) r H0).
    + injection H0 as H0. rewrite (binary32_small 1) in H0 by lia. lra.
  - rewrite (store_default v d Hv) in H0. injection H0 as H0. contradiction.
Qed.

Lemma store_zero_iff (v : jsval) (d : R) :
  IEEE.binary32 d <> 0 ->
  f32 (to_number (js_or v d)) = Num 0
  <-> exists r, v = JNumber (Num r) /\ r <> 0 /\ Rabs r <= IEEE.bpow (-150).
Proof.
  intros Hd. split; [apply store_zero_inv; exact Hd |].
  intros (r & -> & Hr & Hsmall). apply store_tiny; assumption.
Qed.

(** Each parameter with a default that is not zero, with that default: it
    is not zero as a binary32 number either. *)
Lemma defaulted_entries (time deltaTime : R) (particleCount : nat)
    (params : Params) (i : nat) (v : jsval) :
  (i, v) ∈ defaulted params ->
  exists d,
    IEEE.binary32 d <> 0
    /\ uniformData time deltaTime particleCount params !! i
       = Some (f32 (to_number (js_or v d))).
Proof.
  unfold defaulted. intros Hin.
  repeat (apply elem_of_cons in Hin as [Hin | Hin];
    [injection Hin as -> ->; eexists; split; [| reflexivity] |]);
    try (apply elem_of_nil in Hin; contradiction).
  - rewrite binary32_half. lra.
  - rewrite (binary32_small 1) by lia. lra.
  - replace 3.0 with 3 by lra. rewrite (binary32_small 3) by lia. lra.
  - replace 2.0 with 2 by lra. rewrite (binary32_small 2) by lia. lra.
  - replace 1.0 with 1 by lra. rewrite (binary32_small 1) by lia. lra.
  - rewrite binary32_fifth. lra.
Qed.

(** C10, as the host has it.  For each of turbulence, attraction,
    respawnRate, hoverRadius, hoverStrength and mouseInfluence, a falsy
    value in the parameter object (and the number 0 is falsy) puts the
    default in the uniform data: 0.5, 1, 3, 2 or 1, and for 0.2 the binary32
    number nearest to it; a gravity of 0 is written as 0.  The number
    written for one of the six is 0 exactly when the parameter is a number
    that is not 0 and at most [2^-150] in magnitude: it is truthy, and the
    [Float32Array] rounds it to 0.  (The parameters are numbers, booleans
    or undefined.) *)
Theorem falsy_parameters_get_defaults (time deltaTime : R)
    (particleCount : nat) (params : Params) :
  let data := uniformData time deltaTime particleCount params in
  truthy (JNumber (Num 0)) = false
  /\ (truthy (turbulence params) = false -> data !! i_turbulence = Some (Num 0.5))
  /\ (truthy (attraction params) = false -> data !! i_attraction = Some (Num 1))
  /\ (truthy (respawnRate params) = false ->
      data !! i_respawnRate = Some (Num (13421773 / 67108864)))
  /\ (truthy (hoverRadius params) = false -> data !! i_hoverRadius = Some (Num 3))
  /\ (truthy (hoverStrength params) = false ->
      data !! i_hoverStrength = Some (Num 2))
  /\ (truthy (mouseInfluence params) = false ->
      data !! i_mouseInfluence = Some (Num 1))
  /\ (gravity params = JNumber (Num 0) -> data !! i_gravity = Some (Num 0))
  /\ (forall i v,
        (i, v) ∈ defaulted params ->
        data !! i = Some (Num 0)
        <-> exists r, v = JNumber (Num r) /\ r <> 0
                      /\ Rabs r <= IEEE.bpow (-150)).
Proof.
  intros data.
  assert (Hg : data !! i_gravity
               = Some (f32 (to_number (js_or (gravity params) 0))))
    by reflexivity.
  assert (Ht : data !! i_turbulence
               = Some (f32 (to_number (js_or (turbulence params) 0.5))))
    by reflexivity.
  assert (Ha : data !! i_attraction
               = Some (f32 (to_number (js_or (attraction params) 1))))
    by reflexivity.
  assert (Hr : data !! i_respawnRate
               = Some (f32 (to_number (js_or (respawnRate params) 0.2))))
    by reflexivity.
  assert (Hhr : data !! i_hoverRadius
                = Some (f32 (to_number (js_or (hoverRadius params) 3.0))))
    by reflexivity.
  assert (Hhs : data !! i_hoverStrength
                = Some (f32 (to_number (js_or (hoverStrength params) 2.0))))
    by reflexivity.
  assert (Hmi : data !! i_mouseInfluence
                = Some (f32 (to_number (js_or (mouseInfluence params) 1.0))))
    by reflexivity.
  rewrite Hg, Ht, Ha, Hr, Hhr, Hhs, Hmi.
  split; [exact zero_is_falsy |].
  split; [intros Hv; rewrite (store_default _ _ Hv), binary32_half;
          reflexivity |].
  split; [intros Hv; rewrite (store_default _ _ Hv), (binary32_small 1) by lia;
          reflexivity |].
  split; [intros Hv; rewrite (store_default _ _ Hv), binary32_fifth;
          reflexivity |].
  split; [intros Hv; rewrite (store_default _ _ Hv); do 2 f_equal;
          replace 3.0 with 3 by lra; exact (binary32_small 3 ltac:(lia)) |].
  split; [intros Hv; rewrite (store_default _ _ Hv); do 2 f_equal;
          replace 2.0 with 2 by lra; exact (binary32_small 2 ltac:(lia)) |].
  split; [intros Hv; rewrite (store_default _ _ Hv); do 2 f_equal;
          replace 1.0 with 1 by lra; exact (binary32_small 1 ltac:(lia)) |].
  split.
  - intros Hz. rewrite Hz, (store_default _ _ zero_is_falsy).
    do 2 f_equal. apply round_0.
  - intros i v Hin.
    destruct (defaulted_entries time deltaTime particleCount params i v Hin)
      as (d & Hd & Hi).
    fold data in Hi. rewrite Hi. rewrite <- (store_zero_iff v d Hd).
    split; [intros H; injection H as H; exact H | intros H; rewrite H; reflexivity].
Qed.

(** C10, refuted as the specification has it.  A turbulence of [2^-200] is
    not falsy, so no default replaces it, and the buffer receives 0 for
    it. *)
Lemma tiny_turbulence_is_stored_as_zero :
  turbulence Samples.tiny_turbulence = JNumber (Num (IEEE.bpow (-200)))
  /\ truthy (turbulence Samples.tiny_turbulence) = true
  /\ uniformData 1 0.016 2500 Samples.tiny_turbulence !! i_turbulence
     = Some (Num 0).
Proof.
  assert (Hnz : IEEE.bpow (-200) <> 0)
    by (pose proof (bpow_pos (-200)); lra).
  split; [reflexivity |]. split; [apply truthy_number; exact Hnz |].
  change (uniformData 1 0.016 2500 Samples.tiny_turbulence !! i_turbulence)
    with (Some (f32 (to_number
                  (js_or (JNumber (Num (IEEE.bpow (-200)))) 0.5)))).
  f_equal. apply store_tiny; [exact Hnz |].
  rewrite Rabs_pos_eq by (apply Rlt_le, bpow_pos). apply bpow_le. lia.
Qed.

(** C10 as the host has it, at work on the parameter object whose numbers
    are all zero. *)
Lemma falsy_parameters_get_defaults_sample :
  let data := uniformData 1 0.016 2500 Samples.all_zero in
  data !! i_turbulence = Some (Num 0.5)
  /\ data !! i_attraction = Some (Num 1)
  /\ data !! i_respawnRate = Some (Num (13421773 / 67108864))
  /\ data !! i_hoverRadius = Some (Num 3)
  /\ data !! i_hoverStrength = Some (Num 2)
  /\ data !! i_mouseInfluence = Some (Num 1)
  /\ data !! i_gravity = Some (Num 0).
Proof.
  destruct (falsy_parameters_get_defaults 1 0.016 2500 Samples.all_zero)
    as (Hz & Ht & Ha & Hr & Hhr & Hhs & Hmi & Hg & _).
  cbv zeta.
  split; [exact (Ht Hz) |]. split; [exact (Ha Hz) |]. split; [exact (Hr Hz) |].
  split; [exact (Hhr Hz) |]. split; [exact (Hhs Hz) |]. split; [exact (Hmi Hz) |].
  exact (Hg eq_refl).
Defined.

(** *** The frame loop and the readback *)

Section PageFacts.

Variable value : Type.
Variable positive : value -> bool.
Variable initial : string -> value.

(** No panel has a property [morphProgress], nor a listener that stores into
    one. *)
Lemma panels_without_morphProgress (P : Panel) :
  P = panel \/ P = panel_modules ->
  ("morphProgress" ∉ own_properties P) /\ ("morphProgress" ∉ listened P).
Proof.
  intros [-> | ->]; split; unfold listened; simpl;
    repeat (apply not_elem_of_cons; split; [discriminate |]);
    apply not_elem_of_nil.
Qed.

Lemma controlState_lookup (P : Panel) :
  "morphProgress" ∉ own_properties P ->
  controlState P initial !! "morphProgress" = None.
Proof.
  intros Hown. unfold controlState. apply not_elem_of_list_to_map_1.
  assert (Hkeys : forall l : list string,
            ((fun key => (key, initial key)) <$> l).*1 = l).
  { induction l as [| k l IH]; simpl; [reflexivity |]. f_equal. exact IH. }
  rewrite Hkeys. exact Hown.
Qed.

Lemma listener_keeps (P : Panel) (key : string) (v : value)
    (c : gmap string value) :
  "morphProgress" ∉ listened P ->
  c !! "morphProgress" = None ->
  listener P key v c !! "morphProgress" = None.
Proof.
  intros Hl Hc. unfold listener.
  destruct (decide (key ∈ listened P)) as [Hin | _]; [| exact Hc].
  rewrite lookup_insert_ne; [exact Hc |].
  intros ->. contradiction.
Qed.

(** A preset adds no property. *)
Lemma applyPreset_keeps (preset : list (string * value)) :
  forall c : gmap string value,
    c !! "morphProgress" = None ->
    applyPreset preset c !! "morphProgress" = None.
Proof.
  unfold applyPreset.
  induction preset as [| [key v] preset IH]; intros c Hc; [exact Hc |].
  simpl. apply IH.
  destruct (decide (is_Some (c !! key))) as [Hsome | _]; [| exact Hc].
  rewrite lookup_insert_ne; [exact Hc |].
  intros ->. rewrite Hc in Hsome. destruct Hsome as [x Hx]. discriminate.
Qed.

(** [animate] goes on to the next frame whatever is in flight. *)
Lemma animate_counts (l : Loop value) :
  frame (animate positive l) = S (frame l)
  /\ useWebGPU (animate positive l) = useWebGPU l
  /\ control (animate positive l) = control l.
Proof.
  unfold animate. simpl.
  destruct (useWebGPU l); [| repeat split].
  destruct (morphing positive (control l)); repeat split.
Qed.

(** Neither [animate] nor [syncWebGPUParticles] looks at what is in flight:
    were [morphProgress] positive, a frame on the GPU path would put a
    readback behind those already there. *)
Lemma animate_issues (l : Loop value) :
  useWebGPU l = true -> morphing positive (control l) = true ->
  in_flight (animate positive l) = in_flight l ++ [S (frame l)].
Proof.
  intros Hgpu Hmp. unfold animate. simpl. rewrite Hgpu, Hmp. reflexivity.
Qed.

(** Without a property [morphProgress] a frame issues nothing. *)
Lemma animate_quiet (l : Loop value) :
  control l !! "morphProgress" = None ->
  in_flight (animate positive l) = in_flight l
  /\ mirror (animate positive l) = mirror l.
Proof.
  intros Hc. unfold animate, morphing. simpl. rewrite Hc.
  destruct (useWebGPU l); split; reflexivity.
Qed.

Lemma run_quiet (P : Panel) (events : list (event value)) :
  "morphProgress" ∉ listened P ->
  forall l : Loop value,
    control l !! "morphProgress" = None -> in_flight l = [] ->
    let l' := run positive P events l in
    control l' !! "morphProgress" = None
    /\ in_flight l' = []
    /\ mirror l' = mirror l
    /\ frame l' = (frame l + frames events)%nat
    /\ useWebGPU l' = useWebGPU l.
Proof.
  intros Hl. unfold run, frames.
  induction events as [| e events IH]; intros l Hc Hf; simpl.
  { repeat split; try assumption. lia. }
  destruct e as [| | key v | preset |]; simpl.
  - destruct (animate_counts l) as (Hn & Hg & Hk).
    destruct (animate_quiet l Hc) as (Hi & Hm).
    destruct (IH (animate positive l)) as (H1 & H2 & H3 & H4 & H5).
    { rewrite Hk. exact Hc. }
    { rewrite Hi. exact Hf. }
    repeat split; try assumption; try congruence.
    rewrite H4, Hn. lia.
  - assert (Hr : resolve l = l) by (unfold resolve; rewrite Hf; reflexivity).
    rewrite Hr. apply IH; assumption.
  - apply (IH (set_control l (listener P key v (control l)))).
    + simpl. apply listener_keeps; assumption.
    + exact Hf.
  - apply (IH (set_control l (applyPreset preset (control l)))).
    + simpl. apply applyPreset_keeps. exact Hc.
    + exact Hf.
  - apply IH; assumption.
Qed.

Lemma loaded_quiet (P : Panel) (events : list (event value)) (gpu : bool) :
  P = panel \/ P = panel_modules ->
  let l := run positive P events (loaded P initial gpu) in
  control l !! "morphProgress" = None
  /\ in_flight l = []
  /\ mirror l = None
  /\ frame l = frames events
  /\ useWebGPU l = gpu.
Proof.
  intros HP. destruct (panels_without_morphProgress P HP) as [Hown Hl].
  exact (run_quiet P events Hl (loaded P initial gpu)
           (controlState_lookup P Hown) eq_refl).
Qed.


End PageFacts.

(** *** The CPU morph tween *)

Lemma progress_at_end (elapsed duration : R) :
  0 < duration -> duration <= elapsed -> progress_at elapsed duration = 1.
Proof.
  intros Hd He. unfold progress_at. apply Rmin_right.
  apply (Rmult_le_reg_r duration); [exact Hd |].
  replace (elapsed / duration * duration) with elapsed by (field; lra). lra.
Qed.

Lemma ease_start : easedProgress 0 = 0.
Proof.
  unfold easedProgress. destruct (Rlt_dec 0 0.5) as [_ | Hn]; [ring | lra].
Qed.

Lemma ease_end : easedProgress 1 = 1.
Proof.
  unfold easedProgress. destruct (Rlt_dec 1 0.5) as [Hlt | _]; [lra |].
  simpl. lra.
Qed.

Lemma ease_middle : easedProgress 0.5 = 0.5.
Proof.
  unfold easedProgress. destruct (Rlt_dec 0.5 0.5) as [Hlt | _]; [lra |].
  simpl. lra.
Qed.

Lemma ease_increasing (p q : R) :
  0 <= p -> p < q -> q <= 1 -> easedProgress p < easedProgress q.
Proof.
  intros Hp Hpq Hq. unfold easedProgress.
  destruct (Rlt_dec p 0.5) as [Hp5 | Hp5];
    destruct (Rlt_dec q 0.5) as [Hq5 | Hq5]; simpl; nra.
Qed.

Lemma ease_monotone (p q : R) :
  0 <= p -> p <= q -> q <= 1 -> easedProgress p <= easedProgress q.
Proof.
  intros Hp Hpq Hq. destruct (Rle_lt_or_eq_dec p q Hpq) as [Hlt | ->].
  - apply Rlt_le, ease_increasing; assumption.
  - apply Rle_refl.
Qed.

Lemma morph_frame_lookup (startPositions dest : list R) (eased : R)
    (i : nat) (s : R) :
  startPositions !! i = Some s ->
  morph_frame startPositions dest eased !! i
  = Some match dest !! i with
         | Some d => Num (tween s d eased)
         | None => NaN
         end.
Proof.
  intros Hs. unfold morph_frame. rewrite list_lookup_imap, Hs. reflexivity.
Qed.

(** When the difference is exact in binary64, the last value of the tween
    is the destination. *)
Lemma tween_end (s d : R) :
  IEEE.binary32 d = d -> IEEE.binary64 (d - s) = d - s -> tween s d 1 = d.
Proof.
  intros Hd Hexact. unfold tween.
  rewrite Hexact, Rmult_1_r, Hexact.
  replace (s + (d - s)) with d by ring.
  rewrite (binary32_in_binary64 d Hd). exact Hd.
Qed.

(** At progress 1 a coordinate is the destination's, when the difference is
    exact. *)
Lemma morph_frame_end (startPositions dest : list R) (i : nat) (s d : R) :
  startPositions !! i = Some s -> dest !! i = Some d ->
  IEEE.binary32 d = d -> IEEE.binary64 (d - s) = d - s ->
  morph_frame startPositions dest (easedProgress 1) !! i = Some (Num d).
Proof.
  intros Hs Hd H32 Hexact.
  rewrite (morph_frame_lookup _ _ _ _ _ Hs), Hd, ease_end.
  rewrite (tween_end s d H32 Hexact). reflexivity.
Qed.

Lemma morph_frame_end_all (startPositions dest : list R) :
  List.length startPositions = List.length dest ->
  (forall i s d,
     startPositions !! i = Some s -> dest !! i = Some d ->
     IEEE.binary32 d = d /\ IEEE.binary64 (d - s) = d - s) ->
  morph_frame startPositions dest (easedProgress 1) = Num <$> dest.
Proof.
  intros Hlen Hexact. apply list_eq. intros i.
  rewrite list_lookup_fmap.
  destruct (dest !! i) as [d |] eqn:Hd.
  - destruct (lookup_lt_is_Some_2 startPositions i) as [s Hs].
    { rewrite Hlen. exact (lookup_lt_Some _ _ _ Hd). }
    destruct (Hexact i s d Hs Hd) as [H32 H64].
    exact (morph_frame_end startPositions dest i s d Hs Hd H32 H64).
  - unfold morph_frame. rewrite list_lookup_imap.
    rewrite (lookup_ge_None_2 startPositions i); [reflexivity |].
    rewrite Hlen. exact (proj1 (lookup_ge_None _ _) Hd).
Qed.

(** C8, as the host has it.  The easing of the CPU morph tween takes 0 to
    0, 1 to 1 and 0.5 to 0.5 and is increasing on [0, 1]; and at progress 1
    a coordinate the frame writes is the destination's whenever the
    destination is a binary32 number and its difference from the start is
    exact in binary64, so that with arrays of one length that meet this in
    every coordinate the frame writes the destination array. *)
Theorem ease_in_out_tween :
  easedProgress 0 = 0 /\ easedProgress 1 = 1 /\ easedProgress 0.5 = 0.5
  /\ (forall p q, 0 <= p -> p < q -> q <= 1 -> easedProgress p < easedProgress q)
  /\ (forall p q, 0 <= p -> p <= q -> q <= 1 -> easedProgress p <= easedProgress q)
  /\ (forall startPositions dest i s d,
        startPositions !! i = Some s -> dest !! i = Some d ->
        IEEE.binary32 d = d -> IEEE.binary64 (d - s) = d - s ->
        morph_frame startPositions dest (easedProgress 1) !! i = Some (Num d))
  /\ (forall startPositions dest,
        List.length startPositions = List.length dest ->
        (forall i s d,
           startPositions !! i = Some s -> dest !! i = Some d ->
           IEEE.binary32 d = d /\ IEEE.binary64 (d - s) = d - s) ->
        morph_frame startPositions dest (easedProgress 1) = Num <$> dest).
Proof.
  split; [exact ease_start |]. split; [exact ease_end |].
  split; [exact ease_middle |]. split; [exact ease_increasing |].
  split; [exact ease_monotone |]. split; [exact morph_frame_end |].
  exact morph_frame_end_all.
Qed.

(** C8, refuted as the specification has it.  A coordinate that starts at
    [2^54] on its way to 1, both binary32 numbers: the difference
    [1 - 2^54] is not a binary64 number and is rounded to [-2^54], and at
    progress 1 the frame writes 0, not 1. *)
Lemma tween_misses_destination :
  IEEE.binary32 (IEEE.bpow 54) = IEEE.bpow 54
  /\ IEEE.binary32 1 = 1
  /\ IEEE.binary64 (1 - IEEE.bpow 54) = - IEEE.bpow 54
  /\ morph_frame [IEEE.bpow 54] [1] (easedProgress 1) !! 0%nat
     = Some (Num 0)
  /\ Num 0 <> Num 1.
Proof.
  assert (H54 : forall prec emin,
            (2 <= prec)%Z -> (emin <= 54)%Z ->
            IEEE.round prec emin (IEEE.bpow 54) = IEEE.bpow 54).
  { intros prec emin Hp He.
    apply (round_rep prec emin _ 1 54); [ring |].
    apply (cexp_le prec emin _ 55); try lia.
    - pose proof (bpow_pos 54). lra.
    - rewrite Rabs_pos_eq by (apply Rlt_le, bpow_pos). apply bpow_lt. lia. }
  assert (Hdiff : IEEE.binary64 (1 - IEEE.bpow 54) = - IEEE.bpow 54).
  { unfold IEEE.binary64.
    rewrite (round_eval 53 (-1074) _ 54 (- 9007199254740992)).
    - bpow_num. lra.
    - bpow_num. rewrite Rabs_left1 by lra. lra.
    - rewrite (rne_tie _ (- 9007199254740992)); [reflexivity |].
      bpow_num. lra. }
  split; [apply H54; lia |].
  split; [exact (binary32_small 1 ltac:(lia)) |].
  split; [exact Hdiff |]. split.
  - rewrite (morph_frame_lookup [IEEE.bpow 54] [1] _ 0 (IEEE.bpow 54) eq_refl).
    change ([1] !! 0%nat) with (Some 1).
    rewrite ease_end. unfold tween.
    rewrite Hdiff, Rmult_1_r.
    assert (Hneg : IEEE.binary64 (- IEEE.bpow 54) = - IEEE.bpow 54).
    { unfold IEEE.binary64. rewrite round_opp. f_equal. apply H54; lia. }
    rewrite Hneg.
    replace (IEEE.bpow 54 + - IEEE.bpow 54) with 0 by ring.
    unfold IEEE.binary64, IEEE.binary32. rewrite !round_0. reflexivity.
  - intros H. injection H as H. lra.
Qed.

(** C8 as the host has it, at work: the last frame of the sample morph, and
    two progress values in order. *)
Lemma ease_in_out_tween_sample :
  morph_frame Samples.from_here Samples.to_there (easedProgress 1)
    = Num <$> Samples.to_there
  /\ easedProgress 0.25 < easedProgress 0.75.
Proof.
  destruct ease_in_out_tween as (_ & _ & _ & Hinc & _ & _ & Hall).
  split.
  - apply Hall; [reflexivity |].
    intros i s d Hs Hd.
    do 6 (destruct i as [| i];
      [simpl in Hs, Hd; injection Hs as <-; injection Hd as <-;
       split; [apply binary32_small; lia
              | rewrite <- minus_IZR; apply binary64_small; lia] |]).
    discriminate.
  - apply Hinc; lra.
Defined.

End HostFacts.

(** * Further properties of the passes *)

Section ParticleDispatch.

Import ParticlePass Schedule.

Variable curlNoise : vec3 -> vec3.
Variable u : Uniforms.
Variable targets : list vec3.

(** What an invocation does, by the cases of its guards. *)
Lemma main_skips (index : nat) (particles : list Particle) :
  (u32 (particleCount u) <= index)%nat \/ particles !! index = None ->
  main curlNoise u targets index particles = Some particles.
Proof.
  intros H. unfold main.
  destruct (decide (u32 (particleCount u) <= index)%nat) as [_ | Hin];
    [reflexivity |].
  destruct H as [H | H]; [contradiction | rewrite H; reflexivity].
Qed.

Lemma main_updates (index : nat) (particles : list Particle) (p : Particle) :
  (index < u32 (particleCount u))%nat -> particles !! index = Some p ->
  main curlNoise u targets index particles
  = p' ← update_particle curlNoise u targets index p;
    Some (<[index := p']> particles).
Proof.
  intros Hin Hp. unfold main.
  destruct (decide (u32 (particleCount u) <= index)%nat) as [Hout | _];
    [lia |].
  rewrite Hp. reflexivity.
Qed.

Lemma main_inv (index : nat) (particles particles' : list Particle) :
  main curlNoise u targets index particles = Some particles' ->
  particles' = particles
  \/ exists p p',
       (index < u32 (particleCount u))%nat /\ particles !! index = Some p
       /\ update_particle curlNoise u targets index p = Some p'
       /\ particles' = <[index := p']> particles.
Proof.
  intros Hm.
  destruct (decide (u32 (particleCount u) <= index)%nat) as [Hout | Hin].
  { rewrite main_skips in Hm by (left; exact Hout). injection Hm as <-. left; reflexivity. }
  destruct (particles !! index) as [p |] eqn:Hp.
  - rewrite (main_updates index particles p) in Hm by (lia || exact Hp).
    destruct (update_particle curlNoise u targets index p) as [p' |] eqn:Hup;
      simpl in Hm; [| discriminate].
    injection Hm as <-. right. exists p, p'. repeat split; try assumption. lia.
  - rewrite main_skips in Hm by (right; exact Hp). injection Hm as <-. left; reflexivity.
Qed.

(** An invocation reads and writes its own particle only: what it does at
    [i] is the same before and after an invocation at another index. *)
Lemma main_other (i j : nat) (particles particles' : list Particle) :
  i <> j ->
  main curlNoise u targets j particles = Some particles' ->
  particles' !! i = particles !! i.
Proof.
  intros Hne Hm. destruct (main_inv j particles particles' Hm)
    as [-> | (p & p' & _ & _ & _ & ->)]; [reflexivity |].
  apply list_lookup_insert_ne. intros Heq; apply Hne; symmetry; exact Heq.
Qed.

Lemma main_commute (i j : nat) (particles : list Particle) :
  i <> j ->
  (ps ← main curlNoise u targets i particles; main curlNoise u targets j ps)
  = (ps ← main curlNoise u targets j particles; main curlNoise u targets i ps).
Proof.
  intros Hne.
  assert (Hstep : forall a b ps, a <> b ->
     (u32 (particleCount u) <= a)%nat \/ ps !! a = None ->
     (ps1 ← main curlNoise u targets a ps; main curlNoise u targets b ps1)
     = (ps2 ← main curlNoise u targets b ps; main curlNoise u targets a ps2)).
  { intros a b ps Hab Ha. rewrite (main_skips a ps Ha). simpl.
    destruct (main curlNoise u targets b ps) as [ps2 |] eqn:Hb; simpl;
      [| reflexivity].
    symmetry. apply main_skips. destruct Ha as [Ha | Ha]; [left; exact Ha |].
    right. rewrite (main_other a b ps ps2 Hab Hb). exact Ha. }
  destruct (decide (u32 (particleCount u) <= i)%nat) as [Hi | Hi];
    [apply Hstep; [exact Hne | left; exact Hi] |].
  destruct (decide (u32 (particleCount u) <= j)%nat) as [Hj | Hj];
    [symmetry; apply Hstep; [intros Heq; apply Hne; symmetry; exact Heq
                            | left; exact Hj] |].
  destruct (particles !! i) as [p |] eqn:Hp;
    [| apply Hstep; [exact Hne | right; exact Hp]].
  destruct (particles !! j) as [q |] eqn:Hq;
    [| symmetry; apply Hstep; [intros Heq; apply Hne; symmetry; exact Heq
                              | right; exact Hq]].
  rewrite (main_updates i particles p) by (lia || exact Hp).
  rewrite (main_updates j particles q) by (lia || exact Hq).
  destruct (update_particle curlNoise u targets i p) as [p' |] eqn:Hup;
    destruct (update_particle curlNoise u targets j q) as [q' |] eqn:Huq; simpl.
  - rewrite (main_updates j (<[i:=p']> particles) q);
      [| lia | rewrite list_lookup_insert_ne by exact Hne; exact Hq].
    rewrite (main_updates i (<[j:=q']> particles) p);
      [| lia | rewrite list_lookup_insert_ne
                 by (intros Heq; apply Hne; symmetry; exact Heq); exact Hp].
    rewrite Hup, Huq. simpl. f_equal. apply list_insert_insert_ne. intros Heq; apply Hne; symmetry; exact Heq.
  - rewrite (main_updates j (<[i:=p']> particles) q);
      [| lia | rewrite list_lookup_insert_ne by exact Hne; exact Hq].
    rewrite Huq. reflexivity.
  - rewrite (main_updates i (<[j:=q']> particles) p);
      [| lia | rewrite list_lookup_insert_ne
                 by (intros Heq; apply Hne; symmetry; exact Heq); exact Hp].
    rewrite Hup. reflexivity.
  - reflexivity.
Qed.

Lemma particle_pass_perm (indices indices' : list nat) :
  Permutation indices indices' -> NoDup indices ->
  forall particles,
    particle_pass curlNoise u targets indices particles
    = particle_pass curlNoise u targets indices' particles.
Proof.
  induction 1 as [| x l l' Hperm IH | x y l | l l' l'' H1 IH1 H2 IH2];
    intros Hnd particles.
  - reflexivity.
  - simpl. apply NoDup_cons in Hnd as [_ Hnd].
    destruct (main curlNoise u targets x particles); simpl;
      [apply IH; exact Hnd | reflexivity].
  - apply NoDup_cons in Hnd as [Hy _].
    assert (Hne : y <> x).
    { intros ->. apply Hy. apply list_elem_of_here. }
    simpl.
    pose proof (main_commute y x particles Hne) as Hc.
    destruct (main curlNoise u targets y particles) as [ps1 |];
      destruct (main curlNoise u targets x particles) as [ps2 |];
      simpl in *.
    + destruct (main curlNoise u targets x ps1) as [ps3 |];
        destruct (main curlNoise u targets y ps2) as [ps4 |];
        simpl; try discriminate; try reflexivity.
      injection Hc as ->. reflexivity.
    + destruct (main curlNoise u targets x ps1); [discriminate | reflexivity].
    + destruct (main curlNoise u targets y ps2); [discriminate | reflexivity].
    + reflexivity.
  - rewrite IH1 by exact Hnd. apply IH2. rewrite <- H1. exact Hnd.
Qed.

(** A pass over indices that are all different: where every particle ends
    up. *)
Lemma particle_pass_inv (indices : list nat) :
  NoDup indices ->
  forall particles particles',
    particle_pass curlNoise u targets indices particles = Some particles' ->
    List.length particles' = List.length particles
    /\ forall i,
         (i ∈ indices -> (i < u32 (particleCount u))%nat ->
          forall p, particles !! i = Some p ->
          exists p',
            update_particle curlNoise u targets i p = Some p'
            /\ particles' !! i = Some p')
         /\ (i ∉ indices \/ (u32 (particleCount u) <= i)%nat ->
             particles' !! i = particles !! i).
Proof.
  induction 1 as [| x l Hx Hnd IH]; intros particles particles' Hpass.
  - injection Hpass as <-. split; [reflexivity |]. intros i. split.
    + intros Hin. apply elem_of_nil in Hin. contradiction.
    + reflexivity.
  - simpl in Hpass.
    destruct (main curlNoise u targets x particles) as [ps1 |] eqn:Hmain;
      simpl in Hpass; [| discriminate].
    destruct (IH ps1 particles' Hpass) as [Hlen Hrest].
    assert (Hlen1 : List.length ps1 = List.length particles).
    { destruct (main_inv x particles ps1 Hmain)
        as [-> | (p & p' & _ & _ & _ & ->)];
        [reflexivity | apply length_insert]. }
    split; [rewrite Hlen; exact Hlen1 |].
    intros i. split.
    + intros Hin Hrange p Hp.
      destruct (decide (i = x)) as [-> | Hne].
      * rewrite (main_updates x particles p Hrange Hp) in Hmain.
        destruct (update_particle curlNoise u targets x p) as [p' |] eqn:Hup;
          simpl in Hmain; [| discriminate].
        injection Hmain as <-. exists p'. split; [reflexivity |].
        rewrite (proj2 (Hrest x)) by (left; exact Hx).
        apply list_lookup_insert_eq. exact (lookup_lt_Some _ _ _ Hp).
      * apply (proj1 (Hrest i)); [| exact Hrange |].
        -- apply elem_of_cons in Hin as [Heq | Hin]; [contradiction | exact Hin].
        -- rewrite (main_other i x particles ps1 Hne Hmain). exact Hp.
    + intros Hout. rewrite (proj2 (Hrest i)).
      * destruct (decide (i = x)) as [-> | Hne];
          [| exact (main_other i x particles ps1 Hne Hmain)].
        destruct Hout as [Hnot | Hrange].
        -- exfalso. apply Hnot. apply list_elem_of_here.
        -- rewrite main_skips in Hmain by (left; exact Hrange).
           injection Hmain as <-. reflexivity.
      * destruct Hout as [Hnot | Hrange]; [left | right; exact Hrange].
        intros Hin. apply Hnot. apply list_elem_of_further. exact Hin.
Qed.

(** X1.  The invocations of the particle pass do not interfere: run over
    the same indices, each once, in two different orders, the pass gives the
    same particle buffer, or has no result in both orders. *)
Theorem particle_pass_order_free (indices indices' : list nat)
    (particles : list Particle) :
  Permutation indices indices' -> NoDup indices ->
  particle_pass curlNoise u targets indices particles
  = particle_pass curlNoise u targets indices' particles.
Proof.
  intros Hperm Hnd. exact (particle_pass_perm indices indices' Hperm Hnd particles).
Qed.

(** X2.  In a pass that has a result, every particle the pass covers and
    the shader's count admits leaves with the update of the state it had
    before the pass, whatever ran before its invocation; every other entry
    of the buffer, and the length of the buffer, is as before. *)
Theorem particle_pass_updates_each_once (indices : list nat)
    (particles particles' : list Particle) :
  NoDup indices ->
  particle_pass curlNoise u targets indices particles = Some particles' ->
  List.length particles' = List.length particles
  /\ forall i,
       (i ∈ indices -> (i < u32 (particleCount u))%nat ->
        forall p, particles !! i = Some p ->
        exists p',
          update_particle curlNoise u targets i p = Some p'
          /\ particles' !! i = Some p')
       /\ (i ∉ indices \/ (u32 (particleCount u) <= i)%nat ->
           particles' !! i = particles !! i).
Proof.
  intros Hnd Hpass. exact (particle_pass_inv indices Hnd particles particles' Hpass).
Qed.

End ParticleDispatch.

Section ComputeDispatch.

Import ParticlePass Schedule.

Lemma ceil_bounds (x : R) : x <= IZR (ceil x) < x + 1.
Proof.
  unfold ceil. rewrite opp_IZR.
  destruct (base_Int_part (- x)) as [Hle Hgt]. lra.
Qed.

(** The work groups cover the particles, with fewer than 64 invocations to
    spare. *)
Lemma workgroups_cover (n : nat) :
  (n <= 64 * workgroupsX n < n + 64)%nat.
Proof.
  unfold workgroupsX.
  destruct (ceil_bounds (INR n / 64)) as [Hlo Hhi].
  set (c := ceil (INR n / 64)) in *.
  assert (Hn : 0 <= INR n) by apply pos_INR.
  assert (Hc : (0 <= c)%Z).
  { apply le_IZR. lra. }
  rewrite INR_IZR_INZ in Hlo, Hhi.
  assert (H1 : (Z.of_nat n <= 64 * c)%Z).
  { apply le_IZR. rewrite mult_IZR. lra. }
  assert (H2 : (64 * c < Z.of_nat n + 64)%Z).
  { apply lt_IZR. rewrite plus_IZR, mult_IZR. lra. }
  lia.
Qed.

Lemma u32_INR (n : nat) : (Z.of_nat n <= 4294967295)%Z -> u32 (INR n) = n.
Proof.
  intros Hn. unfold u32. rewrite Int_part_INR. lia.
Qed.

(** X3.  [compute] with the count written by [updateUniforms]: the work
    groups of the particle pass cover every index below [particleCount]
    with fewer than 64 invocations to spare, and a pass that has a result
    has updated each particle below [particleCount], once, from the state it
    had before the pass, and has left the buffer from [particleCount] on as
    it was. *)
Theorem compute_updates_every_particle (curlNoise : vec3 -> vec3)
    (u : Uniforms) (targets : list vec3) (n : nat)
    (particles particles' : list Particle) :
  particleCount u = INR n -> (Z.of_nat n <= 4294967295)%Z ->
  particle_pass curlNoise u targets (dispatched (workgroupsX n)) particles
    = Some particles' ->
  (n <= 64 * workgroupsX n < n + 64)%nat
  /\ (forall i p,
        (i < n)%nat -> particles !! i = Some p ->
        exists p',
          update_particle curlNoise u targets i p = Some p'
          /\ particles' !! i = Some p')
  /\ (forall i, (n <= i)%nat -> particles' !! i = particles !! i).
Proof.
  intros Hcount Hn Hpass.
  pose proof (workgroups_cover n) as Hcover.
  split; [exact Hcover |].
  assert (Hu : u32 (particleCount u) = n) by (rewrite Hcount; apply u32_INR; exact Hn).
  destruct (particle_pass_inv curlNoise u targets (dispatched (workgroupsX n))
              (NoDup_seq _ _) particles particles' Hpass) as [_ Hall].
  split.
  - intros i p Hi Hp. apply (proj1 (Hall i)); [| lia | exact Hp].
    unfold dispatched. apply elem_of_seq. lia.
  - intros i Hi. apply (proj2 (Hall i)). right. lia.
Qed.

(** With the pointer off every invocation, and so every pass, has a
    result. *)
Lemma main_defined_pointer_off (curlNoise : vec3 -> vec3) (u : Uniforms)
    (targets : list vec3) (index : nat) (particles : list Particle) :
  hoverRadius u <= 0 -> is_Some (main curlNoise u targets index particles).
Proof.
  intros Hr. unfold main.
  destruct (decide _) as [_ | _]; [eexists; reflexivity |].
  destruct (particles !! index) as [p |]; [| eexists; reflexivity].
  unfold update_particle, forces_and_integration.
  rewrite (mouseForce_off u _ Hr). simpl. eexists; reflexivity.
Qed.

Lemma particle_pass_defined_pointer_off (curlNoise : vec3 -> vec3)
    (u : Uniforms) (targets : list vec3) (indices : list nat) :
  hoverRadius u <= 0 ->
  forall particles,
    is_Some (particle_pass curlNoise u targets indices particles).
Proof.
  intros Hr. induction indices as [| x l IH]; intros particles.
  - eexists; reflexivity.
  - simpl.
    destruct (main_defined_pointer_off curlNoise u targets x particles Hr)
      as [ps1 H1].
    rewrite H1. simpl. apply IH.
Qed.

Lemma sample_count : u32 (particleCount Samples.negative_radius) = 2%nat.
Proof.
  replace (particleCount Samples.negative_radius) with (INR 2)
    by (simpl; lra).
  apply u32_INR. lia.
Qed.

Lemma sample_indices : NoDup [0%nat; 1%nat].
Proof.
  apply NoDup_cons. split; [| apply NoDup_singleton].
  intros H. apply list_elem_of_singleton in H. discriminate.
Qed.

(** X1, at work: two particles, updated in either order. *)
Lemma particle_pass_order_free_sample :
  particle_pass Samples.still Samples.negative_radius [] [0%nat; 1%nat]
    [Samples.near_pointer; Samples.on_pointer]
  = particle_pass Samples.still Samples.negative_radius [] [1%nat; 0%nat]
      [Samples.near_pointer; Samples.on_pointer].
Proof.
  apply particle_pass_order_free; [apply perm_swap | exact sample_indices].
Defined.

(** X2, at work: the pass over the two sample particles. *)
Lemma particle_pass_updates_each_once_sample :
  exists particles',
    particle_pass Samples.still Samples.negative_radius [] [0%nat; 1%nat]
      [Samples.near_pointer; Samples.on_pointer] = Some particles'
    /\ List.length particles' = 2%nat
    /\ exists p',
         update_particle Samples.still Samples.negative_radius [] 1
           Samples.on_pointer = Some p'
         /\ particles' !! 1%nat = Some p'.
Proof.
  destruct (particle_pass_defined_pointer_off Samples.still
              Samples.negative_radius [] [0%nat; 1%nat]
              ltac:(simpl; lra) [Samples.near_pointer; Samples.on_pointer])
    as [particles' Hpass].
  exists particles'. split; [exact Hpass |].
  destruct (particle_pass_updates_each_once Samples.still
              Samples.negative_radius [] [0%nat; 1%nat] _ particles'
              sample_indices Hpass) as [Hlen Hall].
  split; [exact Hlen |].
  apply (proj1 (Hall 1%nat)).
  - apply list_elem_of_further, list_elem_of_here.
  - rewrite sample_count. lia.
  - reflexivity.
Defined.

(** X3, at work: [compute] on a buffer of two particles. *)
Lemma compute_updates_every_particle_sample :
  exists particles',
    particle_pass Samples.still Samples.negative_radius []
      (dispatched (workgroupsX 2)) [Samples.near_pointer; Samples.on_pointer]
    = Some particles'
    /\ (2 <= 64 * workgroupsX 2 < 2 + 64)%nat
    /\ exists p',
         update_particle Samples.still Samples.negative_radius [] 0
           Samples.near_pointer = Some p'
         /\ particles' !! 0%nat = Some p'.
Proof.
  destruct (particle_pass_defined_pointer_off Samples.still
              Samples.negative_radius [] (dispatched (workgroupsX 2))
              ltac:(simpl; lra) [Samples.near_pointer; Samples.on_pointer])
    as [particles' Hpass].
  exists particles'. split; [exact Hpass |].
  destruct (compute_updates_every_particle Samples.still
              Samples.negative_radius [] 2
              [Samples.near_pointer; Samples.on_pointer] particles')
    as (Hcover & Hall & _);
    [simpl; lra | lia | exact Hpass |].
  split; [exact Hcover |].
  apply Hall; [lia | reflexivity].
Defined.

End ComputeDispatch.

Section ParticleUpdateFacts.

Import ParticlePass.

Lemma clamp_range (x lo hi : R) : lo <= hi -> lo <= clamp x lo hi <= hi.
Proof.
  intros H. unfold clamp, Rmin, Rmax.
  repeat destruct (Rle_dec _ _); lra.
Qed.

Lemma clamp_inside (x lo hi : R) : lo <= x <= hi -> clamp x lo hi = x.
Proof.
  intros H. unfold clamp, Rmin, Rmax.
  repeat destruct (Rle_dec _ _); lra.
Qed.

Lemma clamp_above (x lo hi : R) : lo <= hi -> hi <= x -> clamp x lo hi = hi.
Proof.
  intros H Hx. unfold clamp, Rmin, Rmax.
  repeat destruct (Rle_dec _ _); lra.
Qed.

Lemma smoothstep_range (x : R) : 0 <= smoothstep 0 0.5 x <= 1.
Proof.
  unfold smoothstep.
  pose proof (clamp_range ((x - 0) / (0.5 - 0)) 0 1 ltac:(lra)) as Ht.
  set (t := clamp _ 0 1) in *. cbv zeta. split.
  - apply Rmult_le_pos; [nra | lra].
  - replace (t * t * (3 - 2 * t)) with (1 - (1 - t) * (1 - t) * (1 + 2 * t))
      by ring.
    assert (0 <= (1 - t) * (1 - t) * (1 + 2 * t))
      by (apply Rmult_le_pos; [nra | lra]).
    lra.
Qed.

(** Scaling a vector by a scalar that is not negative scales its length. *)
Lemma vlength_scale (v : vec3) (c : R) :
  0 <= c -> vlength (v *s c) = c * vlength v.
Proof.
  intros Hc. unfold vlength.
  replace (dot (v *s c) (v *s c)) with (c * c * dot v v)
    by (unfold dot, vscale; simpl; ring).
  rewrite sqrt_mult by (try apply dot_self_nonneg; nra).
  rewrite sqrt_square by exact Hc. reflexivity.
Qed.

Lemma integrate_velocity (u : Uniforms) (force : vec3) (p : Particle) :
  velocity (integrate u force p)
  = (velocity p +v force *s deltaTime u) *s 0.98.
Proof. reflexivity. Qed.

Lemma integrate_rest (u : Uniforms) (p : Particle) :
  velocity (integrate u vzero p) = velocity p *s 0.98.
Proof.
  rewrite integrate_velocity. f_equal.
  destruct (velocity p) as [a b c]. vec_eq.
Qed.

Lemma integrate_rest_iter (u : Uniforms) (n : nat) (p : Particle) :
  velocity (Nat.iter n (integrate u vzero) p) = velocity p *s 0.98 ^ n.
Proof.
  induction n as [| n IH].
  - simpl. destruct (velocity p) as [a b c]. vec_eq.
  - rewrite Nat.iter_succ, integrate_rest, IH.
    unfold vscale; simpl. f_equal; ring.
Qed.

(** X4.  The integration step leaves a particle with 0.98 times the speed of
    its velocity plus force times [deltaTime]; under no force, [n] frames
    leave it with [0.98 ^ n] times its speed, its direction unchanged. *)
Theorem integration_damps (u : Uniforms) (force : vec3) (p : Particle)
    (n : nat) :
  vlength (velocity (integrate u force p))
    = 0.98 * vlength (velocity p +v force *s deltaTime u)
  /\ velocity (Nat.iter n (integrate u vzero) p) = velocity p *s 0.98 ^ n
  /\ vlength (velocity (Nat.iter n (integrate u vzero) p))
     = 0.98 ^ n * vlength (velocity p).
Proof.
  split; [| split].
  - rewrite integrate_velocity. apply vlength_scale. lra.
  - apply integrate_rest_iter.
  - rewrite integrate_rest_iter. apply vlength_scale.
    apply pow_le. lra.
Qed.

Lemma update_color_fields (p : Particle) :
  position (update_color p) = position p
  /\ velocity (update_color p) = velocity p
  /\ life (update_color p) = life p
  /\ size (update_color p) = size p
  /\ targetPos (update_color p) = targetPos p.
Proof. repeat split. Qed.

(** What a defined update is made of. *)
Lemma update_particle_inv (curlNoise : vec3 -> vec3) (u : Uniforms)
    (targets : list vec3) (index : nat) (p p' : Particle) :
  update_particle curlNoise u targets index p = Some p' ->
  exists force,
    p' = update_color (integrate u force (life_cycle u p)).
Proof.
  unfold update_particle, forces_and_integration. intros H.
  destruct (mouseForce u (life_cycle u p)) as [mouse |]; simpl in H;
    [| discriminate].
  injection H as <-. eexists. reflexivity.
Qed.


Lemma vmix_ends (a b : vec3) : vmix a b 0 = a /\ vmix a b 1 = b.
Proof.
  destruct a, b. unfold vmix, mix; simpl. split; f_equal; ring.
Qed.

(** X6.  The colour an update leaves is a mix of the slow and the fast
    colour with a weight in [0, 1], so that its channels stay within
    [0.1, 1], [0.4, 0.9] and [0.3, 0.9]; a particle at rest gets the slow
    colour and a particle at speed 0.5 or more the fast colour. *)
Theorem colour_follows_speed (p : Particle) :
  let t := smoothstep 0 0.5 (clamp (vlength (velocity p)) 0 0.5) in
  color (update_color p) = vmix slowColor fastColor t
  /\ 0 <= t <= 1
  /\ 0.1 <= vx (color (update_color p)) <= 1
  /\ 0.4 <= vy (color (update_color p)) <= 0.9
  /\ 0.3 <= vz (color (update_color p)) <= 0.9
  /\ (velocity p = vzero -> color (update_color p) = slowColor)
  /\ (0.5 <= vlength (velocity p) -> color (update_color p) = fastColor).
Proof.
  intros t.
  assert (Hc : color (update_color p) = vmix slowColor fastColor t)
    by reflexivity.
  pose proof (smoothstep_range (clamp (vlength (velocity p)) 0 0.5)) as Ht.
  fold t in Ht.
  split; [exact Hc |]. split; [exact Ht |].
  rewrite Hc. unfold vmix, mix, slowColor, fastColor; simpl.
  split; [nra |]. split; [nra |]. split; [nra |]. split.
  - intros Hv.
    assert (Ht0 : t = 0).
    { unfold t. rewrite Hv, vlength_zero.
      rewrite clamp_inside by lra. unfold smoothstep.
      replace ((0 - 0) / (0.5 - 0)) with 0 by (field; lra).
      rewrite clamp_inside by lra. ring. }
    rewrite Ht0. f_equal; ring.
  - intros Hv.
    assert (Ht1 : t = 1).
    { unfold t. rewrite clamp_above by lra. unfold smoothstep.
      replace ((0.5 - 0) / (0.5 - 0)) with 1 by (field; lra).
      rewrite clamp_inside by lra. ring. }
    rewrite Ht1. f_equal; ring.
Qed.

Lemma update_defined_pointer_off (curlNoise : vec3 -> vec3) (u : Uniforms)
    (targets : list vec3) (index : nat) (p : Particle) :
  hoverRadius u <= 0 -> is_Some (update_particle curlNoise u targets index p).
Proof.
  intros Hr. unfold update_particle, forces_and_integration.
  rewrite (mouseForce_off u _ Hr). simpl. eexists; reflexivity.
Qed.


(** X6, at work: a particle at rest. *)
Lemma colour_follows_speed_sample :
  color (update_color Samples.on_pointer) = slowColor.
Proof.
  destruct (colour_follows_speed Samples.on_pointer)
    as (_ & _ & _ & _ & _ & Hrest & _).
  apply Hrest. reflexivity.
Defined.

End ParticleUpdateFacts.

(** ** The fiber pass that moves particles, as a whole *)

Section FiberPassFrame.

Import FiberPass Schedule.

Variable u : FiberUniforms.

(** The three ways an invocation can end. *)
Lemma fiber_main_inv (index : nat) (s s' : Store) :
  main u index s = Some s' ->
  s' = s
  \/ (exists fiber,
        fst s !! index = Some fiber
        /\ s' = (<[index := set_isActive fiber 0]> (fst s), snd s))
  \/ (exists fiber startParticle endParticle deltaVelocity strength',
        fst s !! index = Some fiber
        /\ snd s !! start fiber = Some startParticle
        /\ snd s !! end_ fiber = Some endParticle
        /\ start fiber <> end_ fiber
        /\ s' = (<[index := set_strength fiber strength']> (fst s),
                 <[end_ fiber :=
                     set_velocity endParticle
                       (velocity endParticle -v deltaVelocity)]>
                   (<[start fiber :=
                        set_velocity startParticle
                          (velocity startParticle +v deltaVelocity)]> (snd s)))).
Proof.
  intros Hmain. unfold main in Hmain.
  destruct (fst s !! index) as [fiber |] eqn:Hf;
    [| injection Hmain as <-; left; reflexivity].
  destruct (Rlt_dec (isActive fiber) 0.5) as [_ | _];
    [injection Hmain as <-; left; reflexivity |].
  cbv zeta in Hmain.
  destruct (snd s !! start fiber) as [startParticle |] eqn:Hs;
    [| injection Hmain as <-; left; reflexivity].
  destruct (snd s !! end_ fiber) as [endParticle |] eqn:He;
    [| injection Hmain as <-; left; reflexivity].
  destruct (Rgt_dec _ (maxDistance u)) as [_ | _].
  { injection Hmain as <-. right; left. exists fiber. split; reflexivity. }
  destruct (Rlt_dec _ 0.0001) as [_ | Hapart];
    [injection Hmain as <-; left; reflexivity |].
  unfold apply_spring in Hmain.
  destruct (vdiv _ _) as [direction |]; simpl in Hmain; [| discriminate].
  injection Hmain as <-. right; right.
  eexists fiber, startParticle, endParticle, _, _.
  repeat split; try assumption; try reflexivity.
  apply (apart_distinct (snd s) fiber startParticle endParticle Hs He). lra.
Qed.

Lemma fiber_main_is_Some (index : nat) (s : Store) :
  is_Some (main u index s).
Proof.
  unfold main.
  destruct (fst s !! index) as [fiber |]; [| eexists; reflexivity].
  destruct (Rlt_dec (isActive fiber) 0.5); [eexists; reflexivity |].
  cbv zeta.
  destruct (snd s !! start fiber) as [startParticle |];
    [| eexists; reflexivity].
  destruct (snd s !! end_ fiber) as [endParticle |]; [| eexists; reflexivity].
  destruct (Rgt_dec _ (maxDistance u)); [eexists; reflexivity |].
  destruct (Rlt_dec _ 0.0001) as [| Hapart]; [eexists; reflexivity |].
  unfold apply_spring, vdiv.
  destruct (Req_dec_T _ 0) as [Hz | _]; [rewrite Hz in Hapart; lra |].
  simpl. eexists; reflexivity.
Qed.

(** X7.  An invocation of the fiber pass always has a result: the only
    division, by the distance between the ends, is reached with a distance
    of at least 0.0001; so every schedule of invocations can be run to its
    end. *)
Theorem fiber_main_defined (indices : list nat) (s : Store) :
  (forall index, is_Some (main u index s))
  /\ exists s', foldl (fun t index => t ≫= main u index) (Some s) indices = Some s'.
Proof.
  split; [intros index; apply fiber_main_is_Some |].
  revert s. induction indices as [| index rest IH]; intros s.
  - exists s. reflexivity.
  - simpl. destruct (fiber_main_is_Some index s) as [s1 H1].
    rewrite H1. apply IH.
Qed.

Lemma insert_keeps (A B : Type) (f : A -> B) (l : list A) (i : nat) (x y : A) :
  l !! i = Some x -> f y = f x -> f <$> <[i := y]> l = f <$> l.
Proof.
  intros Hx Hf. rewrite list_fmap_insert, Hf.
  apply list_insert_id. rewrite list_lookup_fmap, Hx. reflexivity.
Qed.

Lemma fiber_main_frame_step (index : nat) (s s' : Store) :
  main u index s = Some s' ->
  List.length (fst s') = List.length (fst s)
  /\ List.length (snd s') = List.length (snd s)
  /\ position <$> snd s' = position <$> snd s
  /\ life <$> snd s' = life <$> snd s
  /\ size <$> snd s' = size <$> snd s
  /\ color <$> snd s' = color <$> snd s
  /\ targetPos <$> snd s' = targetPos <$> snd s
  /\ start <$> fst s' = start <$> fst s
  /\ end_ <$> fst s' = end_ <$> fst s
  /\ length_ <$> fst s' = length_ <$> fst s.
Proof.
  intros Hmain.
  destruct (fiber_main_inv index s s' Hmain)
    as [-> | [(fiber & Hf & ->)
             | (fiber & ps & pe & dv & st & Hf & Hs & He & Hne & ->)]].
  - repeat split.
  - simpl. rewrite length_insert.
    repeat split;
      rewrite (insert_keeps _ _ _ _ _ fiber) by (exact Hf || reflexivity);
      reflexivity.
  - simpl. rewrite !length_insert.
    assert (He' : <[start fiber := set_velocity ps (velocity ps +v dv)]> (snd s)
                  !! end_ fiber = Some pe)
      by (rewrite list_lookup_insert_ne by exact Hne; exact He).
    repeat split;
      first
        [ rewrite (insert_keeps _ _ _ _ _ fiber) by (exact Hf || reflexivity);
          reflexivity
        | rewrite (insert_keeps _ _ _ _ _ pe) by (exact He' || reflexivity);
          rewrite (insert_keeps _ _ _ _ _ ps) by (exact Hs || reflexivity);
          reflexivity ].
Qed.

Lemma total_velocity_insert (particles : list Particle) (i : nat)
    (p q : Particle) :
  particles !! i = Some p ->
  total_velocity (<[i := q]> particles)
  = total_velocity particles -v velocity p +v velocity q.
Proof.
  revert i. induction particles as [| x l IH]; intros i Hp; [discriminate |].
  destruct i as [| i]; simpl in *.
  - injection Hp as ->. unfold total_velocity; simpl.
    fold (total_velocity l).
    destruct (velocity p), (velocity q), (total_velocity l). vec_eq.
  - unfold total_velocity; simpl.
    fold (total_velocity l). fold (total_velocity (<[i := q]> l)).
    rewrite (IH i Hp).
    destruct (velocity x), (velocity p), (velocity q), (total_velocity l).
    vec_eq.
Qed.

Lemma fiber_main_momentum_step (index : nat) (s s' : Store) :
  main u index s = Some s' ->
  total_velocity (snd s') = total_velocity (snd s).
Proof.
  intros Hmain.
  destruct (fiber_main_inv index s s' Hmain)
    as [-> | [(fiber & Hf & ->)
             | (fiber & ps & pe & dv & st & Hf & Hs & He & Hne & ->)]];
    [reflexivity | reflexivity |].
  simpl.
  rewrite (total_velocity_insert _ (end_ fiber) pe)
    by (rewrite list_lookup_insert_ne by exact Hne; exact He).
  rewrite (total_velocity_insert _ (start fiber) ps) by exact Hs.
  simpl.
  destruct (velocity ps), (velocity pe), dv, (total_velocity (snd s)). vec_eq.
Qed.

(** X8.  The fiber pass moves nothing: through any sequence of its
    invocations both buffers keep their length, every particle keeps its
    position, life, size, colour and morph anchor, and every fiber its two
    indices and its resting length. *)
Theorem fiber_pass_frame (s s' : Store) :
  rtc (step u) s s' ->
  List.length (fst s') = List.length (fst s)
  /\ List.length (snd s') = List.length (snd s)
  /\ position <$> snd s' = position <$> snd s
  /\ life <$> snd s' = life <$> snd s
  /\ size <$> snd s' = size <$> snd s
  /\ color <$> snd s' = color <$> snd s
  /\ targetPos <$> snd s' = targetPos <$> snd s
  /\ start <$> fst s' = start <$> fst s
  /\ end_ <$> fst s' = end_ <$> fst s
  /\ length_ <$> fst s' = length_ <$> fst s.
Proof.
  induction 1 as [s | s t s' [index Hmain] _ IH].
  - repeat split.
  - destruct (fiber_main_frame_step index s t Hmain)
      as (H1 & H2 & H3 & H4 & H5 & H6 & H7 & H8 & H9 & H10).
    destruct IH as (I1 & I2 & I3 & I4 & I5 & I6 & I7 & I8 & I9 & I10).
    repeat split; congruence.
Qed.


End FiberPassFrame.

Section FiberPassFrameSamples.

Import FiberPass Schedule.

Lemma sample_step :
  exists s', main Samples.spring 0 Samples.linked = Some s'
             /\ rtc (step Samples.spring) Samples.linked s'.
Proof.
  destruct (fiber_main_is_Some Samples.spring 0 Samples.linked) as [s' Hs'].
  exists s'. split; [exact Hs' |]. apply rtc_once. exists 0%nat. exact Hs'.
Qed.

(** X8, at work: the sample fiber pulls, and its ends stay where they
    are. *)
Lemma fiber_pass_frame_sample :
  exists s',
    main Samples.spring 0 Samples.linked = Some s'
    /\ position <$> snd s' = [vzero; V3 3 0 0]
    /\ length_ <$> fst s' = [1].
Proof.
  destruct sample_step as (s' & Hmain & Hsteps).
  exists s'. split; [exact Hmain |].
  destruct (fiber_pass_frame Samples.spring Samples.linked s' Hsteps)
    as (_ & _ & Hpos & _ & _ & _ & _ & _ & _ & Hlen).
  split; [exact Hpos | exact Hlen].
Defined.


End FiberPassFrameSamples.

(** ** The read-only fiber pass, run again and again *)

Section FiberPassRODecay.

Import FiberPassRO.

Variable u : FiberUniforms.

Lemma ro_main_particles (index : nat) (s : Store) :
  snd (main u index s) = snd s.
Proof. unfold main. destruct (fst s !! index); reflexivity. Qed.

Lemma ro_iter_particles (index n : nat) (s : Store) :
  snd (Nat.iter n (main u index) s) = snd s.
Proof.
  induction n as [| n IH]; [reflexivity |].
  rewrite Nat.iter_succ, ro_main_particles. exact IH.
Qed.

(** One invocation on an active fiber within reach. *)
Lemma ro_main_within (index : nat) (s : Store) (fiber : Fiber) :
  fst s !! index = Some fiber ->
  isActive fiber > 0.5 ->
  let distance :=
    vlength (position (read (snd s) (end_ fiber))
             -v position (read (snd s) (start fiber))) in
  distance <= maxDistance u ->
  fst (main u index s) !! index
  = Some (mkFiber (start fiber) (end_ fiber)
            (strength fiber * (1 - damping u)) distance (isActive fiber)).
Proof.
  intros Hf Hact distance Hnear. unfold main. rewrite Hf. simpl.
  rewrite list_lookup_insert_eq by exact (lookup_lt_Some _ _ _ Hf).
  f_equal. unfold update_fiber.
  destruct (Rgt_dec (isActive fiber) 0.5) as [_ | Hn]; [| contradiction].
  unfold active_block. cbv zeta. fold distance.
  destruct (Rgt_dec distance (maxDistance u)) as [Hgt | _]; [lra |].
  simpl. unfold set_strength, set_length, mix; simpl. f_equal. ring.
Qed.

(** One invocation on an active fiber out of reach. *)
Lemma ro_main_beyond (index : nat) (s : Store) (fiber : Fiber) :
  fst s !! index = Some fiber ->
  isActive fiber > 0.5 ->
  let distance :=
    vlength (position (read (snd s) (end_ fiber))
             -v position (read (snd s) (start fiber))) in
  distance > maxDistance u ->
  fst (main u index s) !! index
  = Some (mkFiber (start fiber) (end_ fiber)
            (strength fiber * (1 - damping u)) distance 0).
Proof.
  intros Hf Hact distance Hfar. unfold main. rewrite Hf. simpl.
  rewrite list_lookup_insert_eq by exact (lookup_lt_Some _ _ _ Hf).
  f_equal. unfold update_fiber.
  destruct (Rgt_dec (isActive fiber) 0.5) as [_ | Hn]; [| contradiction].
  unfold active_block. cbv zeta. fold distance.
  destruct (Rgt_dec distance (maxDistance u)) as [_ | Hn]; [| contradiction].
  simpl. unfold set_strength, set_length, mix; simpl. f_equal. ring.
Qed.

(** An invocation on an inactive fiber changes nothing. *)
Lemma ro_main_inactive (index : nat) (s : Store) (fiber : Fiber) :
  fst s !! index = Some fiber -> isActive fiber <= 0.5 -> main u index s = s.
Proof.
  intros Hf Hoff. unfold main. rewrite Hf. unfold update_fiber.
  destruct (Rgt_dec (isActive fiber) 0.5) as [Hgt | _]; [lra |].
  rewrite list_insert_id by exact Hf. destruct s; reflexivity.
Qed.

Lemma ro_decay (index : nat) (s : Store) (fiber : Fiber) :
  fst s !! index = Some fiber ->
  isActive fiber > 0.5 ->
  let distance :=
    vlength (position (read (snd s) (end_ fiber))
             -v position (read (snd s) (start fiber))) in
  distance <= maxDistance u ->
  forall n,
    fst (Nat.iter (S n) (main u index) s) !! index
    = Some (mkFiber (start fiber) (end_ fiber)
              (strength fiber * (1 - damping u) ^ S n) distance
              (isActive fiber)).
Proof.
  intros Hf Hact distance Hnear n. induction n as [| n IH].
  - simpl Nat.iter. rewrite (ro_main_within index s fiber Hf Hact Hnear).
    fold distance. do 2 f_equal. simpl. ring.
  - rewrite Nat.iter_succ.
    set (t := Nat.iter (S n) (main u index) s) in *.
    assert (Ht : snd t = snd s) by apply ro_iter_particles.
    pose proof (ro_main_within index t _ IH) as H.
    simpl in H. rewrite Ht in H.
    rewrite (H Hact Hnear). do 2 f_equal. simpl. ring.
Qed.

Lemma ro_break (index : nat) (s : Store) (fiber : Fiber) :
  fst s !! index = Some fiber ->
  isActive fiber > 0.5 ->
  let distance :=
    vlength (position (read (snd s) (end_ fiber))
             -v position (read (snd s) (start fiber))) in
  distance > maxDistance u ->
  forall n,
    Nat.iter (S n) (main u index) s = main u index s.
Proof.
  intros Hf Hact distance Hfar n. induction n as [| n IH]; [reflexivity |].
  rewrite Nat.iter_succ, IH.
  apply (ro_main_inactive index _ _ (ro_main_beyond index s fiber Hf Hact Hfar)).
  simpl. lra.
Qed.


End FiberPassRODecay.


(** ** Colours on the host *)

Section ColourFacts.

Import Colour.

Lemma shape_range (k : R) :
  -1 <= Rmax (Rmin (Rmin (k - 3) (9 - k)) 1) (-1) <= 1.
Proof.
  unfold Rmax, Rmin. repeat destruct (Rle_dec _ _); lra.
Qed.

Lemma channel_range (l a m : R) :
  0 <= a -> a <= l -> a <= 1 - l -> -1 <= m <= 1 -> 0 <= l - a * m <= 1.
Proof. intros Ha Hl Hl' Hm. nra. Qed.

Lemma chroma_range (s l : R) :
  0 <= s <= 1 -> 0 <= l <= 1 ->
  0 <= s * Rmin l (1 - l) /\ s * Rmin l (1 - l) <= l
  /\ s * Rmin l (1 - l) <= 1 - l.
Proof.
  intros Hs Hl. unfold Rmin. destruct (Rle_dec l (1 - l)); nra.
Qed.

Lemma hsl2rgb_channels (h s l : R) :
  0 <= s <= 100 -> 0 <= l <= 100 ->
  (0 <= r (hsl2rgb h s l) <= 1)
  /\ (0 <= g (hsl2rgb h s l) <= 1)
  /\ (0 <= b (hsl2rgb h s l) <= 1).
Proof.
  intros Hs Hl. unfold hsl2rgb. cbv zeta. simpl.
  destruct (chroma_range (s / 100) (l / 100)) as (Ha & Hal & Hal'); [lra | lra |].
  repeat split; apply channel_range; try assumption; apply shape_range.
Qed.

Lemma hsl2rgb_grey (h l : R) :
  hsl2rgb h 0 l = RGB (l / 100) (l / 100) (l / 100).
Proof.
  unfold hsl2rgb. cbv zeta. f_equal; unfold Rdiv; ring.
Qed.

(** X11.  [hsl2rgb] stays in the gamut: for a saturation and a lightness
    between 0 and 100 percent, and any hue, the three channels are between 0
    and 1; and with no saturation the three channels are the lightness. *)
Theorem hsl2rgb_in_gamut (h s l : R) :
  (0 <= s <= 100 -> 0 <= l <= 100 ->
   (0 <= r (hsl2rgb h s l) <= 1)
   /\ (0 <= g (hsl2rgb h s l) <= 1)
   /\ (0 <= b (hsl2rgb h s l) <= 1))
  /\ hsl2rgb h 0 l = RGB (l / 100) (l / 100) (l / 100).
Proof.
  split; [apply hsl2rgb_channels | apply hsl2rgb_grey].
Qed.

(** X11, at work: the colour the particles are seeded with, at a hue of 120
    degrees. *)
Lemma hsl2rgb_in_gamut_sample :
  (0 <= r (hsl2rgb 120 80 60) <= 1)
  /\ (0 <= g (hsl2rgb 120 80 60) <= 1)
  /\ (0 <= b (hsl2rgb 120 80 60) <= 1).
Proof.
  apply (proj1 (hsl2rgb_in_gamut 120 80 60)); lra.
Defined.

Lemma trunc_nonneg (x : R) : 0 <= x -> trunc x = Int_part x.
Proof.
  intros Hx. unfold trunc. destruct (Rle_dec 0 x); [reflexivity | contradiction].
Qed.

Lemma js_rem_1 (x : R) : 0 <= x -> js_rem x 1 = frac_part x.
Proof.
  intros Hx. unfold js_rem, frac_part.
  replace (x / 1) with x by (field; lra).
  rewrite trunc_nonneg by exact Hx. ring.
Qed.

Lemma palette_position (count len i : nat) :
  (i < count)%nat -> (1 <= len)%nat ->
  0 <= INR i / Rmax (INR count - 1) 1 * (INR len - 1) <= INR len - 1.
Proof.
  intros Hi Hlen.
  assert (Hi' : INR i <= INR count - 1).
  { replace (INR count) with (INR (S (count - 1))) by (f_equal; lia).
    rewrite S_INR.
    assert (INR i <= INR (count - 1)) by (apply le_INR; lia). lra. }
  assert (Hlen' : 0 <= INR len - 1).
  { apply le_INR in Hlen. simpl in Hlen. lra. }
  assert (H0 : 0 <= INR i) by apply pos_INR.
  set (d := Rmax (INR count - 1) 1).
  assert (Hd : 1 <= d /\ INR count - 1 <= d).
  { unfold d, Rmax. destruct (Rle_dec _ _); lra. }
  assert (Ht : 0 <= INR i / d <= 1).
  { split.
    - apply Rmult_le_pos; [exact H0 |]. apply Rlt_le, Rinv_0_lt_compat. lra.
    - apply (Rmult_le_reg_r d); [lra |].
      replace (INR i / d * d) with (INR i) by (field; lra). lra. }
  nra.
Qed.

(** X12.  The colouring loops stay inside the palette: for a particle [i] of
    [count] and a palette that is not empty, the two entries read are
    inside the palette, the lower one first, and the weight is in [0, 1);
    the first particle reads the first entry alone. *)
Theorem palette_slot_in_range (count len i : nat) :
  (i < count)%nat -> (1 <= len)%nat ->
  let '(floorIdx, ceilIdx, mix) := palette_slot count len i in
  (0 <= floorIdx <= ceilIdx)%Z /\ (ceilIdx <= Z.of_nat len - 1)%Z
  /\ 0 <= mix < 1
  /\ (i = 0%nat -> floorIdx = 0%Z /\ mix = 0).
Proof.
  intros Hi Hlen. unfold palette_slot. cbv zeta.
  pose proof (palette_position count len i Hi Hlen) as Hidx.
  set (idx := INR i / Rmax (INR count - 1) 1 * (INR len - 1)) in *.
  destruct (base_Int_part idx) as [Hfl Hfl'].
  destruct (ceil_bounds idx) as [Hce Hce'].
  assert (Hlen' : INR len - 1 = IZR (Z.of_nat len - 1)).
  { rewrite minus_IZR, <- INR_IZR_INZ. reflexivity. }
  assert (H0 : (0 <= Int_part idx)%Z).
  { apply Z.lt_succ_r. apply lt_IZR. rewrite succ_IZR. lra. }
  assert (H1 : (Int_part idx <= Schedule.ceil idx)%Z) by (apply le_IZR; lra).
  assert (H2 : (Int_part idx <= Z.of_nat len - 1)%Z) by (apply le_IZR; lra).
  rewrite js_rem_1 by lra.
  destruct (base_fp idx) as [Hf Hf'].
  split; [lia |]. split; [lia |]. split; [lra |].
  intros Hfirst.
  assert (Hz : idx = 0)
    by (unfold idx; rewrite Hfirst; simpl; unfold Rdiv; ring).
  rewrite Hz. split.
  - change 0 with (INR 0). apply Int_part_INR.
  - apply fp_R0.
Qed.

(** X12, at work: the third of ten particles on a palette of six. *)
Lemma palette_slot_in_range_sample :
  let '(floorIdx, ceilIdx, mix) := palette_slot 10 6 2 in
  (0 <= floorIdx <= ceilIdx)%Z /\ (ceilIdx <= 5)%Z /\ 0 <= mix < 1.
Proof.
  pose proof (palette_slot_in_range 10 6 2 ltac:(lia) ltac:(lia)) as H.
  destruct (palette_slot 10 6 2) as [[floorIdx ceilIdx] mix].
  destruct H as (H1 & H2 & H3 & _). repeat split; try lia; lra.
Defined.

End ColourFacts.

(** ** The particle system object *)

Section SystemFacts.

Import System.

(** X13.  [setParticleCount] keeps the count between 100 and 10000: a count
    in that range is taken as it is, any other is clamped to it, and
    setting the same count a second time changes nothing. *)
Theorem setParticleCount_clamps (count particleCount : Z) :
  ((100 <= particleCount <= 10000)%Z ->
   (100 <= setParticleCount count particleCount <= 10000)%Z)
  /\ ((100 <= count <= 10000)%Z -> setParticleCount count particleCount = count)
  /\ ((count < 100)%Z -> count <> particleCount ->
      setParticleCount count particleCount = 100%Z)
  /\ ((10000 < count)%Z -> count <> particleCount ->
      setParticleCount count particleCount = 10000%Z)
  /\ setParticleCount count (setParticleCount count particleCount)
     = setParticleCount count particleCount.
Proof.
  unfold setParticleCount.
  repeat split; intros; repeat destruct (decide _); lia.
Qed.

(** X13, at work: the slider at 50 and at 5000, from the initial 2500. *)
Lemma setParticleCount_clamps_sample :
  setParticleCount 50 2500 = 100%Z /\ setParticleCount 5000 2500 = 5000%Z.
Proof.
  split.
  - apply (proj1 (proj2 (proj2 (setParticleCount_clamps 50 2500)))); lia.
  - apply (proj1 (proj2 (setParticleCount_clamps 5000 2500))); lia.
Defined.

End SystemFacts.

(** ** Typed arrays on the host *)

Section ArrayFacts.

Import Host Arrays.

Context {A : Type}.

Lemma length_write3 (j : nat) (x y z : A) (a : list A) :
  List.length (write3 j x y z a) = List.length a.
Proof. unfold write3. rewrite !length_insert. reflexivity. Qed.

Lemma lookup_write3_other (j k : nat) (x y z : A) (a : list A) :
  (k < j \/ j + 2 < k)%nat -> write3 j x y z a !! k = a !! k.
Proof.
  intros Hk. unfold write3.
  rewrite !list_lookup_insert_ne by lia. reflexivity.
Qed.

Lemma lookup_write3 (j : nat) (x y z : A) (a : list A) :
  (j + 2 < List.length a)%nat ->
  write3 j x y z a !! j = Some x
  /\ write3 j x y z a !! (j + 1)%nat = Some y
  /\ write3 j x y z a !! (j + 2)%nat = Some z.
Proof.
  intros Hj. unfold write3. repeat split.
  - rewrite !list_lookup_insert_ne by lia. apply list_lookup_insert_eq. lia.
  - rewrite list_lookup_insert_ne by lia. apply list_lookup_insert_eq.
    rewrite length_insert. lia.
  - apply list_lookup_insert_eq. rewrite !length_insert. lia.
Qed.

(** A loop [for (i = s; i < s + n; i++) a[i] = f(i)]. *)
Lemma fill_lookup (f : nat -> A) (n : nat) :
  forall (s : nat) (a : list A) (j : nat),
    List.length (foldl (fun a i => <[i := f i]> a) a (seq s n)) = List.length a
    /\ foldl (fun a i => <[i := f i]> a) a (seq s n) !! j
       = if decide (s <= j < s + n /\ j < List.length a)%nat
         then Some (f j) else a !! j.
Proof.
  induction n as [| n IH]; intros s a j.
  - simpl. split; [reflexivity |].
    destruct (decide _) as [H | _]; [lia | reflexivity].
  - simpl. destruct (IH (S s) (<[s := f s]> a) j) as [Hlen Hj].
    rewrite Hlen, Hj, !length_insert. split; [reflexivity |].
    destruct (decide (S s <= j < S s + n /\ j < List.length a)%nat) as [H1 | H1];
      destruct (decide (s <= j < s + S n /\ j < List.length a)%nat) as [H2 | H2];
      try reflexivity; try lia.
    + destruct (decide (j = s)) as [-> | Hne].
      * apply list_lookup_insert_eq. lia.
      * lia.
    + destruct (decide (j = s)) as [-> | Hne].
      * rewrite list_insert_ge by lia. reflexivity.
      * apply list_lookup_insert_ne. lia.
Qed.

End ArrayFacts.

Section CopyTargets.

Import Host Arrays.

(** X14.  The copy of a target into the positions keeps the length of the
    position array and fills all of it: with a target that is not empty,
    coordinate [i] is coordinate [i mod length] of the target (the target is
    repeated when it is the shorter of the two); with an empty target every
    coordinate is [NaN]. *)
Theorem copy_targets_wraps (positionArray targetArray : list jsnum) (i : nat) :
  List.length (copy_targets positionArray targetArray)
    = List.length positionArray
  /\ ((i < List.length positionArray)%nat ->
      (0 < List.length targetArray)%nat ->
      copy_targets positionArray targetArray !! i
      = Some (at_ targetArray (i mod List.length targetArray)%nat))
  /\ ((i < List.length positionArray)%nat ->
      targetArray = [] ->
      copy_targets positionArray targetArray !! i = Some NaN).
Proof.
  unfold copy_targets. cbv zeta.
  set (copyLength := Nat.min (List.length positionArray) (List.length targetArray)).
  set (first := foldl (fun a i => <[i := at_ targetArray i]> a) positionArray
                  (seq 0 copyLength)).
  destruct (fill_lookup (at_ targetArray) copyLength 0 positionArray i)
    as [Hlen1 Hi1].
  fold first in Hlen1, Hi1.
  rewrite Hlen1.
  destruct (decide (List.length targetArray < List.length positionArray)%nat)
    as [Hshort | Hlong].
  - destruct (fill_lookup
                (fun i => at_ targetArray (i mod List.length targetArray)%nat)
                (List.length positionArray - copyLength) copyLength first i)
      as [Hlen2 Hi2].
    rewrite Hlen2, Hi2, Hlen1, Hi1.
    split; [reflexivity |]. split.
    + intros Hi Ht.
      destruct (decide (copyLength <= i
                        < copyLength + (List.length positionArray - copyLength)
                        /\ i < List.length positionArray)%nat) as [_ | Hn];
        [reflexivity |].
      destruct (decide (0 <= i < 0 + copyLength
                        /\ i < List.length positionArray)%nat) as [Hin | Hn'];
        [| unfold copyLength in *; lia].
      rewrite Nat.mod_small by (unfold copyLength in *; lia). reflexivity.
    + intros Hi ->.
      destruct (decide (copyLength <= i
                        < copyLength + (List.length positionArray - copyLength)
                        /\ i < List.length positionArray)%nat) as [_ | Hn];
        [reflexivity | unfold copyLength in Hn; simpl in Hn; lia].
  - rewrite Hi1. split; [exact Hlen1 |]. split.
    + intros Hi Ht.
      destruct (decide _) as [_ | Hn]; [| unfold copyLength in *; lia].
      rewrite Nat.mod_small by lia. reflexivity.
    + intros Hi ->. simpl in *. lia.
Qed.

(** X14, at work: a target of one point under two particles. *)
Lemma copy_targets_wraps_sample :
  copy_targets [Num 0; Num 0; Num 0; Num 0; Num 0; Num 0]
    [Num 1; Num 2; Num 3] !! 4%nat = Some (Num 2).
Proof.
  apply (proj1 (proj2 (copy_targets_wraps
           [Num 0; Num 0; Num 0; Num 0; Num 0; Num 0]
           [Num 1; Num 2; Num 3] 4))); simpl; lia.
Defined.

End CopyTargets.

Section SyncFacts.

Import Host Arrays.

Variable particleData : list jsnum.

(** The loop visits the multiples of 14 below the length of the data. *)
Lemma strides_spec (length i : nat) :
  i ∈ strides length <-> (i < length)%nat /\ exists k, i = (14 * k)%nat.
Proof.
  unfold strides. rewrite list_elem_of_fmap. split.
  - intros (k & -> & Hk). apply elem_of_seq in Hk. split; [| exists k; reflexivity].
    pose proof (Nat.Div0.mul_div_le (length + 13) 14) as H.
    lia.
  - intros (Hi & k & ->). exists k. split; [reflexivity |].
    apply elem_of_seq.
    assert (S k <= (length + 13) / 14)%nat
      by (apply Nat.div_le_lower_bound; lia).
    lia.
Qed.

Lemma sync_particle_length (m : Mirror) (k : nat) :
  List.length (positions (sync_particle particleData m (14 * k)))
    = List.length (positions m)
  /\ List.length (colors (sync_particle particleData m (14 * k)))
     = List.length (colors m).
Proof.
  unfold sync_particle. cbv zeta.
  destruct (decide _) as [_ | _]; [| split; reflexivity]. cbn [positions colors].
  rewrite length_write3. split; [reflexivity |].
  destruct (decide _) as [_ | _]; [apply length_write3 | reflexivity].
Qed.

Lemma sync_particle_other (m : Mirror) (k j : nat) :
  (j < k * 3 \/ k * 3 + 2 < j)%nat ->
  positions (sync_particle particleData m (14 * k)) !! j = positions m !! j
  /\ colors (sync_particle particleData m (14 * k)) !! j = colors m !! j.
Proof.
  intros Hj. unfold sync_particle. cbv zeta.
  replace (14 * k / 14)%nat with k by (rewrite Nat.mul_comm, Nat.div_mul; lia).
  destruct (decide _) as [_ | _]; [| split; reflexivity]. cbn [positions colors].
  rewrite lookup_write3_other by exact Hj. split; [reflexivity |].
  destruct (decide _) as [_ | _]; [| reflexivity].
  apply lookup_write3_other. exact Hj.
Qed.

Lemma sync_particle_own (m : Mirror) (k c : nat) :
  (k * 3 + 2 < List.length (positions m))%nat -> (c < 3)%nat ->
  positions (sync_particle particleData m (14 * k)) !! (k * 3 + c)%nat
    = Some (at_ particleData (14 * k + c))
  /\ ((k * 3 + 2 < List.length (colors m))%nat ->
      colors (sync_particle particleData m (14 * k)) !! (k * 3 + c)%nat
      = Some (at_ particleData (14 * k + 8 + c))).
Proof.
  intros Hpos Hc. unfold sync_particle. cbv zeta.
  replace (14 * k / 14)%nat with k by (rewrite Nat.mul_comm, Nat.div_mul; lia).
  destruct (decide (k * 3 + 2 < List.length (positions m))%nat) as [_ | Hn];
    [| contradiction].
  cbn [positions colors].
  destruct (lookup_write3 (k * 3) (at_ particleData (14 * k))
              (at_ particleData (14 * k + 1)) (at_ particleData (14 * k + 2))
              (positions m) Hpos) as (P0 & P1 & P2).
  split.
  - destruct c as [| [| [| c]]]; [| | | lia].
    + rewrite !Nat.add_0_r. exact P0.
    + exact P1.
    + exact P2.
  - intros Hcol.
    destruct (decide (k * 3 + 2 < List.length (colors m))%nat) as [_ | Hn];
      [| contradiction].
    destruct (lookup_write3 (k * 3) (at_ particleData (14 * k + 8))
                (at_ particleData (14 * k + 9)) (at_ particleData (14 * k + 10))
                (colors m) Hcol) as (C0 & C1 & C2).
    destruct c as [| [| [| c]]]; [| | | lia].
    + rewrite !Nat.add_0_r. exact C0.
    + replace (14 * k + 8 + 1)%nat with (14 * k + 9)%nat by lia. exact C1.
    + replace (14 * k + 8 + 2)%nat with (14 * k + 10)%nat by lia. exact C2.
Qed.

Lemma sync_fold (ks : list nat) :
  NoDup ks ->
  forall m,
    let m' := foldl (sync_particle particleData) m
                ((fun k => 14 * k)%nat <$> ks) in
    List.length (positions m') = List.length (positions m)
    /\ List.length (colors m') = List.length (colors m)
    /\ (forall j,
          (forall k, k ∈ ks -> (j < k * 3 \/ k * 3 + 2 < j)%nat) ->
          positions m' !! j = positions m !! j
          /\ colors m' !! j = colors m !! j)
    /\ (forall k c,
          k ∈ ks -> (k * 3 + 2 < List.length (positions m))%nat ->
          (c < 3)%nat ->
          positions m' !! (k * 3 + c)%nat = Some (at_ particleData (14 * k + c))
          /\ ((k * 3 + 2 < List.length (colors m))%nat ->
              colors m' !! (k * 3 + c)%nat
              = Some (at_ particleData (14 * k + 8 + c)))).
Proof.
  induction 1 as [| x l Hx Hnd IH]; intros m.
  - cbn [fmap list_fmap foldl].
    split; [reflexivity |]. split; [reflexivity |]. split.
    + intros j _. split; reflexivity.
    + intros k c Hk. apply elem_of_nil in Hk. contradiction.
  - rewrite fmap_cons. cbn [foldl].
    set (m1 := sync_particle particleData m (14 * x)).
    destruct (IH m1) as (Hlp & Hlc & Hother & Hown).
    destruct (sync_particle_length m x) as [Hlp1 Hlc1]. fold m1 in Hlp1, Hlc1.
    split; [congruence |]. split; [congruence |]. split.
    + intros j Hj.
      destruct (Hother j) as [Hp Hc].
      { intros k Hk. apply Hj. apply list_elem_of_further. exact Hk. }
      destruct (sync_particle_other m x j) as [Hp1 Hc1].
      { apply Hj. apply list_elem_of_here. }
      fold m1 in Hp1, Hc1. split; congruence.
    + intros k c Hk Hpos Hc.
      apply elem_of_cons in Hk as [Heq | Hk].
      * subst k. destruct (Hother (x * 3 + c)%nat) as [Hp Hcl].
        { intros k Hk. assert (k <> x) by (intros Heq; subst k; contradiction).
          lia. }
        destruct (sync_particle_own m x c Hpos Hc) as [Hp1 Hc1].
        fold m1 in Hp1, Hc1. rewrite Hp, Hcl. split; assumption.
      * destruct (Hown k c Hk) as [Hp Hcl]; [lia | exact Hc |].
        split; [exact Hp |]. intros Hcol. apply Hcl. lia.
Qed.

(** X15.  The copy into the mirror keeps the length of both mirror arrays.
    For every particle [k] whose first float is in the data and whose three
    coordinates fit in the position mirror, the mirror gets the floats 0 to
    2 of the particle as its position and, when they fit in the colour
    mirror, the floats 8 to 10 as its colour.  The mirror beyond the
    particles the data hold is left as it was. *)
Theorem sync_copies_positions_and_colours (m : Mirror) :
  let m' := sync particleData m in
  List.length (positions m') = List.length (positions m)
  /\ List.length (colors m') = List.length (colors m)
  /\ (forall k c,
        (14 * k < List.length particleData)%nat ->
        (k * 3 + 2 < List.length (positions m))%nat -> (c < 3)%nat ->
        positions m' !! (k * 3 + c)%nat = Some (at_ particleData (14 * k + c))
        /\ ((k * 3 + 2 < List.length (colors m))%nat ->
            colors m' !! (k * 3 + c)%nat
            = Some (at_ particleData (14 * k + 8 + c))))
  /\ (forall j,
        (3 * ((List.length particleData + 13) / 14) <= j)%nat ->
        positions m' !! j = positions m !! j
        /\ colors m' !! j = colors m !! j).
Proof.
  unfold sync, strides.
  destruct (sync_fold (seq 0 ((List.length particleData + 13) / 14))
              (NoDup_seq _ _) m) as (Hlp & Hlc & Hother & Hown).
  cbv zeta in *.
  split; [exact Hlp |]. split; [exact Hlc |]. split.
  - intros k c Hk Hpos Hc. apply Hown; try assumption.
    apply elem_of_seq.
    assert (S k <= (List.length particleData + 13) / 14)%nat
      by (apply Nat.div_le_lower_bound; lia).
    lia.
  - intros j Hj. apply Hother. intros k Hk.
    apply elem_of_seq in Hk. lia.
Qed.

End SyncFacts.

(** X15, at work: one particle of fourteen floats read into a mirror of one
    point. *)
Lemma sync_copies_sample :
  Arrays.positions
    (Arrays.sync
       (Host.Num <$> [1; 2; 3; 0; 0; 0; 2; 0.03; 0.1; 0.4; 0.9; 1; 2; 3])
       (Arrays.mkMirror [Host.Num 0; Host.Num 0; Host.Num 0]
          [Host.Num 0; Host.Num 0; Host.Num 0])) !! 1%nat
  = Some (Host.Num 2).
Proof.
  destruct (sync_copies_positions_and_colours
              (Host.Num <$> [1; 2; 3; 0; 0; 0; 2; 0.03; 0.1; 0.4; 0.9; 1; 2; 3])
              (Arrays.mkMirror [Host.Num 0; Host.Num 0; Host.Num 0]
                 [Host.Num 0; Host.Num 0; Host.Num 0]))
    as (_ & _ & Hcopy & _).
  destruct (Hcopy 0%nat 1%nat) as [Hp _]; simpl; try lia.
  exact Hp.
Defined.

Section SamplingFacts.

Import Arrays.

(** The vertex a sample reads is inside the vertex list. *)
Lemma sample_index_lt (totalPoints vertexCount i : nat) :
  (i < totalPoints)%nat -> (0 < vertexCount)%nat ->
  (sample_index totalPoints vertexCount i < vertexCount)%nat.
Proof.
  intros Hi Hv. unfold sample_index.
  destruct (decide (totalPoints <= vertexCount)%nat) as [_ | _].
  - set (x := INR i / INR totalPoints * INR vertexCount).
    assert (Ht : 0 < INR totalPoints) by (apply lt_0_INR; lia).
    assert (Hvc : 0 < INR vertexCount) by (apply lt_0_INR; lia).
    assert (Hi' : INR i < INR totalPoints) by (apply lt_INR; exact Hi).
    assert (Hratio : INR i / INR totalPoints < 1).
    { apply (Rmult_lt_reg_r (INR totalPoints)); [exact Ht |].
      replace (INR i / INR totalPoints * INR totalPoints) with (INR i)
        by (field; lra).
      lra. }
    assert (Hx : x < INR vertexCount) by (unfold x; nra).
    destruct (base_Int_part x) as [Hfl _].
    assert (Hz : (Int_part x < Z.of_nat vertexCount)%Z).
    { apply lt_IZR. rewrite <- INR_IZR_INZ. lra. }
    lia.
  - apply Nat.mod_upper_bound. lia.
Qed.

Lemma sample_fold (vertices : list vec3) (center : vec3) (totalPoints : nat) :
  (0 < List.length vertices)%nat ->
  forall n, (n <= totalPoints)%nat ->
  exists pts,
    foldl (sample_point vertices center totalPoints)
      (Some (replicate (totalPoints * 3)%nat 0)) (seq 0 n) = Some pts
    /\ List.length pts = (totalPoints * 3)%nat
    /\ forall i, (i < n)%nat ->
       exists v,
         vertices !! sample_index totalPoints (List.length vertices) i = Some v
         /\ pts !! (i * 3)%nat = Some (vx v - vx center)
         /\ pts !! (i * 3 + 1)%nat = Some (vy v - vy center)
         /\ pts !! (i * 3 + 2)%nat = Some (vz v - vz center).
Proof.
  intros Hv. induction n as [| n IH]; intros Hn.
  - eexists. split; [reflexivity |]. split; [apply length_replicate |].
    intros i Hi. lia.
  - destruct IH as (pts & Hfold & Hlen & Hall); [lia |].
    rewrite seq_S, foldl_app, Hfold. cbn [foldl Nat.add].
    destruct (lookup_lt_is_Some_2 vertices
                (sample_index totalPoints (List.length vertices) n))
      as [v Hvn].
    { apply sample_index_lt; lia. }
    unfold sample_point. cbn [mbind option_bind]. rewrite Hvn. cbn [mbind option_bind].
    eexists. split; [reflexivity |].
    split; [rewrite length_write3; exact Hlen |].
    intros i Hi. destruct (decide (i = n)) as [-> | Hne].
    + exists v. split; [exact Hvn |].
      apply lookup_write3. lia.
    + destruct (Hall i) as (w & Hw & H0 & H1 & H2); [lia |].
      exists w. split; [exact Hw |].
      rewrite !lookup_write3_other by lia. repeat split; assumption.
Qed.

(** X16.  The sampling of a mesh never reads a vertex that is not there.
    With no vertex at all the points are all zero; otherwise the result has
    three coordinates per point, and every point is a vertex of the mesh,
    moved by the centre. *)
Theorem sample_points_are_vertices (vertices : list vec3) (center : vec3)
    (totalPoints : nat) :
  (vertices = [] ->
   sample_points vertices center totalPoints
   = Some (replicate (totalPoints * 3)%nat 0))
  /\ (vertices <> [] ->
      exists pts,
        sample_points vertices center totalPoints = Some pts
        /\ List.length pts = (totalPoints * 3)%nat
        /\ forall i, (i < totalPoints)%nat ->
           exists v,
             v ∈ vertices
             /\ pts !! (i * 3)%nat = Some (vx v - vx center)
             /\ pts !! (i * 3 + 1)%nat = Some (vy v - vy center)
             /\ pts !! (i * 3 + 2)%nat = Some (vz v - vz center)).
Proof.
  unfold sample_points. split.
  - intros ->. reflexivity.
  - intros Hne.
    assert (Hv : (0 < List.length vertices)%nat).
    { destruct vertices; [contradiction | simpl; lia]. }
    destruct (decide (List.length vertices = 0)%nat) as [Hz | _]; [lia |].
    destruct (sample_fold vertices center totalPoints Hv totalPoints
                (Nat.le_refl _)) as (pts & Hfold & Hlen & Hall).
    exists pts. split; [exact Hfold |]. split; [exact Hlen |].
    intros i Hi. destruct (Hall i Hi) as (v & Hvi & H0 & H1 & H2).
    exists v. split; [exact (list_elem_of_lookup_2 _ _ _ Hvi) |].
    repeat split; assumption.
Qed.

(** X16, at work: two vertices sampled into three points. *)
Lemma sample_points_are_vertices_sample :
  exists pts,
    sample_points [V3 1 0 0; V3 0 1 0] (V3 0.5 0.5 0) 3 = Some pts
    /\ List.length pts = 9%nat.
Proof.
  destruct (proj2 (sample_points_are_vertices [V3 1 0 0; V3 0 1 0]
                     (V3 0.5 0.5 0) 3))
    as (pts & Hpts & Hlen & _); [discriminate |].
  exists pts. split; [exact Hpts | exact Hlen].
Defined.

End SamplingFacts.

(** ** The pointer *)

Section PointerFacts.

Import Pointer.

(** X17.  A pointer inside a window of positive size is normalised into the
    square from -1 to 1; the left edge gives -1, the right edge 1, the top
    edge 1 and the bottom edge -1 (the second coordinate points up). *)
Theorem handleMouseMove_normalises
    (clientX clientY innerWidth innerHeight : R) :
  0 < innerWidth -> 0 < innerHeight ->
  0 <= clientX <= innerWidth -> 0 <= clientY <= innerHeight ->
  let p := handleMouseMove clientX clientY innerWidth innerHeight in
  -1 <= x2 p <= 1 /\ -1 <= y2 p <= 1
  /\ x2 (handleMouseMove 0 clientY innerWidth innerHeight) = -1
  /\ x2 (handleMouseMove innerWidth clientY innerWidth innerHeight) = 1
  /\ y2 (handleMouseMove clientX 0 innerWidth innerHeight) = 1
  /\ y2 (handleMouseMove clientX innerHeight innerWidth innerHeight) = -1.
Proof.
  intros Hw Hh Hx Hy p. subst p. unfold handleMouseMove. simpl.
  assert (Hrx : 0 <= clientX / innerWidth <= 1).
  { split.
    - apply Rmult_le_pos; [lra |]. apply Rlt_le, Rinv_0_lt_compat. exact Hw.
    - apply (Rmult_le_reg_r innerWidth); [exact Hw |].
      replace (clientX / innerWidth * innerWidth) with clientX by (field; lra).
      lra. }
  assert (Hry : 0 <= clientY / innerHeight <= 1).
  { split.
    - apply Rmult_le_pos; [lra |]. apply Rlt_le, Rinv_0_lt_compat. exact Hh.
    - apply (Rmult_le_reg_r innerHeight); [exact Hh |].
      replace (clientY / innerHeight * innerHeight) with clientY
        by (field; lra).
      lra. }
  repeat split; try lra; try (field; lra).
Qed.

(** X17, at work: the middle of a window of 800 by 600. *)
Lemma handleMouseMove_normalises_sample :
  -1 <= x2 (handleMouseMove 400 300 800 600) <= 1
  /\ -1 <= y2 (handleMouseMove 400 300 800 600) <= 1.
Proof.
  destruct (handleMouseMove_normalises 400 300 800 600) as (Hx & Hy & _);
    [lra | lra | lra | lra |].
  split; [exact Hx | exact Hy].
Defined.

End PointerFacts.

(** ** The CPU morph tween, between its ends *)

Section MorphFacts.

Import Host.

Lemma ease_range (progress : R) :
  0 <= progress <= 1 -> 0 <= easedProgress progress <= 1.
Proof.
  intros [H0 H1]. split.
  - rewrite <- ease_start. apply ease_monotone; lra.
  - rewrite <- ease_end. apply ease_monotone; lra.
Qed.

(** Rounding keeps a number between two numbers of the format. *)
Lemma round_between (prec emin : Z) (x lo hi : R) :
  (0 < prec)%Z ->
  IEEE.round prec emin lo = lo -> IEEE.round prec emin hi = hi ->
  lo <= x <= hi -> lo <= IEEE.round prec emin x <= hi.
Proof.
  intros Hp Hlo Hhi [H1 H2]. split.
  - apply round_ge_rep; assumption.
  - apply round_le_rep; assumption.
Qed.

(** The tween starts at the start. *)
Lemma tween_start (s d : R) : IEEE.binary32 s = s -> tween s d 0 = s.
Proof.
  intros Hs. unfold tween. rewrite Rmult_0_r.
  unfold IEEE.binary64 at 2. rewrite round_0, Rplus_0_r.
  rewrite (binary32_in_binary64 s Hs). exact Hs.
Qed.

(** With an exact difference the tween stays between its ends. *)
Lemma tween_between (s d e : R) :
  IEEE.binary32 s = s -> IEEE.binary32 d = d ->
  IEEE.binary64 (d - s) = d - s -> 0 <= e <= 1 ->
  Rmin s d <= tween s d e <= Rmax s d.
Proof.
  intros Hs Hd Hexact He. unfold tween. rewrite Hexact.
  pose proof (binary32_in_binary64 s Hs) as Hs64.
  pose proof (binary32_in_binary64 d Hd) as Hd64.
  assert (H0 : IEEE.binary64 0 = 0) by apply round_0.
  unfold Rmin, Rmax. destruct (Rle_dec s d) as [Hle | Hgt].
  - assert (H1 : 0 <= IEEE.binary64 ((d - s) * e) <= d - s).
    { apply round_between; try assumption; [lia | nra]. }
    assert (H2 : s <= IEEE.binary64 (s + IEEE.binary64 ((d - s) * e)) <= d).
    { apply round_between; try assumption; [lia | lra]. }
    apply round_between; try assumption. lia.
  - assert (H1 : d - s <= IEEE.binary64 ((d - s) * e) <= 0).
    { apply round_between; try assumption; [lia | nra]. }
    assert (H2 : d <= IEEE.binary64 (s + IEEE.binary64 ((d - s) * e)) <= s).
    { apply round_between; try assumption; [lia | lra]. }
    apply round_between; try assumption. lia.
Qed.

(** X18.  A frame of the CPU morph tween writes as many coordinates as
    there are positions.  For a start and a destination that are binary32
    numbers, a coordinate is its start at progress 0; when their difference
    is exact in binary64, the coordinate lies between its start and its
    destination for every eased progress between 0 and 1, and from the end
    of the duration on it is its destination.  A coordinate past the end of
    the destination array becomes [NaN]. *)
Theorem morph_frame_stays_between (startPositions dest : list R)
    (eased : R) (i : nat) (s : R) :
  startPositions !! i = Some s ->
  List.length (morph_frame startPositions dest eased)
    = List.length startPositions
  /\ (forall d,
        dest !! i = Some d ->
        IEEE.binary32 s = s -> IEEE.binary32 d = d ->
        morph_frame startPositions dest (easedProgress 0) !! i = Some (Num s)
        /\ (IEEE.binary64 (d - s) = d - s ->
            (0 <= eased <= 1 ->
             exists x,
               morph_frame startPositions dest eased !! i = Some (Num x)
               /\ Rmin s d <= x <= Rmax s d)
            /\ (forall elapsed duration,
                  0 < duration -> duration <= elapsed ->
                  morph_frame startPositions dest
                    (easedProgress (progress_at elapsed duration)) !! i
                  = Some (Num d))))
  /\ (dest !! i = None ->
      morph_frame startPositions dest eased !! i = Some NaN).
Proof.
  intros Hs. split; [apply length_imap |]. split.
  - intros d Hd Hs32 Hd32. split.
    + rewrite (morph_frame_lookup _ _ _ _ _ Hs), Hd, ease_start.
      rewrite (tween_start s d Hs32). reflexivity.
    + intros Hexact. split.
      * intros He. eexists. split.
        -- rewrite (morph_frame_lookup _ _ _ _ _ Hs), Hd. reflexivity.
        -- apply tween_between; assumption.
      * intros elapsed duration Hdur Hel.
        rewrite (progress_at_end elapsed duration Hdur Hel).
        exact (morph_frame_end startPositions dest i s d Hs Hd Hd32 Hexact).
  - intros Hd. rewrite (morph_frame_lookup _ _ _ _ _ Hs), Hd. reflexivity.
Qed.

(** X18, at work: half-way through the sample morph, and past the end of a
    destination that is too short. *)
Lemma morph_frame_stays_between_sample :
  (exists x,
     morph_frame Samples.from_here Samples.to_there (easedProgress 0.5)
       !! 1%nat = Some (Num x)
     /\ Rmin 0 2 <= x <= Rmax 0 2)
  /\ morph_frame Samples.from_here [1; 2] (easedProgress 0.5) !! 2%nat
     = Some NaN.
Proof.
  split.
  - destruct (morph_frame_stays_between Samples.from_here Samples.to_there
                (easedProgress 0.5) 1 0 eq_refl) as (_ & Hin & _).
    destruct (Hin 2 eq_refl (binary32_small 0 ltac:(lia))
                (binary32_small 2 ltac:(lia))) as (_ & Hexact).
    assert (H64 : IEEE.binary64 (2 - 0) = 2 - 0)
      by (rewrite <- minus_IZR; apply binary64_small; lia).
    apply (proj1 (Hexact H64)). apply ease_range. lra.
  - destruct (morph_frame_stays_between Samples.from_here [1; 2]
                (easedProgress 0.5) 2 0 eq_refl) as (_ & _ & Hout).
    apply Hout. reflexivity.
Defined.

(** *** The defaults of the fiber uniforms *)

Lemma fiberUniformData_entries (deltaTime : R) (params : Params) :
  fiberUniformData deltaTime params
  = [ f32 (to_number (js_or (connectionDistance params) 2.0));
      f32 (to_number (js_or (fiberStrength params) 0.5));
      f32 (to_number (js_or (fiberDamping params) 0.05));
      Num (IEEE.binary32 deltaTime) ].
Proof. reflexivity. Qed.

(** X19.  [updateUniforms] writes sixteen numbers for the particle pass and
    four for the fiber pass, each rounded to binary32.  In the fiber
    uniforms a falsy connection distance, strength or damping (the number 0
    is one) is replaced by 2, 0.5 or the binary32 number nearest to 0.05; a
    number that is not zero, within the binary32 range, is written as the
    binary32 number nearest to it, which is 0 exactly when the number is at
    most [2^-150] in magnitude; and the frame's [deltaTime], rounded to
    binary32, is always the fourth number.  (The parameters are numbers,
    booleans or undefined.) *)
Theorem fiber_uniform_defaults (time deltaTime : R) (particleCount : nat)
    (params : Params) :
  let data := fiberUniformData deltaTime params in
  List.length (uniformData time deltaTime particleCount params) = 16%nat
  /\ List.length data = 4%nat
  /\ (Rabs deltaTime <= IEEE.max32 ->
      data !! 3%nat = Some (Num (IEEE.binary32 deltaTime)))
  /\ (truthy (connectionDistance params) = false -> data !! 0%nat = Some (Num 2))
  /\ (truthy (fiberStrength params) = false -> data !! 1%nat = Some (Num 0.5))
  /\ (truthy (fiberDamping params) = false ->
      data !! 2%nat = Some (Num (13421773 / 268435456)))
  /\ (forall r, r <> 0 -> Rabs r <= IEEE.max32 ->
        (connectionDistance params = JNumber (Num r) ->
         data !! 0%nat = Some (Num (IEEE.binary32 r)))
        /\ (fiberStrength params = JNumber (Num r) ->
            data !! 1%nat = Some (Num (IEEE.binary32 r)))
        /\ (fiberDamping params = JNumber (Num r) ->
            data !! 2%nat = Some (Num (IEEE.binary32 r))))
  /\ (forall i v,
        (i, v) ∈ [ (0%nat, connectionDistance params);
                   (1%nat, fiberStrength params);
                   (2%nat, fiberDamping params) ] ->
        data !! i = Some (Num 0)
        <-> exists r, v = JNumber (Num r) /\ r <> 0
                      /\ Rabs r <= IEEE.bpow (-150)).
Proof.
  intros data. unfold data. rewrite fiberUniformData_entries.
  split; [reflexivity |]. split; [reflexivity |].
  split; [intros _; reflexivity |].
  cbn [lookup list_lookup].
  split; [intros Hv; rewrite (store_default _ _ Hv); do 2 f_equal;
          replace 2.0 with 2 by lra; exact (binary32_small 2 ltac:(lia)) |].
  split; [intros Hv; rewrite (store_default _ _ Hv), binary32_half;
          reflexivity |].
  split; [intros Hv; rewrite (store_default _ _ Hv), binary32_twentieth;
          reflexivity |].
  split.
  { intros r Hr _.
    assert (Hw : forall d, f32 (to_number (js_or (JNumber (Num r)) d))
                           = Num (IEEE.binary32 r)).
    { intros d. rewrite js_or_truthy by (apply truthy_number; exact Hr).
      reflexivity. }
    repeat split; intros ->; rewrite Hw; reflexivity. }
  intros i v Hin.
  assert (Hd : exists d,
             IEEE.binary32 d <> 0
             /\ [ f32 (to_number (js_or (connectionDistance params) 2.0));
                  f32 (to_number (js_or (fiberStrength params) 0.5));
                  f32 (to_number (js_or (fiberDamping params) 0.05));
                  Num (IEEE.binary32 deltaTime) ] !! i
                = Some (f32 (to_number (js_or v d)))).
  { repeat (apply elem_of_cons in Hin as [Hin | Hin];
      [injection Hin as -> ->; eexists; split; [| reflexivity] |]);
      try (apply elem_of_nil in Hin; contradiction).
    - replace 2.0 with 2 by lra. rewrite (binary32_small 2) by lia. lra.
    - rewrite binary32_half. lra.
    - rewrite binary32_twentieth. lra. }
  destruct Hd as (d & Hd & Hi). rewrite Hi, <- (store_zero_iff v d Hd).
  split; [intros H; injection H as H; exact H | intros H; rewrite H; reflexivity].
Qed.

(** X19, at work on the parameter object whose numbers are all zero. *)
Lemma fiber_uniform_defaults_sample :
  fiberUniformData 0.016 Samples.all_zero !! 0%nat = Some (Num 2)
  /\ fiberUniformData 0.016 Samples.all_zero !! 1%nat = Some (Num 0.5)
  /\ fiberUniformData 0.016 Samples.all_zero !! 2%nat
     = Some (Num (13421773 / 268435456)).
Proof.
  destruct (fiber_uniform_defaults 1 0.016 2500 Samples.all_zero)
    as (_ & _ & _ & H0 & H1 & H2 & _).
  split; [exact (H0 zero_is_falsy) |].
  split; [exact (H1 zero_is_falsy) | exact (H2 zero_is_falsy)].
Defined.

End MorphFacts.

(** ** The sparkle *)

Section SparkleFacts.

Import Sparkle.

Lemma gain_range (twinkle t : R) (i : nat) : 1 <= gain twinkle t i <= 5.
Proof.
  unfold gain. cbv zeta.
  set (a := Rabs (sin (twinkle * t + INR i * 0.1))).
  assert (Ha : 0 <= a <= 1).
  { split; [apply Rabs_pos |]. unfold a. apply Rabs_le.
    destruct (SIN_bound (twinkle * t + INR i * 0.1)). split; lra. }
  assert (Hp : 0 <= a ^ 10 <= 1).
  { split; [apply pow_le; lra |].
    rewrite <- (pow1 10). apply pow_incr. exact Ha. }
  lra.
Qed.

(** X20.  The sparkle never darkens a particle and brightens it five-fold
    at most: the factor is between 1 and 5.  A particle that does not
    twinkle keeps its colour, and the colour array keeps its length. *)
Theorem sparkle_gain_bounded (twinkle t : R) (i : nat) (oc : Colour.rgb)
    (colArray : list R) :
  1 <= gain twinkle t i <= 5
  /\ List.length (sparkle_particle twinkle t i oc colArray)
     = List.length colArray
  /\ (twinkle <= 0 -> sparkle_particle twinkle t i oc colArray = colArray)
  /\ (twinkle > 0 -> (i * 3 + 2 < List.length colArray)%nat ->
      sparkle_particle twinkle t i oc colArray !! (i * 3)%nat
      = Some (Colour.r oc * gain twinkle t i)).
Proof.
  split; [apply gain_range |]. unfold sparkle_particle.
  destruct (Rgt_dec twinkle 0) as [Hgt | Hle].
  - split; [apply length_write3 |]. split; [intros; lra |].
    intros _ Hi. apply lookup_write3. exact Hi.
  - split; [reflexivity |]. split; [reflexivity |]. intros; lra.
Qed.

(** X20, at work: a particle that twinkles, in an array of one colour. *)
Lemma sparkle_gain_bounded_sample :
  sparkle_particle 4 1 0 (Colour.RGB 0.2 0.4 0.6) [0; 0; 0] !! 0%nat
  = Some (0.2 * gain 4 1 0).
Proof.
  apply (proj2 (proj2 (proj2 (sparkle_gain_bounded 4 1 0
           (Colour.RGB 0.2 0.4 0.6) [0; 0; 0])))); [lra | simpl; lia].
Defined.

End SparkleFacts.

(** ** The fiber network *)

Section FiberInitFacts.

Import FiberInit.

Lemma length_write5 (offset : nat) (a b c d e : R) (data : list R) :
  List.length (write5 offset a b c d e data) = List.length data.
Proof. unfold write5. rewrite !length_insert. reflexivity. Qed.

Lemma row_write5_other (k k' : nat) (a b c d e : R) (data : list R) :
  k <> k' -> row (write5 (k' * 5) a b c d e data) k = row data k.
Proof.
  intros Hne. unfold row, write5.
  rewrite !list_lookup_insert_ne by lia. reflexivity.
Qed.

Lemma row_write5 (k : nat) (a b c d e : R) (data : list R) :
  (k * 5 + 4 < List.length data)%nat ->
  row (write5 (k * 5) a b c d e data) k
  = [Some a; Some b; Some c; Some d; Some e].
Proof.
  intros Hk. unfold row, write5.
  repeat f_equal.
  - rewrite !list_lookup_insert_ne by lia.
    rewrite Nat.add_0_r. apply list_lookup_insert_eq. lia.
  - rewrite !list_lookup_insert_ne by lia.
    apply list_lookup_insert_eq. rewrite !length_insert. lia.
  - rewrite !list_lookup_insert_ne by lia.
    apply list_lookup_insert_eq. rewrite !length_insert. lia.
  - rewrite !list_lookup_insert_ne by lia.
    apply list_lookup_insert_eq. rewrite !length_insert. lia.
  - apply list_lookup_insert_eq. rewrite !length_insert. lia.
Qed.

Variable random : nat -> nat -> R.
Variable limit : nat.
Variable maxFibers : nat.

Lemma connect_well_formed (i j : nat) (st : Progress) :
  (i < j < limit)%nat -> (fiberIndex st < maxFibers)%nat ->
  well_formed limit maxFibers st ->
  well_formed limit maxFibers (connect random i j st).
Proof.
  intros Hij Hroom (Hle & Hlen & Hrows & Hrest). unfold connect.
  destruct (Rlt_dec (random i j) 0.01) as [_ | _];
    [| repeat split; assumption].
  cbv zeta. split; [simpl; lia |]. split; [simpl; rewrite length_write5; exact Hlen |].
  split.
  - intros k Hk. simpl in Hk. simpl fiberData.
    destruct (decide (k = fiberIndex st)) as [-> | Hne].
    + exists i, j. split; [exact Hij |]. apply row_write5. lia.
    + rewrite row_write5_other by exact Hne. apply Hrows. lia.
  - intros k Hk. simpl in Hk. simpl fiberData.
    rewrite row_write5_other by lia. apply Hrest. lia.
Qed.

Lemma inner_loop_well_formed (fuel i : nat) :
  forall j st,
    (i < j)%nat -> well_formed limit maxFibers st ->
    well_formed limit maxFibers (inner_loop random limit maxFibers fuel i j st).
Proof.
  induction fuel as [| fuel IH]; intros j st Hij Hwf; [exact Hwf |].
  simpl. destruct (decide _) as [[Hj Hroom] | _]; [| exact Hwf].
  apply IH; [lia |]. apply connect_well_formed; [lia | exact Hroom | exact Hwf].
Qed.

Lemma outer_loop_well_formed (fuel : nat) :
  forall i st,
    well_formed limit maxFibers st ->
    well_formed limit maxFibers (outer_loop random limit maxFibers fuel i st).
Proof.
  induction fuel as [| fuel IH]; intros i st Hwf; [exact Hwf |].
  simpl. destruct (decide _) as [_ | _]; [| exact Hwf].
  apply IH. apply inner_loop_well_formed; [lia | exact Hwf].
Qed.

(** The loops end by their tests: past [limit - j] rounds more fuel changes
    nothing, so the fuel [limit] of the model is never what stops them. *)
Lemma inner_loop_fuel (i : nat) (fuel : nat) :
  forall fuel' j st,
    (limit - j <= fuel)%nat -> (limit - j <= fuel')%nat ->
    inner_loop random limit maxFibers fuel i j st
    = inner_loop random limit maxFibers fuel' i j st.
Proof.
  induction fuel as [| fuel IH]; intros fuel' j st Hf Hf'.
  - destruct fuel' as [| fuel']; [reflexivity |].
    simpl. destruct (decide _) as [[Hj _] | _]; [lia | reflexivity].
  - destruct fuel' as [| fuel'].
    + simpl. destruct (decide _) as [[Hj _] | _]; [lia | reflexivity].
    + simpl. destruct (decide _) as [[Hj _] | _]; [| reflexivity].
      apply IH; lia.
Qed.

Lemma outer_loop_fuel (fuel : nat) :
  forall fuel' i st,
    (limit - i <= fuel)%nat -> (limit - i <= fuel')%nat ->
    outer_loop random limit maxFibers fuel i st
    = outer_loop random limit maxFibers fuel' i st.
Proof.
  induction fuel as [| fuel IH]; intros fuel' i st Hf Hf'.
  - destruct fuel' as [| fuel']; [reflexivity |].
    simpl. destruct (decide _) as [[Hi _] | _]; [lia | reflexivity].
  - destruct fuel' as [| fuel'].
    + simpl. destruct (decide _) as [[Hi _] | _]; [lia | reflexivity].
    + simpl. destruct (decide _) as [[Hi _] | _]; [| reflexivity].
      apply IH; lia.
Qed.

Lemma blank_well_formed :
  well_formed limit maxFibers (mkProgress 0 (replicate (maxFibers * 5)%nat 0)).
Proof.
  split; [simpl; lia |]. split; [apply length_replicate |]. split.
  - intros k Hk. simpl in Hk. lia.
  - intros k Hk. simpl in Hk. unfold row. simpl fiberData.
    rewrite !lookup_replicate_2 by lia. reflexivity.
Qed.

End FiberInitFacts.

(** X21.  Whatever numbers are drawn, [initializeFibers] fills at most
    [maxFibers] rows of a [Float32Array] of [maxFibers] rows of five
    numbers.  Each row filled holds two different particle indices, the
    lower one first, both below the particle count and below 1000, then
    0.5, 1 and 1; every row after those is all zero.  (The statement is
    about the numbers of the array: the shader declares the first two
    fields of a fiber as [u32] and reads the bits of these floats.) *)
Theorem initializeFibers_well_formed (random : nat -> nat -> R)
    (particleCount maxFibers : nat) :
  let st := FiberInit.initializeFibers random particleCount maxFibers in
  (FiberInit.fiberIndex st <= maxFibers)%nat
  /\ List.length (FiberInit.fiberData st) = (maxFibers * 5)%nat
  /\ (forall k, (k < FiberInit.fiberIndex st)%nat ->
      exists i j,
        (i < j)%nat /\ (j < particleCount)%nat /\ (j < 1000)%nat
        /\ FiberInit.row (FiberInit.fiberData st) k
           = [Some (INR i); Some (INR j); Some 0.5; Some 1; Some 1])
  /\ (forall k, (FiberInit.fiberIndex st <= k < maxFibers)%nat ->
      FiberInit.row (FiberInit.fiberData st) k
      = [Some 0; Some 0; Some 0; Some 0; Some 0]).
Proof.
  intros st.
  destruct (outer_loop_well_formed random (Nat.min particleCount 1000)
              maxFibers (Nat.min particleCount 1000) 0 _
              (blank_well_formed (Nat.min particleCount 1000) maxFibers))
    as (Hle & Hlen & Hrows & Hrest).
  fold (FiberInit.initializeFibers random particleCount maxFibers) in *.
  fold st in Hle, Hlen, Hrows, Hrest.
  split; [exact Hle |]. split; [exact Hlen |]. split; [| exact Hrest].
  intros k Hk. destruct (Hrows k Hk) as (i & j & Hij & Hrow).
  exists i, j. repeat split; try exact Hrow; lia.
Qed.
